(** * match-three-js: the board matching-and-resolution engine

    A shallow embedding of [src/unnamed/part_000] (the scanning helpers
    [hasMatchInSingleRow], [indexOfAll], [hasMatchInPairOfRows],
    [_iterchunks], [iterchunks], [_findMatches], [findMatches],
    [combineMatches], and the earlier class [Board] that follows them) and
    of [src/babel/src/board.js] (class [Board]), together with the few
    lodash 4.6 and collections 3.0 primitives these use.

    JavaScript arrays are lists, array indices are integers ([Z]) so that
    the reads at [row - 1] and [col - 1] and lodash's descending ranges can
    be written as in the source.  Code that can throw returns an [outcome];
    loops that need not terminate take fuel; every call of [Math.random]
    made by lodash is a draw from an explicit random source. *)

From Stdlib Require Import ZArith Lia Bool String Ascii.
From stdpp Require Import base decidable option list numbers sets pretty
  sorting.

Local Open Scope Z_scope.

(** ** JavaScript values held by the grid *)

(** A cell of [this.orbs] holds a token of [types] (the default
    [_.range(7)] makes them numbers), the cleared sentinel ['␚'] that
    [evaluate] writes, or [undefined] (what [_.sample([])], a read past the
    end of a row and the padding of [_.zip] give). *)
Inductive orb : Type :=
  | Tok (t : Z)
  | Cleared
  | Undefined.

#[global] Instance orb_eq_dec : EqDecision orb.
Proof. solve_decision. Defined.

(** [[row, col]] *)
Abbreviation coord := (Z * Z)%type.
(** [this.orbs]: the array of row arrays *)
Abbreviation grid := (list (list orb)).

(** What a call does: return a value, throw a [TypeError] (a property read
    or write on [undefined], a spread of [undefined]), or still be running
    when the fuel of the model ends. *)
Inductive outcome (A : Type) : Type :=
  | Ok (a : A)
  | TypeError
  | OutOfFuel.
Arguments Ok {A} a.
Arguments TypeError {A}.
Arguments OutOfFuel {A}.

Definition bind {A B} (m : outcome A) (k : A -> outcome B) : outcome B :=
  match m with
  | Ok a => k a
  | TypeError => TypeError
  | OutOfFuel => OutOfFuel
  end.

Notation "x <-- m ;; k" := (bind m (fun x => k))
  (at level 100, m at next level, right associativity, only parsing).

(** [_.each(l, f)] for a body [f] that updates a state and can throw. *)
Fixpoint each {A S} (l : list A) (f : S -> A -> outcome S) (s : S) : outcome S :=
  match l with
  | [] => Ok s
  | a :: l' => s' <-- f s a ;; each l' f s'
  end.

(** [arr[i]]: [None] is [undefined]. *)
Definition js_get {A} (l : list A) (i : Z) : option A :=
  if i <? 0 then None else l !! Z.to_nat i.

(** [row[c] = v].  Inside the row the slot is overwritten; past its end
    JavaScript extends the array, the holes reading as [undefined].  A
    negative [c] names a property that is no element of the array (and
    that [_.cloneDeep] does not copy): the elements stay as they are, and
    the property itself is not kept here. *)
Definition js_set (row : list orb) (c : Z) (v : orb) : list orb :=
  if c <? 0 then row
  else if c <? Z.of_nat (length row) then <[Z.to_nat c := v]> row
  else row ++ replicate (Z.to_nat c - length row)%nat Undefined ++ [v].

(** [orbs[r][c]]: a [TypeError] when [orbs[r]] is [undefined]. *)
Definition orb_at (orbs : grid) (r c : Z) : outcome orb :=
  match js_get orbs r with
  | None => TypeError
  | Some row => Ok (default Undefined (js_get row c))
  end.

(** [orbs[r][c] = v] *)
Definition set_orb (orbs : grid) (r c : Z) (v : orb) : outcome grid :=
  match js_get orbs r with
  | None => TypeError
  | Some row => Ok (<[Z.to_nat r := js_set row c v]> orbs)
  end.

(** [Array.prototype.slice(s, e)]: a negative bound counts from the end. *)
Definition js_slice {A} (l : list A) (s e : Z) : list A :=
  let len := Z.of_nat (length l) in
  let from := if s <? 0 then Z.max (len + s) 0 else Z.min s len in
  let to := if e <? 0 then Z.max (len + e) 0 else Z.min e len in
  take (Z.to_nat (to - from)) (drop (Z.to_nat from) l).

(** [Array.prototype.sort()] without a comparator orders the elements by
    their string forms; here on array indices. *)
Definition index_le (a b : nat) : bool :=
  String.leb (pretty a) (pretty b).

Fixpoint sort_insert (a : nat) (l : list nat) : list nat :=
  match l with
  | [] => [a]
  | b :: l' => if index_le a b then a :: l else b :: sort_insert a l'
  end.

Definition js_sort (l : list nat) : list nat :=
  foldr sort_insert [] l.

(** ** The random source

    Every number lodash obtains from [Math.random] is one draw. *)
Record Rand : Type := mkRand { tape : nat -> nat; cursor : nat }.

Definition draw (g : Rand) : nat * Rand :=
  (tape g (cursor g), mkRand (tape g) (S (cursor g))).

(** A random source that replays a finite list and then yields zeros. *)
Definition replay (l : list nat) : Rand :=
  mkRand (fun i => nth i l 0%nat) 0.

Module Lodash.

(** [_.range(start, end)]: without a step, lodash 4 counts down when
    [start < end] fails, so [_.range(0, -1)] is [[0]] and [_.range(0, 0)]
    is empty. *)
Definition range (s e : Z) : list Z :=
  if s <? e
  then map (fun i => s + Z.of_nat i) (seq 0 (Z.to_nat (e - s)))
  else map (fun i => s - Z.of_nat i) (seq 0 (Z.to_nat (s - e))).

(** [_.uniq]: the first occurrence of every element, in order. *)
Fixpoint uniq {A} `{EqDecision A} (l : list A) : list A :=
  match l with
  | [] => []
  | x :: l' => x :: filter (fun y => y <> x) (uniq l')
  end.

(** The value of [_.countBy(l)] at the key of [x]. *)
Definition count {A} `{EqDecision A} (x : A) (l : list A) : nat :=
  length (filter (fun y => y = x) l).

(** [_.zip(...orbs)]: the transpose, short rows padded with [undefined]. *)
Definition zip (orbs : grid) : grid :=
  map (fun i => map (fun row => default Undefined (row !! i)) orbs)
      (seq 0 (max_list (map length orbs))).

(** [baseRandom(lower, upper)]: [lower + floor(Math.random() * (upper - lower + 1))] *)
Definition baseRandom (lower upper : Z) (g : Rand) : Z * Rand :=
  let '(d, g') := draw g in
  (lower + Z.of_nat d mod (upper - lower + 1), g').

(** [_.random(upper)]: an integer between 0 and [upper], both included. *)
Definition random (upper : Z) (g : Rand) : Z * Rand :=
  if upper <? 0 then baseRandom upper 0 g else baseRandom 0 upper g.

(** [_.sample(l)]: [undefined], and no draw, on the empty array. *)
Definition sample {A} (l : list A) (g : Rand) : option A * Rand :=
  match l with
  | [] => (None, g)
  | _ =>
      let '(i, g') := baseRandom 0 (Z.of_nat (length l) - 1) g in
      (l !! Z.to_nat i, g')
  end.

(** [_.shuffle(l)]: for [index] from 0 to the end, exchange the slots
    [index] and [baseRandom(index, lastIndex)] of a copy. *)
Fixpoint shuffle_from {A} (n : nat) (index : nat) (l : list A) (g : Rand)
  : list A * Rand :=
  match n with
  | O => (l, g)
  | S n' =>
      let '(r, g') := baseRandom (Z.of_nat index) (Z.of_nat (length l) - 1) g in
      let l' :=
        match l !! Z.to_nat r, l !! index with
        | Some vr, Some vi => <[index := vr]> (<[Z.to_nat r := vi]> l)
        | _, _ => l
        end in
      shuffle_from n' (S index) l' g'
  end.

Definition shuffle {A} (l : list A) (g : Rand) : list A * Rand :=
  shuffle_from (length l) 0 l g.

(** [_.times(n, f)] for an [f] that draws from the random source. *)
Fixpoint times {A} (n : nat) (f : Rand -> A * Rand) (g : Rand) : list A * Rand :=
  match n with
  | O => ([], g)
  | S n' =>
      let '(a, g1) := f g in
      let '(l, g2) := times n' f g1 in
      (a :: l, g2)
  end.

End Lodash.

(** ** collections' [SortedSet] of coordinates

    The set orders and compares its values with [Object.compare] and
    [Object.equals], which on arrays are the lexicographic order and the
    element-wise equality; [toArray] lists the values in that order. *)
Module SortedSet.

Definition lt (a b : coord) : bool :=
  (a.1 <? b.1) || ((a.1 =? b.1) && (a.2 <? b.2)).

Fixpoint add (c : coord) (s : list coord) : list coord :=
  match s with
  | [] => [c]
  | d :: s' =>
      if lt c d then c :: s
      else if decide (c = d) then s
      else d :: add c s'
  end.

(** [new SortedSet(values)] *)
Definition of_list (l : list coord) : list coord :=
  foldl (fun s c => add c s) [] l.

(** [s.union(m)]: a copy of [s] with every value of [m] added *)
Definition union (s m : list coord) : list coord :=
  foldl (fun s c => add c s) s m.

(** [s.intersection(m)]: the values of [s] that [m] has *)
Definition intersection (s m : list coord) : list coord :=
  filter (fun c => c ∈ m) s.

End SortedSet.

(** ** part_000: scanning, enumeration and merging *)

(** [_.max(_.values(_.countBy(row))) > 2].  The keys of [_.countBy] are the
    string forms of the cells, one per distinct cell; on the empty row
    [_.max] is [undefined] and the comparison is false. *)
Definition hasMatchInSingleRow (row : list orb) : bool :=
  (2 <? max_list (map (fun v => Lodash.count v row) (Lodash.uniq row)))%nat.

Fixpoint indexOfAll_from (i : nat) (l : list orb) (value : orb) : list nat :=
  match l with
  | [] => []
  | e :: l' =>
      if decide (e = value)
      then i :: indexOfAll_from (S i) l' value
      else indexOfAll_from (S i) l' value
  end.

(** [indexOfAll(list, value)]; [_.reduce] over [undefined] is the empty
    accumulator. *)
Definition indexOfAll (l : option (list orb)) (value : orb) : list nat :=
  indexOfAll_from 0 (default [] l) value.

Definition hasMatchInPairOfRows (pairOfRows : list (list orb)) : bool :=
  let allValues := Lodash.uniq (concat pairOfRows) in
  let allMatches :=
    map (fun value =>
           js_sort (Lodash.uniq (indexOfAll (pairOfRows !! 0%nat) value ++
                                 indexOfAll (pairOfRows !! 1%nat) value)))
        allValues in
  existsb (fun m =>
             bool_decide (m = [0; 1; 2]%nat)
             || bool_decide (m = [1; 2; 3]%nat)
             || bool_decide (m = [0; 1; 2; 3]%nat))
          allMatches.

(** A chunk: the rows of the window and, when asked for, the object
    [{position: {first, last}}] pushed after them. *)
Record chunk : Type := mkChunk {
  chunk_rows : list (list orb);
  chunk_position : option (coord * coord)
}.

Definition _iterchunks (orbs : grid) (chunkLimitRange : Z * Z)
    (includePositionInformation isTransposed : bool) : outcome (list chunk) :=
  let '(width, height) := chunkLimitRange in
  match orbs !! 0%nat with
  | None => TypeError
  | Some row0 =>
      let finalPositionWidth := Z.of_nat (length row0) - width in
      let finalPositionHeight := Z.of_nat (length orbs) - height in
      Ok (flat_map (fun heightIndex =>
            map (fun widthIndex =>
                   let chunkData :=
                     map (fun row => js_slice row widthIndex (widthIndex + width))
                         (js_slice orbs heightIndex (heightIndex + height)) in
                   let startingCoordinates := (heightIndex, widthIndex) in
                   let endingCoordinates :=
                     (heightIndex + height - 1, widthIndex + width - 1) in
                   mkChunk chunkData
                     (if includePositionInformation
                      then Some (if isTransposed
                                 then (prod_swap startingCoordinates,
                                       prod_swap endingCoordinates)
                                 else (startingCoordinates, endingCoordinates))
                      else None))
                (Lodash.range 0 (finalPositionWidth + 1)))
            (Lodash.range 0 (finalPositionHeight + 1)))
  end.

(** [iterchunks(orbs)] with the default [chunkLimitRange = [4, 2]] and no
    position information. *)
Definition iterchunks (orbs : grid) : outcome (list chunk) :=
  let transposedOrbs := Lodash.zip orbs in
  a <-- _iterchunks orbs (4, 2) false false ;;
  b <-- _iterchunks transposedOrbs (4, 2) false true ;;
  Ok (a ++ b).

(** The body of the [_.each] of [_findMatches] at one chunk.  [_.first]
    of the chunk is its first row; without position information
    [metadata.position] is [undefined] and reading [.first] of it throws. *)
Definition match_of_chunk (c : chunk) (isTransposed : bool)
  : outcome (list (list coord)) :=
  let orbs := default [] (head (chunk_rows c)) in
  if decide (length (Lodash.uniq orbs) = 1%nat) then
    match chunk_position c with
    | None => TypeError
    | Some (anchor, _) =>
        let firstOrb := anchor in
        let secondOrb :=
          if isTransposed then (anchor.1 + 1, anchor.2) else (anchor.1, anchor.2 + 1) in
        let thirdOrb :=
          if isTransposed then (anchor.1 + 2, anchor.2) else (anchor.1, anchor.2 + 2) in
        Ok [[firstOrb; secondOrb; thirdOrb]]
    end
  else Ok [].

Fixpoint _findMatches (chunks : list chunk) (isTransposed : bool)
  : outcome (list (list coord)) :=
  match chunks with
  | [] => Ok []
  | c :: rest =>
      found <-- match_of_chunk c isTransposed ;;
      more <-- _findMatches rest isTransposed ;;
      Ok (found ++ more)
  end.

Definition findMatches (orbs : grid) : outcome (list (list coord)) :=
  chunksOriginal <-- _iterchunks orbs (3, 1) true false ;;
  chunksTransposed <-- _iterchunks (Lodash.zip orbs) (3, 1) true true ;;
  a <-- _findMatches chunksOriginal false ;;
  b <-- _findMatches chunksTransposed true ;;
  Ok (a ++ b).

(** The [_.each(couldMatch, ...)] of [combineMatches]: one pass over a
    copy of the groups still unused.  A group that meets the accumulator is
    absorbed and spliced out of [unused]; [before != currentMatch.toArray()]
    compares two fresh arrays and always holds.  [unused.indexOf(m)] finds
    [m] by identity, so the groups left in [unused] are exactly those the
    pass did not absorb, in their order. *)
Fixpoint each_couldMatch (couldMatch : list (list coord)) (currentMatch : list coord)
  : list coord * list (list coord) :=
  match couldMatch with
  | [] => (currentMatch, [])
  | m :: rest =>
      match SortedSet.intersection currentMatch m with
      | [] =>
          let '(cur, unused) := each_couldMatch rest currentMatch in
          (cur, m :: unused)
      | _ :: _ => each_couldMatch rest (SortedSet.union currentMatch m)
      end
  end.

(** The [while (unused[0] != null)] loop; [unused] loses a group at every
    turn, so its length bounds the number of turns. *)
Fixpoint combineMatches_loop (n : nat) (unused : list (list coord))
  : list (list coord) :=
  match n, unused with
  | S n', first :: rest =>
      let '(currentMatch, unused') :=
        each_couldMatch rest (SortedSet.of_list first) in
      currentMatch :: combineMatches_loop n' unused'
  | _, _ => []
  end.

Definition combineMatches (matches : list (list coord)) : list (list coord) :=
  combineMatches_loop (length matches) matches.

(** ** board.js: class [Board]

    [board.js] calls the helpers above under the names [findTriples],
    [hasPotentialMatchInSingleRow] and [hasPotentialMatchInPairOfRows]; their
    definitions are those of [findMatches], [hasMatchInSingleRow] and
    [hasMatchInPairOfRows]. *)

Definition findTriples := findMatches.
Definition hasPotentialMatchInSingleRow := hasMatchInSingleRow.
Definition hasPotentialMatchInPairOfRows := hasMatchInPairOfRows.

Record Board : Type := mkBoard {
  width : Z;
  height : Z;
  types : list orb;
  orbs : grid
}.

Definition with_orbs (b : Board) (o : grid) : Board :=
  mkBoard (width b) (height b) (types b) o.

(** [Boolean(findTriples(this.orbs)[0])]: a group is an array, hence truthy. *)
Definition hasMatch (b : Board) : outcome bool :=
  triples <-- findTriples (orbs b) ;;
  Ok (match triples with [] => false | _ :: _ => true end).

Definition hasPotentialMatch (b : Board) : outcome bool :=
  chunks <-- iterchunks (orbs b) ;;
  let flatChunks := flat_map chunk_rows chunks in
  let hasWideStyleMatch := existsb hasPotentialMatchInSingleRow flatChunks in
  Ok (hasWideStyleMatch
      || existsb (fun c => hasPotentialMatchInPairOfRows (chunk_rows c)) chunks).

Definition needsShuffle (b : Board) : outcome bool :=
  p <-- hasPotentialMatch b ;;
  Ok (negb p).

(** [swap(swapOrbs, playerSwap)].  [_.cloneDeep] copies the grid, the two
    writes go to [this.orbs], and an undone swap rebinds [this.orbs] to the
    copy.  On grids as values the copy is the grid itself; [swap_in_store]
    below tells the row arrays of the copy from those of [this.orbs]. *)
Definition swap (b : Board) (swapOrbs : coord * coord) (playerSwap : bool)
  : outcome Board :=
  let '((row1, col1), (row2, col2)) := swapOrbs in
  let orbsBefore := orbs b in
  v2 <-- orb_at orbsBefore row2 col2 ;;
  o1 <-- set_orb (orbs b) row1 col1 v2 ;;
  v1 <-- orb_at orbsBefore row1 col1 ;;
  o2 <-- set_orb o1 row2 col2 v1 ;;
  let b2 := with_orbs b o2 in
  if playerSwap then
    m <-- hasMatch b2 ;;
    if negb m then Ok (with_orbs b orbsBefore) else Ok b2
  else Ok b2.

Inductive direction : Type := up | down | left | right.

(** The [for] loop of [_unmatch] over the shuffled directions: the first
    direction whose neighbour exists and differs from [thisOrb] is swapped
    with; [None] when the loop ends with [swapped] still false. *)
Fixpoint try_directions (b : Board) (row col : Z) (thisOrb : orb)
    (directions : list direction) : outcome (option Board) :=
  match directions with
  | [] => Ok None
  | d :: rest =>
      let '(nrow, ncol) :=
        match d with
        | up => (row - 1, col)
        | down => (row + 1, col)
        | left => (row, col - 1)
        | right => (row, col + 1)
        end in
      valid <--
        match d with
        | up | down =>
            (* [!_.isUndefined(this.orbs[nrow]) && this.orbs[nrow][col] !== thisOrb] *)
            match js_get (orbs b) nrow with
            | None => Ok false
            | Some r => Ok (bool_decide (default Undefined (js_get r col) <> thisOrb))
            end
        | left | right =>
            (* [!_.isUndefined(this.orbs[row][ncol]) && this.orbs[row][ncol] !== thisOrb] *)
            v <-- orb_at (orbs b) row ncol ;;
            Ok (bool_decide (v <> Undefined) && bool_decide (v <> thisOrb))
        end ;;
      if (valid : bool) then
        b' <-- swap b ((row, col), (nrow, ncol)) false ;;
        Ok (Some b')
      else try_directions b row col thisOrb rest
  end.

(** [_.includes(match, [randomRow, randomCol])]: lodash compares with
    SameValueZero, under which the array literal, a new object, is equal to
    no element of [match]. *)
Definition includes_literal (match_ : list coord) (c : coord) : bool := false.

(** The [while (!swapped)] loop of [_unmatch] up to the coordinate it
    settles on; the swap with it follows in [_unmatch]. *)
Fixpoint random_pick (fuel : nat) (b : Board) (match_ : list coord) (thisOrb : orb)
    (g : Rand) : outcome (coord * Rand) :=
  match fuel with
  | O => OutOfFuel
  | S fuel' =>
      let '(randomRow, g1) := Lodash.random (height b - 1) g in
      let '(randomCol, g2) := Lodash.random (width b - 1) g1 in
      if negb (includes_literal match_ (randomRow, randomCol)) then
        v <-- orb_at (orbs b) randomRow randomCol ;;
        if bool_decide (v <> thisOrb)
        then Ok ((randomRow, randomCol), g2)
        else random_pick fuel' b match_ thisOrb g2
      else random_pick fuel' b match_ thisOrb g2
  end.

Definition _unmatch (fuel : nat) (b : Board) (row col : Z) (match_ : list coord)
    (skipToRandom : bool) (g : Rand) : outcome (Board * Rand) :=
  thisOrb <-- orb_at (orbs b) row col ;;
  let '(directions, g1) := Lodash.shuffle [up; down; left; right] g in
  swapped <-- (if skipToRandom then Ok None
               else try_directions b row col thisOrb directions) ;;
  match swapped with
  | Some b' => Ok (b', g1)
  | None =>
      p <-- random_pick fuel b match_ thisOrb g1 ;;
      b' <-- swap b ((row, col), p.1) false ;;
      Ok (b', p.2)
  end.

(** The rows (columns) that [_.countBy] counts more than twice. *)
Definition crowded (l : list Z) : list Z :=
  filter (fun k => (2 < Lodash.count k l)%nat) (Lodash.uniq l).

(** One turn of the [while (this.hasMatch())] loop of [unmatch]: the orb it
    targets and the [skipToRandom] flag it passes to [_unmatch]. *)
Definition unmatch_target (b : Board) (match_ : list coord) (g : Rand)
  : outcome (coord * bool * Rand) :=
  let rowCoords := map fst match_ in
  let colCoords := map snd match_ in
  let isSimpleMatch :=
    bool_decide (length (Lodash.uniq rowCoords) = 1%nat)
    || bool_decide (length (Lodash.uniq colCoords) = 1%nat) in
  if isSimpleMatch then
    let median := (length match_ / 2)%nat in
    match match_ !! median with
    | None => TypeError
    | Some (midRow, midCol) =>
        midNeighbors <--
          (if bool_decide (length (Lodash.uniq rowCoords) = 1%nat) then
             a <-- orb_at (orbs b) midRow (midCol - 1) ;;
             c <-- orb_at (orbs b) midRow (midCol + 1) ;;
             Ok [a; c]
           else
             a <-- orb_at (orbs b) (midRow - 1) midCol ;;
             c <-- orb_at (orbs b) (midRow + 1) midCol ;;
             Ok [a; c]) ;;
        mid <-- orb_at (orbs b) midRow midCol ;;
        let isSideBySideMatch := bool_decide (mid ∈ (midNeighbors : list orb)) in
        Ok ((midRow, midCol), isSideBySideMatch, g)
    end
  else
    let matchRows := crowded rowCoords in
    let matchCols := crowded colCoords in
    let intersections :=
      filter (fun coords => coords.1 ∈ matchRows ∧ coords.2 ∈ matchCols) match_ in
    let '(picked, g1) := Lodash.sample intersections g in
    match picked with
    | None => TypeError
    | Some coords => Ok (coords, false, g1)
    end.

Fixpoint unmatch (fuel : nat) (b : Board) (g : Rand) : outcome (Board * Rand) :=
  match fuel with
  | O => OutOfFuel
  | S fuel' =>
      matched <-- hasMatch b ;;
      if (matched : bool) then
        triples <-- findTriples (orbs b) ;;
        match head (combineMatches triples) with
        | None => TypeError
        | Some match_ =>
            t <-- unmatch_target b match_ g ;;
            let '(target, skipToRandom, g1) := t in
            r <-- _unmatch fuel' b target.1 target.2 match_ skipToRandom g1 ;;
            unmatch fuel' r.1 r.2
        end
      else Ok (b, g)
  end.

(** [_.map(this.orbs, row => _.shuffle(row))] *)
Fixpoint shuffle_rows (rows : grid) (g : Rand) : grid * Rand :=
  match rows with
  | [] => ([], g)
  | row :: rest =>
      let '(row', g1) := Lodash.shuffle row g in
      let '(rest', g2) := shuffle_rows rest g1 in
      (row' :: rest', g2)
  end.

Fixpoint shuffle (fuel : nat) (b : Board) (g : Rand) : outcome (Board * Rand) :=
  match fuel with
  | O => OutOfFuel
  | S fuel' =>
      let '(shuffled, g1) := shuffle_rows (orbs b) g in
      r <-- unmatch fuel' (with_orbs b shuffled) g1 ;;
      again <-- needsShuffle r.1 ;;
      if (again : bool) then shuffle fuel' r.1 r.2 else Ok r
  end.

(** The grid the constructor samples: [_.zip] of [height] rows of [width]
    sampled orbs. *)
Definition sampled_board (width height : Z) (types : list orb) (g : Rand)
  : Board * Rand :=
  let chooseOrb := fun g =>
    let '(o, g') := Lodash.sample types g in (default Undefined o, g') in
  let sampleRow := Lodash.times (Z.to_nat width) chooseOrb in
  let '(rows, g1) := Lodash.times (Z.to_nat height) sampleRow g in
  (mkBoard width height types (Lodash.zip rows), g1).

(** [new Board(width, height, types)] *)
Definition Board_new (fuel : nat) (width height : Z) (types : list orb) (g : Rand)
  : outcome (Board * Rand) :=
  let '(b, g1) := sampled_board width height types g in
  matched <-- hasMatch b ;;
  if (matched : bool) then shuffle fuel b g1
  else
    deadlocked <-- needsShuffle b ;;
    if (deadlocked : bool) then shuffle fuel b g1 else Ok (b, g1).

(** [v == '␚']: the loose equality of a number or [undefined] with the
    sentinel string is false. *)
Definition is_cleared (v : orb) : bool :=
  match v with
  | Cleared => true
  | _ => false
  end.

(** The first [_.each] of [evaluate] at one group: log the orb at
    [match[0]] and the size, then overwrite every coordinate. *)
Definition mark_match (st : list (orb * nat) * grid) (match_ : list coord)
  : outcome (list (orb * nat) * grid) :=
  let '(matchData, o) := st in
  match match_ with
  | [] => TypeError
  | (r0, c0) :: _ =>
      t <-- orb_at o r0 c0 ;;
      o' <-- each match_ (fun o coord => set_orb o coord.1 coord.2 Cleared) o ;;
      Ok (matchData ++ [(t, length match_)], o')
  end.

(** [for (var z = row; z >= 0; z--)]: the column [col] moves down one slot
    from row [z] upwards, and row 0 gets a sampled orb. *)
Fixpoint drop_down (z : nat) (o : grid) (col : Z) (dropOptions : list orb) (g : Rand)
  : outcome (grid * Rand) :=
  match z with
  | O =>
      let '(s, g') := Lodash.sample dropOptions g in
      o' <-- set_orb o 0 col (default Undefined s) ;;
      Ok (o', g')
  | S z' =>
      v <-- orb_at o (Z.of_nat z') col ;;
      o' <-- set_orb o (Z.of_nat z) col v ;;
      drop_down z' o' col dropOptions g
  end.

(** The body of the sweep at one cell. *)
Definition sweep_cell (dropOptions : list orb) (row : Z) (st : grid * Rand) (col : Z)
  : outcome (grid * Rand) :=
  v <-- orb_at st.1 row col ;;
  if is_cleared v then
    if 0 <=? row then drop_down (Z.to_nat row) st.1 col dropOptions st.2 else Ok st
  else Ok st.

Definition sweep (b : Board) (dropOptions : list orb) (st : grid * Rand)
  : outcome (grid * Rand) :=
  each (Lodash.range 0 (height b))
       (fun st row => each (Lodash.range 0 (width b)) (sweep_cell dropOptions row) st)
       st.

(** [evaluate(matches, dropOptions = this.types)]; [None] is an argument
    left out. *)
Definition evaluate (b : Board) (matches : option (list (list coord)))
    (dropOptions : option (list orb)) (g : Rand)
  : outcome (list (orb * nat) * Board * Rand) :=
  let dropOptions := default (types b) dropOptions in
  st <-- each (default [] matches) mark_match ([], orbs b) ;;
  r <-- sweep b dropOptions (st.2, g) ;;
  Ok (st.1, with_orbs b r.1, r.2).

(** ** [swap] with the row arrays in a store

    [this.orbs] is an array of references to row arrays, and [swap] writes
    into the rows that [this.orbs] refers to while [orbsBefore] refers to
    the rows that [_.cloneDeep] has made.  Here the row arrays live in a
    store, addressed by their position, and an array of rows is the list of
    the addresses of its rows. *)

(** The grid that an array of row addresses gives access to. *)
Definition view (h : list (list orb)) (rows : list nat) : grid :=
  map (fun a => default [] (h !! a)) rows.

(** [_.cloneDeep(rows)]: a new row array for every row, holding the same orbs. *)
Definition cloneDeep (h : list (list orb)) (rows : list nat)
  : list (list orb) * list nat :=
  (h ++ view h rows, seq (length h) (length rows)).

(** [rows[r][c]] *)
Definition heap_read (h : list (list orb)) (rows : list nat) (r c : Z) : outcome orb :=
  match js_get rows r with
  | None => TypeError
  | Some a => Ok (default Undefined (js_get (default [] (h !! a)) c))
  end.

(** [rows[r][c] = v] *)
Definition heap_write (h : list (list orb)) (rows : list nat) (r c : Z) (v : orb)
  : outcome (list (list orb)) :=
  match js_get rows r with
  | None => TypeError
  | Some a => Ok (<[a := js_set (default [] (h !! a)) c v]> h)
  end.

(** [swap] on the store: it returns the store and the array that
    [this.orbs] is bound to afterwards. *)
Definition swap_in_store (b : Board) (h : list (list orb)) (rows : list nat)
    (swapOrbs : coord * coord) (playerSwap : bool)
  : outcome (list (list orb) * list nat) :=
  let '((row1, col1), (row2, col2)) := swapOrbs in
  let '(h0, orbsBefore) := cloneDeep h rows in
  v2 <-- heap_read h0 orbsBefore row2 col2 ;;
  h1 <-- heap_write h0 rows row1 col1 v2 ;;
  v1 <-- heap_read h1 orbsBefore row1 col1 ;;
  h2 <-- heap_write h1 rows row2 col2 v1 ;;
  if playerSwap then
    m <-- hasMatch (with_orbs b (view h2 rows)) ;;
    if negb m then Ok (h2, orbsBefore) else Ok (h2, rows)
  else Ok (h2, rows).

(** The rows of the array are distinct arrays of the store. *)
Definition wf_store (h : list (list orb)) (rows : list nat) : Prop :=
  NoDup rows /\ Forall (fun a => (a < length h)%nat) rows.

(** The board that a result of [swap_in_store] stands for. *)
Definition board_of (b : Board) (r : outcome (list (list orb) * list nat))
  : outcome Board :=
  match r with
  | Ok (h, rows) => Ok (with_orbs b (view h rows))
  | TypeError => TypeError
  | OutOfFuel => OutOfFuel
  end.

(** ** Vocabulary of the statements *)

(** The coordinate names a cell of the grid. *)
Definition in_bounds (o : grid) (c : coord) : bool :=
  match js_get o c.1 with
  | Some row => (0 <=? c.2) && (c.2 <? Z.of_nat (length row))
  | None => false
  end.

(** A grid of [h] rows of [w] cells each. *)
Definition rect (o : grid) (h w : nat) : Prop :=
  length o = h /\ Forall (fun row => length row = w) o.

(** The data model of a board: [orbs] has [height] rows of [width] cells. *)
Definition wf_board (b : Board) : Prop :=
  0 <= height b /\ 0 <= width b /\
  rect (orbs b) (Z.to_nat (height b)) (Z.to_nat (width b)).

(** The cell at row [r] and column [c], if there is one. *)
Definition cell (o : grid) (r c : nat) : option orb :=
  match o !! r with
  | Some row => row !! c
  | None => None
  end.

(** The grid with the cell at row [r] and column [c] overwritten. *)
Definition set_cell (o : grid) (r c : nat) (v : orb) : grid :=
  alter (fun row => <[c := v]> row) r o.

(** Column [c] of the grid, from the top row down. *)
Definition column (o : grid) (c : nat) : list orb :=
  map (fun row => default Undefined (row !! c)) o.

(** No cell of the grid holds the cleared sentinel. *)
Definition sentinel_free (o : grid) : Prop :=
  Forall (Forall (fun v => v <> Cleared)) o.

(** What [_.sample(dropOptions)] can put into a slot: an orb of
    [dropOptions], or [undefined] when there is none. *)
Definition refill (dropOptions : list orb) (v : orb) : Prop :=
  match dropOptions with
  | [] => v = Undefined
  | _ :: _ => v ∈ dropOptions
  end.

(** The mark that the coordinates [coords] leave on the cell at row [r] of
    column [c]. *)
Definition mark_fn (coords : list coord) (c : nat) (r : nat) (v : orb) : orb :=
  if bool_decide ((Z.of_nat r, Z.of_nat c) ∈ coords) then Cleared else v.

(** Column [c] once the coordinates of [matches] are marked as cleared. *)
Definition marked_column (o : grid) (matches : list (list coord)) (c : nat) : list orb :=
  imap (mark_fn (concat matches) c) (column o c).

(** The orbs of a column that are not cleared, from the top down. *)
Definition survivors (col : list orb) : list orb :=
  filter (fun v => v <> Cleared) col.

(** The column [L] has been swept down to row [p]: above it are the
    refilled slots and then the survivors of the marked column [M]; from
    row [p] on it is still the marked column. *)
Definition settled (dropOptions : list orb) (M L : list orb) (p : nat) : Prop :=
  exists fresh,
    Forall (refill dropOptions) fresh /\
    take p L = fresh ++ survivors (take p M) /\
    drop p L = drop p M.

(** The three coordinates that [_findMatches] builds from the window at
    row [i] and column [j] of the scanned grid; for the transposed scan the
    anchor is turned back to [(j, i)] and the run goes down. *)
Definition run_coords (isTransposed : bool) (i j : nat) : list coord :=
  if isTransposed
  then [(Z.of_nat j, Z.of_nat i); (Z.of_nat j + 1, Z.of_nat i); (Z.of_nat j + 2, Z.of_nat i)]
  else [(Z.of_nat i, Z.of_nat j); (Z.of_nat i, Z.of_nat j + 1); (Z.of_nat i, Z.of_nat j + 2)].

(** Three coordinates that follow one another along a row or a column. *)
Definition aligned (g : list coord) : Prop :=
  exists r c : Z,
    g = [(r, c); (r, c + 1); (r, c + 2)] \/ g = [(r, c); (r + 1, c); (r + 2, c)].

(** Every coordinate of [g] is a cell of the grid and all hold the same orb. *)
Definition uniform (o : grid) (g : list coord) : Prop :=
  exists v, Forall (fun p => in_bounds o p = true /\ orb_at o p.1 p.2 = Ok v) g.

(** The boards that construction or a call of [shuffle] returns. *)
Inductive produced : Board -> Prop :=
  | produced_by_new fuel w h ts g b g' :
      Board_new fuel w h ts g = Ok (b, g') -> produced b
  | produced_by_shuffle fuel b0 g b g' :
      shuffle fuel b0 g = Ok (b, g') -> produced b.

(** The call has returned or thrown within the fuel. *)
Definition finished {A} (r : outcome A) : Prop := r <> OutOfFuel.

(** ** Boards and random sources of the examples *)

(** The grid in the documentation of [iterchunks]. *)
Definition documented_grid : grid :=
  [map Tok [6; 5; 4]; map Tok [3; 2; 2]; map Tok [6; 4; 0]].

(** A board without a match on which exchanging (0, 0) and (0, 1) makes none. *)
Definition calm_board : Board :=
  mkBoard 3 3 (map Tok [1; 2; 3])
          [[Tok 1; Tok 2; Tok 1]; [Tok 2; Tok 3; Tok 2]; [Tok 1; Tok 3; Tok 1]].

(** Two rows of equal orbs joined by a column of the same orb. *)
Definition chain_grid : grid :=
  [[Tok 1; Tok 1; Tok 1]; [Tok 1; Tok 2; Tok 3]; [Tok 1; Tok 1; Tok 1]].

(** A 3 x 3 board with runs along its top row, bottom row and left column. *)
Definition chain_board : Board := mkBoard 3 3 (map Tok [1; 2; 3]) chain_grid.

(** The smallest grid. *)
Definition single_orb : grid := [[Tok 5]].

(** A 4 x 4 board with a run down its third column. *)
Definition column_run_board : Board :=
  mkBoard 4 4 (map Tok [0; 1; 2; 3])
          [[Tok 0; Tok 1; Tok 2; Tok 3]; [Tok 1; Tok 0; Tok 2; Tok 0];
           [Tok 3; Tok 1; Tok 2; Tok 1]; [Tok 0; Tok 3; Tok 1; Tok 2]].

(** A 4 x 4 board with a run along its top row. *)
Definition stacked_board : Board :=
  mkBoard 4 4 (map Tok [0; 1])
          [[Tok 0; Tok 0; Tok 0; Tok 1]; [Tok 1; Tok 1; Tok 0; Tok 4];
           [Tok 1; Tok 1; Tok 0; Tok 3]; [Tok 1; Tok 1; Tok 0; Tok 2]].

(** Draws under which a 4 x 4 board over three types is sampled with
    matches and repaired by one [shuffle]. *)
Definition repair_draws : list nat :=
  [5; 8; 13; 3; 12; 6; 2; 0; 0; 2; 6; 12; 3; 13; 8; 5; 4; 5; 8; 13; 3; 12; 6;
   2; 0; 0; 2; 6; 12; 3; 13; 8; 5; 4; 5; 8; 13; 3]%nat.

(** The board that construction returns under [repair_draws]. *)
Definition repaired_board : Board :=
  mkBoard 4 4 (map Tok [0; 1; 2])
          [[Tok 2; Tok 0; Tok 2; Tok 0]; [Tok 1; Tok 0; Tok 2; Tok 0];
           [Tok 1; Tok 2; Tok 0; Tok 2]; [Tok 0; Tok 0; Tok 2; Tok 0]].

(** The board that [shuffle] makes of [stacked_board] under [repair_draws]. *)
Definition reshuffled_board : Board :=
  with_orbs stacked_board
    [[Tok 0; Tok 1; Tok 0; Tok 0]; [Tok 1; Tok 1; Tok 2; Tok 4];
     [Tok 1; Tok 3; Tok 0; Tok 1]; [Tok 0; Tok 0; Tok 1; Tok 1]].

(** Draws that sample, for width 2 and height 4, the grid
    [[0, 0, 1, 1], [1, 1, 0, 0]]. *)
Definition narrow_draws : list nat := [0; 1; 0; 1; 1; 0; 1; 0]%nat.

(** Draws that sample, for width 4 and height 5, a grid of four rows of
    five orbs whose first row starts with three equal orbs, leave every row
    as it is in [shuffle], and then pick row 4 in the random fallback. *)
Definition tall_draws : list nat :=
  [0; 1; 0; 1; 0; 1; 0; 1; 0; 0; 1; 0; 1; 0; 1; 0; 1; 1; 0; 1]%nat
  ++ replicate 24 0%nat ++ [4]%nat.

(** Draws that sample, for width 5 and height 4 and the types 0, 1, 2,
    four rows of five orbs whose [_.zip] has no match and has a potential
    one.  The six draws that follow are those of one call of [_unmatch]
    that goes to the random fallback: four for the [_.shuffle] of the
    directions, then 0 for the row and 4 for the column.  Every later draw
    is 0. *)
Definition wide_draws : list nat :=
  [0; 1; 0; 1; 0; 1; 0; 1; 2; 0; 0; 1; 2; 0; 1; 1; 0; 1; 2; 0;
   0; 0; 0; 0; 0; 4]%nat.

(** The board that [new Board(5, 4, [0, 1, 2])] returns under
    [wide_draws]: five rows of four orbs. *)
Definition wide_board : Board :=
  mkBoard 5 4 (map Tok [0; 1; 2])
          [[Tok 0; Tok 1; Tok 0; Tok 1]; [Tok 1; Tok 0; Tok 1; Tok 0];
           [Tok 0; Tok 1; Tok 2; Tok 1]; [Tok 1; Tok 2; Tok 0; Tok 2];
           [Tok 0; Tok 0; Tok 1; Tok 0]].

(** The random source once [wide_board] is constructed. *)
Definition wide_source : Rand := mkRand (tape (replay wide_draws)) 20.

(** [wide_board] after the player has exchanged (4, 2) and (3, 2): row 4
    is a run of four, and the swap is kept. *)
Definition wide_board_swapped : Board :=
  with_orbs wide_board
    [[Tok 0; Tok 1; Tok 0; Tok 1]; [Tok 1; Tok 0; Tok 1; Tok 0];
     [Tok 0; Tok 1; Tok 2; Tok 1]; [Tok 1; Tok 2; Tok 1; Tok 2];
     [Tok 0; Tok 0; Tok 0; Tok 0]].

(** The one group that [combineMatches(findTriples(orbs))] gives on
    [wide_board_swapped]. *)
Definition wide_group : list coord := [(4, 0); (4, 1); (4, 2); (4, 3)].

(** Draws that sample, for width 4 and height 5 and the types 0, 1, 2,
    five rows of four orbs whose [_.zip] has no match and has a potential
    one. *)
Definition high_draws : list nat :=
  [0; 1; 0; 1; 0; 1; 0; 1; 1; 0; 1; 0; 0; 1; 0; 1; 1; 0; 1; 0]%nat.

(** The board that [new Board(4, 5, [0, 1, 2])] returns under
    [high_draws]: four rows of five orbs. *)
Definition high_board : Board :=
  mkBoard 4 5 (map Tok [0; 1; 2])
          [[Tok 0; Tok 0; Tok 1; Tok 0; Tok 1]; [Tok 1; Tok 1; Tok 0; Tok 1; Tok 0];
           [Tok 0; Tok 0; Tok 1; Tok 0; Tok 1]; [Tok 1; Tok 1; Tok 0; Tok 1; Tok 0]].

(** The random source once [high_board] is constructed. *)
Definition high_source : Rand := mkRand (tape (replay high_draws)) 20.

(** ** board.js: the getters of [Board] *)

(** [get size()] *)
Definition size (b : Board) : Z * Z := (width b, height b).

(** [Array.prototype.sort()] without a comparator puts [undefined] last
    and orders the other elements by their string forms.  The string form
    of an integer of magnitude up to 2^53 - 1 ([Number.MAX_SAFE_INTEGER]) is
    its decimal numeral.  Beyond that bound not every integer is a number of
    JavaScript, [String] gives the shortest numeral that reads back as the
    number ([String(2 ** 60)] is ['1152921504606847000']) and writes an
    exponent from 10^21 on (['1e+21']): these string forms are not
    modelled. *)
Definition safe_integer (t : Z) : bool := Z.abs t <? 2 ^ 53.

(** The orbs whose string form the model has. *)
Definition has_string (v : orb) : bool :=
  match v with
  | Tok t => safe_integer t
  | Cleared | Undefined => true
  end.

(** The comparison of [sort] on two orbs that [has_string]: a number
    by its decimal numeral; the sentinel, one character that comes after the
    digits and the minus sign, after every number; [undefined] last. *)
Definition sorts_before (a b : orb) : bool :=
  match a, b with
  | _, Undefined => true
  | Undefined, _ => false
  | Tok x, Tok y => String.leb (pretty x) (pretty y)
  | Tok _, Cleared => true
  | Cleared, Tok _ => false
  | Cleared, Cleared => true
  end.

Fixpoint sort_insert_orb (a : orb) (l : list orb) : list orb :=
  match l with
  | [] => [a]
  | b :: l' => if sorts_before a b then a :: l else b :: sort_insert_orb a l'
  end.

(** [l.sort()]; [None] when [l] holds a number whose string form is not
    modelled. *)
Definition sort_orbs (l : list orb) : option (list orb) :=
  if forallb has_string l then Some (foldr sort_insert_orb [] l) else None.

(** [get availableTypes()]: [_.uniq(_.flatten(this.orbs)).sort()] *)
Definition availableTypes (b : Board) : option (list orb) :=
  sort_orbs (Lodash.uniq (concat (orbs b))).

(** ** part_000: the earlier revision of class [Board]

    [part_000] holds, after the scanning helpers, a class [Board] that
    differs from the one of [board.js]: its constructor samples grids until
    one is valid instead of shuffling, its [hasMatch] is the wide scan, its
    [needsShuffle] is the negation of that, and the test for a match is
    [hasMatchEvent].  Its cleared cells hold the string ['X'], for which
    [Cleared] stands here; [evaluate] is otherwise the one of [board.js].
    The methods [_unmatch] and [shuffle] of this revision read variables
    that are declared nowhere and are left out. *)
Module Legacy.

(** [hasMatch()]: the wide scan *)
Definition hasMatch (b : Board) : outcome bool :=
  chunks <-- iterchunks (orbs b) ;;
  let flatChunks := flat_map chunk_rows chunks in
  let hasWideStyleMatch := existsb hasMatchInSingleRow flatChunks in
  Ok (hasWideStyleMatch
      || existsb (fun c => hasMatchInPairOfRows (chunk_rows c)) chunks).

Definition needsShuffle (b : Board) : outcome bool :=
  m <-- hasMatch b ;;
  Ok (negb m).

(** [hasMatchEvent()]: [true], or [undefined] (here [false]) when
    [findMatches] finds nothing. *)
Definition hasMatchEvent (b : Board) : outcome bool :=
  matches <-- findMatches (orbs b) ;;
  Ok (match matches with [] => false | _ :: _ => true end).

(** [evaluateAll()]: [while (this.hasMatch()) matchEvents.push(this.evaluate())];
    it returns [undefined], and the board is what it leaves behind. *)
Fixpoint evaluateAll (fuel : nat) (b : Board) (g : Rand) : outcome (Board * Rand) :=
  match fuel with
  | O => OutOfFuel
  | S fuel' =>
      m <-- hasMatch b ;;
      if (m : bool) then
        r <-- evaluate b None None g ;;
        evaluateAll fuel' r.1.2 r.2
      else Ok (b, g)
  end.

(** [createValidOrbs()]: [do { sample } while (this.hasMatchEvent() || this.needsShuffle())] *)
Fixpoint createValidOrbs (fuel : nat) (width height : Z) (types : list orb) (g : Rand)
  : outcome (Board * Rand) :=
  match fuel with
  | O => OutOfFuel
  | S fuel' =>
      let '(b, g1) := sampled_board width height types g in
      e <-- hasMatchEvent b ;;
      if (e : bool) then createValidOrbs fuel' width height types g1
      else
        n <-- needsShuffle b ;;
        if (n : bool) then createValidOrbs fuel' width height types g1
        else Ok (b, g1)
  end.

(** [new Board(width, height, types)] *)
Definition Board_new (fuel : nat) (width height : Z) (types : list orb) (g : Rand)
  : outcome (Board * Rand) :=
  createValidOrbs fuel width height types g.

End Legacy.

(** ** Vocabulary of the further properties *)

(** The coordinates are listed in the order of the sorted set, each once. *)
Definition ordered (g : list coord) : Prop :=
  StronglySorted (fun a b => SortedSet.lt a b = true) g.

(** No coordinate belongs to two groups of the list. *)
Definition pairwise_disjoint (ms : list (list coord)) : Prop :=
  forall i j m1 m2 c,
    i <> j -> ms !! i = Some m1 -> ms !! j = Some m2 -> c ∈ m1 -> c ∉ m2.

(** All coordinates of the group lie in one row. *)
Definition in_one_row (g : list coord) : Prop :=
  forall c c', c ∈ g -> c' ∈ g -> c.1 = c'.1.

(** All coordinates of the group lie in one column. *)
Definition in_one_column (g : list coord) : Prop :=
  forall c c', c ∈ g -> c' ∈ g -> c.2 = c'.2.

(** A coordinate of the group whose row and whose column hold three
    coordinates of the group each, at least. *)
Definition crossing (g : list coord) (p : coord) : Prop :=
  p ∈ g /\
  (3 <= Lodash.count p.1 (map fst g))%nat /\
  (3 <= Lodash.count p.2 (map snd g))%nat.

(** Every coordinate of the group lies in a run of three inside the group. *)
Definition made_of_runs (g : list coord) : Prop :=
  forall c, c ∈ g -> exists t, aligned t /\ c ∈ t /\ t ⊆ g.

(** What the merger keeps true of the group it builds from runs of three. *)
Definition merged_shape (g : list coord) : Prop :=
  ordered g /\ made_of_runs g /\ g <> [] /\
  (in_one_row g \/ in_one_column g \/ exists p, crossing g p).

(** Two coordinates next to each other along a row or a column. *)
Definition adjacent (p q : coord) : Prop :=
  (p.1 = q.1 /\ (q.2 = p.2 + 1 \/ p.2 = q.2 + 1)) \/
  (p.2 = q.2 /\ (q.1 = p.1 + 1 \/ p.1 = q.1 + 1)).

(** Three cells that follow one another along a row or a column of the
    grid hold one and the same orb. *)
Definition has_run (o : grid) : Prop :=
  exists g, aligned g /\ uniform o g.

(** A move: exchanging two adjacent cells of the grid gives a grid with a
    run of three. *)
Definition has_move (b : Board) : Prop :=
  exists p q b',
    in_bounds (orbs b) p = true /\ in_bounds (orbs b) q = true /\ adjacent p q /\
    swap b (p, q) false = Ok b' /\ has_run (orbs b').

(** The cells at the columns [c], [c + 1], [c + 2] of row [r] hold [v],
    but for the one at [c + k], which would take [v] from the cell [n] next
    to it: above or below it, or beside it at an end of the three. *)
Definition near_run (o : grid) (r c : nat) (v : orb) (k : nat) (n : nat * nat) : Prop :=
  (k < 3)%nat /\
  is_Some (cell o r (c + k)) /\
  (forall k', (k' < 3)%nat -> k' <> k -> cell o r (c + k') = Some v) /\
  cell o n.1 n.2 = Some v /\
  ((n.2 = (c + k)%nat /\ (n.1 = S r \/ r = S n.1)) \/
   (n.1 = r /\ k = 0%nat /\ c = S n.2) \/
   (n.1 = r /\ k = 2%nat /\ n.2 = (c + 3)%nat)).

(** A row of the grid holds a run of three, or would after one exchange of
    adjacent cells. *)
Definition row_potential (o : grid) : Prop :=
  exists r c v,
    (forall k, (k < 3)%nat -> cell o r (c + k) = Some v) \/
    exists k n, near_run o r c v k n.

(** ** Tactics for the cells of a window *)

(** A cell is known from a hypothesis about the same cell, whose row and
    column may be written differently. *)
Ltac use_cell H := first [exact H | (etrans; [|exact H]; f_equal; lia)].
Ltac find_cell :=
  match goal with
  | H : cell _ _ _ = Some _ |- cell _ _ _ = _ => use_cell H
  end.
Ltac solve_run r c v :=
  exists r, c, v; left;
  let k := fresh "k" in let Hk := fresh "Hk" in
  intros k Hk; destruct k as [|[|[|k]]]; [find_cell|find_cell|find_cell|lia].
Ltac solve_near r c v k n :=
  exists r, c, v; right; exists k, n; unfold near_run; cbn [fst snd];
  split; [lia|];
  split; [eexists; find_cell|];
  split; [let k' := fresh "k" in let Hk := fresh "Hk" in let Hne := fresh "Hne" in
          intros k' Hk Hne; destruct k' as [|[|[|k']]]; try lia; find_cell|];
  split; [find_cell|lia].

(** ** Boards and draws of the further examples *)

(** What [_unmatch] returns on the middle of the run of [stacked_board]
    when it goes to the random fallback and the draws pick (1, 1). *)
Definition stacked_board_unmatched : Board * Rand :=
  (with_orbs stacked_board
     [[Tok 0; Tok 1; Tok 0; Tok 1]; [Tok 1; Tok 0; Tok 0; Tok 4];
      [Tok 1; Tok 1; Tok 0; Tok 3]; [Tok 1; Tok 1; Tok 0; Tok 2]],
   mkRand (tape (replay [0; 0; 0; 0; 1; 1]%nat)) 6).

(** Draws under which the rows sampled for a 4 x 4 board over three types
    are the columns of [repaired_board]. *)
Definition legacy_draws : list nat :=
  [2; 1; 1; 0; 0; 0; 2; 0; 2; 2; 0; 2; 0; 0; 2; 0]%nat.

(** ** Vocabulary of construction and [shuffle] *)












(** ** The examples in the documentation of [iterchunks]

    The comment above [iterchunks] lists, for the grid
    [[6, 5, 4], [3, 2, 2], [6, 4, 0]] and a [chunkLimitRange] of [3, 2],
    the chunks and their positions; the windows over the transpose come
    with their coordinates turned back. *)

Example iterchunks_documented_chunks :
  _iterchunks documented_grid (3, 2) true false
  = Ok [mkChunk [[Tok 6; Tok 5; Tok 4]; [Tok 3; Tok 2; Tok 2]] (Some ((0, 0), (1, 2)));
        mkChunk [[Tok 3; Tok 2; Tok 2]; [Tok 6; Tok 4; Tok 0]] (Some ((1, 0), (2, 2)))]
  /\ _iterchunks (Lodash.zip documented_grid) (3, 2) true true
  = Ok [mkChunk [[Tok 6; Tok 3; Tok 6]; [Tok 5; Tok 2; Tok 4]] (Some ((0, 0), (2, 1)));
        mkChunk [[Tok 5; Tok 2; Tok 4]; [Tok 4; Tok 2; Tok 0]] (Some ((0, 1), (2, 2)))].
Proof. split; reflexivity. Qed.

(** [_.range] as lodash 4 documents it: [_.range(4)], [_.range(-4)],
    [_.range(1, 5)] and [_.range(0)]. *)
Example range_documented :
  Lodash.range 0 4 = [0; 1; 2; 3] /\
  Lodash.range 0 (-4) = [0; -1; -2; -3] /\
  Lodash.range 1 5 = [1; 2; 3; 4] /\
  Lodash.range 0 0 = [].
Proof. repeat split; reflexivity. Qed.

(** The comment of [hasMatchInPairOfRows] gives the pair [0101] over
    [2031], where 0 sits at the columns 0, 2 and then 1; the comment of
    [hasMatchInSingleRow] gives the row [0010]. *)
Example scan_documented :
  hasMatchInPairOfRows [map Tok [0; 1; 0; 1]; map Tok [2; 0; 3; 1]] = true /\
  hasMatchInSingleRow (map Tok [0; 0; 1; 0]) = true /\
  indexOfAll (Some (map Tok [5; 3; 7; 5])) (Tok 5) = [0; 3]%nat.
Proof. repeat split; reflexivity. Qed.

(** ** Reading and writing cells *)

Lemma in_bounds_cell o r c :
  in_bounds o (r, c) = true ->
  0 <= r /\ 0 <= c /\ is_Some (cell o (Z.to_nat r) (Z.to_nat c)).
Proof.
  unfold in_bounds, js_get, cell; simpl.
  destruct (Z.ltb_spec r 0); [discriminate|].
  destruct (o !! Z.to_nat r) as [row|]; [|discriminate].
  intros [H1 H2]%andb_true_iff.
  apply Z.leb_le in H1. apply Z.ltb_lt in H2.
  repeat split; try lia. apply lookup_lt_is_Some. lia.
Qed.

Lemma cell_in_bounds o r c v :
  cell o r c = Some v -> in_bounds o (Z.of_nat r, Z.of_nat c) = true.
Proof.
  unfold in_bounds, js_get, cell; simpl.
  destruct (Z.ltb_spec (Z.of_nat r) 0); [lia|].
  rewrite Nat2Z.id. destruct (o !! r) as [row|]; [|discriminate].
  intros Hc. apply lookup_lt_Some in Hc.
  apply andb_true_iff; split; [apply Z.leb_le | apply Z.ltb_lt]; lia.
Qed.

Lemma orb_at_cell o r c v :
  cell o r c = Some v -> orb_at o (Z.of_nat r) (Z.of_nat c) = Ok v.
Proof.
  unfold orb_at, js_get, cell.
  destruct (Z.ltb_spec (Z.of_nat r) 0); [lia|].
  rewrite Nat2Z.id. destruct (o !! r) as [row|]; [|discriminate].
  destruct (Z.ltb_spec (Z.of_nat c) 0); [lia|].
  rewrite Nat2Z.id. by intros ->.
Qed.

Lemma set_orb_cell o r c v :
  is_Some (cell o r c) ->
  set_orb o (Z.of_nat r) (Z.of_nat c) v = Ok (set_cell o r c v).
Proof.
  unfold set_orb, js_get, cell, set_cell.
  destruct (Z.ltb_spec (Z.of_nat r) 0); [lia|].
  rewrite Nat2Z.id. destruct (o !! r) as [row|] eqn:Hr; [|by intros [? ?]].
  intros Hc%lookup_lt_is_Some. f_equal.
  unfold js_set.
  destruct (Z.ltb_spec (Z.of_nat c) 0); [lia|].
  destruct (Z.ltb_spec (Z.of_nat c) (Z.of_nat (length row))); [|lia].
  rewrite Nat2Z.id.
  apply list_eq; intros i. destruct (decide (i = r)) as [->|Hne].
  - rewrite list_lookup_alter_eq, Hr; simpl.
    rewrite list_lookup_insert_eq; [done|]. by eapply lookup_lt_Some.
  - rewrite list_lookup_alter_ne by done. by rewrite list_lookup_insert_ne.
Qed.

Lemma cell_set_cell o r c v r' c' :
  cell (set_cell o r c v) r' c' =
  if decide (r' = r /\ c' = c)
  then (match cell o r c with Some _ => Some v | None => None end)
  else cell o r' c'.
Proof.
  unfold cell, set_cell.
  destruct (decide (r' = r)) as [->|Hr].
  - rewrite list_lookup_alter_eq. destruct (o !! r) as [row|]; simpl.
    + destruct (decide (c' = c)) as [->|Hc].
      * rewrite decide_True by done.
        destruct (row !! c) eqn:E.
        -- apply list_lookup_insert_eq. by eapply lookup_lt_Some.
        -- rewrite list_insert_ge; [done|]. by apply lookup_ge_None.
      * rewrite decide_False by tauto. by rewrite list_lookup_insert_ne.
    + by destruct (decide _).
  - rewrite list_lookup_alter_ne by done. rewrite decide_False by tauto. done.
Qed.

Lemma length_set_cell o r c v : length (set_cell o r c v) = length o.
Proof. apply length_alter. Qed.

Lemma row_lengths_set_cell o r c v :
  map length (set_cell o r c v) = map length o.
Proof.
  unfold set_cell. apply list_eq; intros i.
  rewrite !list_lookup_fmap.
  destruct (decide (i = r)) as [->|Hne].
  - rewrite list_lookup_alter_eq. destruct (o !! r); simpl; [|done].
    by rewrite length_insert.
  - by rewrite list_lookup_alter_ne.
Qed.

Lemma rect_set_cell o h w r c v : rect o h w -> rect (set_cell o r c v) h w.
Proof.
  intros [Hl Hr]. split; [by rewrite length_set_cell|].
  apply Forall_forall. intros row Hin.
  apply list_elem_of_fmap_2 with (f := length) in Hin.
  rewrite row_lengths_set_cell in Hin.
  apply list_elem_of_fmap in Hin as (row' & -> & Hin').
  by eapply Forall_forall in Hr.
Qed.

Lemma insert_swap_perm (row : list orb) c x y :
  row !! c = Some x -> x :: <[c := y]> row ≡ₚ y :: row.
Proof.
  revert c; induction row as [|a t IH]; intros [|c] Hc; simplify_eq/=.
  - apply perm_swap.
  - rewrite perm_swap. rewrite (IH _ Hc). apply perm_swap.
Qed.

Lemma set_cell_perm o r c x y :
  cell o r c = Some x -> x :: concat (set_cell o r c y) ≡ₚ y :: concat o.
Proof.
  unfold cell, set_cell. revert r; induction o as [|a t IH]; intros [|r] Hc;
    simplify_eq/=.
  - rewrite app_comm_cons. rewrite (insert_swap_perm _ _ _ _ Hc). done.
  - rewrite Permutation_middle. rewrite (IH _ Hc).
    by rewrite <- Permutation_middle.
Qed.

(** ** Structural enumeration never throws on a grid with a cell *)

Lemma _iterchunks_ok o lim pos tr :
  is_Some (o !! 0%nat) -> exists cs, _iterchunks o lim pos tr = Ok cs.
Proof.
  intros [row0 H0]. unfold _iterchunks. destruct lim as [w h]. rewrite H0. eauto.
Qed.

Lemma _iterchunks_positions o lim tr cs :
  _iterchunks o lim true tr = Ok cs ->
  Forall (fun c => is_Some (chunk_position c)) cs.
Proof.
  unfold _iterchunks. destruct lim as [w h].
  destruct (o !! 0%nat); [|discriminate]. intros [= <-].
  apply Forall_forall. intros c Hc.
  apply list_elem_of_In, in_flat_map in Hc as (hi & _ & Hc).
  apply in_map_iff in Hc as (wi & <- & _). simpl. eauto.
Qed.

Lemma _findMatches_ok cs tr :
  Forall (fun c => is_Some (chunk_position c)) cs ->
  exists ms, _findMatches cs tr = Ok ms.
Proof.
  induction 1 as [|c cs [[a z] Hp] _ [ms IH]]; simpl; [eauto|].
  unfold match_of_chunk. rewrite Hp, IH.
  destruct (decide _); simpl; eauto.
Qed.

Lemma zip_head o :
  (0 < max_list (map length o))%nat -> is_Some (Lodash.zip o !! 0%nat).
Proof.
  intros H. unfold Lodash.zip. apply lookup_lt_is_Some.
  by rewrite length_map, length_seq.
Qed.

Lemma findMatches_ok o :
  (0 < max_list (map length o))%nat -> exists ms, findMatches o = Ok ms.
Proof.
  intros H. unfold findMatches.
  assert (is_Some (o !! 0%nat)) as Ho.
  { destruct o; [simpl in H; lia | simpl; eauto]. }
  destruct (_iterchunks_ok o (3, 1) true false Ho) as [c1 E1].
  destruct (_iterchunks_ok _ (3, 1) true true (zip_head o H)) as [c2 E2].
  rewrite E1, E2; simpl.
  destruct (_findMatches_ok c1 false (_iterchunks_positions _ _ _ _ E1)) as [m1 ->].
  destruct (_findMatches_ok c2 true (_iterchunks_positions _ _ _ _ E2)) as [m2 ->].
  simpl; eauto.
Qed.

Lemma cell_row_lengths o r c v :
  cell o r c = Some v -> (0 < max_list (map length o))%nat.
Proof.
  unfold cell. destruct (o !! r) as [row|] eqn:Hr; [|discriminate].
  intros Hc%lookup_lt_Some.
  assert (length row ∈ map length o) as Hin.
  { apply list_elem_of_fmap. exists row. split; [done|]. by eapply list_elem_of_lookup_2. }
  apply max_list_elem_of_le in Hin. lia.
Qed.

(** ** [swap] on two cells of the grid *)

Lemma with_orbs_id b : with_orbs b (orbs b) = b.
Proof. by destruct b. Qed.

(** The grid after the two writes of [swap]. *)
Lemma swap_cells b r1 c1 r2 c2 v1 v2 :
  cell (orbs b) r1 c1 = Some v1 ->
  cell (orbs b) r2 c2 = Some v2 ->
  let o2 := set_cell (set_cell (orbs b) r1 c1 v2) r2 c2 v1 in
  swap b ((Z.of_nat r1, Z.of_nat c1), (Z.of_nat r2, Z.of_nat c2)) false
    = Ok (with_orbs b o2) /\
  exists m, hasMatch (with_orbs b o2) = Ok m /\
    swap b ((Z.of_nat r1, Z.of_nat c1), (Z.of_nat r2, Z.of_nat c2)) true
      = Ok (if m then with_orbs b o2 else b).
Proof.
  intros H1 H2 o2.
  assert (is_Some (cell (set_cell (orbs b) r1 c1 v2) r2 c2)) as H2'.
  { rewrite cell_set_cell. destruct (decide _) as [[-> ->]|_]; [|eauto].
    rewrite H1; eauto. }
  assert (exists m, hasMatch (with_orbs b o2) = Ok m) as [m Hm].
  { unfold hasMatch, findTriples. simpl.
    destruct (findMatches_ok o2) as [ms ->]; [|simpl; eauto].
    unfold o2. rewrite !row_lengths_set_cell. by eapply cell_row_lengths. }
  unfold swap.
  rewrite (orb_at_cell _ _ _ _ H2); simpl.
  rewrite set_orb_cell by eauto; simpl.
  rewrite (orb_at_cell _ _ _ _ H1); simpl.
  rewrite set_orb_cell by done; simpl.
  split; [done|]. exists m. split; [done|].
  fold o2. rewrite Hm; simpl. destruct m; simpl; [done|].
  by rewrite with_orbs_id.
Qed.

Lemma swap_cells_perm o r1 c1 r2 c2 v1 v2 :
  cell o r1 c1 = Some v1 ->
  cell o r2 c2 = Some v2 ->
  concat (set_cell (set_cell o r1 c1 v2) r2 c2 v1) ≡ₚ concat o.
Proof.
  intros H1 H2.
  assert (cell (set_cell o r1 c1 v2) r2 c2 = Some v2) as H2'.
  { rewrite cell_set_cell. destruct (decide _) as [[-> ->]|_]; [|done].
    by rewrite H1. }
  apply (Permutation_cons_inv (a := v2)).
  rewrite (set_cell_perm _ _ _ _ v1 H2').
  apply (set_cell_perm _ _ _ _ v2 H1).
Qed.

Lemma in_bounds_nat o c :
  in_bounds o c = true ->
  exists r' c' v, c = (Z.of_nat r', Z.of_nat c') /\ cell o r' c' = Some v.
Proof.
  destruct c as [r c]. intros (Hr & Hc & [v Hv])%in_bounds_cell.
  exists (Z.to_nat r), (Z.to_nat c), v. split; [|done].
  f_equal; lia.
Qed.

(** ** [swap] in the store and on the grid agree *)

Lemma js_get_view h rows r :
  js_get (view h rows) r = (fun a => default [] (h !! a)) <$> js_get rows r.
Proof. unfold js_get, view. destruct (r <? 0); [done|]. apply list_lookup_fmap. Qed.

Lemma heap_read_view h rows r c :
  heap_read h rows r c = orb_at (view h rows) r c.
Proof.
  unfold heap_read, orb_at. rewrite js_get_view. by destruct (js_get rows r).
Qed.

Lemma view_insert_other h rows a x :
  a ∉ rows -> view (<[a := x]> h) rows = view h rows.
Proof.
  intros Hnotin. unfold view. apply map_ext_in. intros a' Hin%list_elem_of_In.
  rewrite list_lookup_insert_ne; [done|]. by intros ->.
Qed.

Lemma view_insert_row h rows r a x :
  wf_store h rows -> rows !! r = Some a ->
  view (<[a := x]> h) rows = <[r := x]> (view h rows).
Proof.
  intros [Hnodup Hvalid] Hr. apply list_eq; intros i.
  unfold view. rewrite list_lookup_fmap.
  destruct (decide (i = r)) as [->|Hne].
  - rewrite Hr. simpl.
    rewrite list_lookup_insert_eq by (by eapply Forall_lookup_1 in Hvalid).
    rewrite list_lookup_insert_eq; [done|].
    rewrite length_map. by eapply lookup_lt_Some.
  - rewrite list_lookup_insert_ne by done. rewrite list_lookup_fmap.
    destruct (rows !! i) as [a'|] eqn:Hi; [|done]. simpl.
    rewrite list_lookup_insert_ne; [done|].
    intros ->. apply Hne. by eapply NoDup_lookup.
Qed.

Lemma heap_write_view h rows r c v :
  wf_store h rows ->
  match heap_write h rows r c v with
  | Ok h' =>
      set_orb (view h rows) r c v = Ok (view h' rows) /\
      length h' = length h /\
      forall rows', (forall a, a ∈ rows -> a ∉ rows') -> view h' rows' = view h rows'
  | TypeError => set_orb (view h rows) r c v = TypeError
  | OutOfFuel => False
  end.
Proof.
  intros Hwf. unfold heap_write, set_orb. rewrite js_get_view.
  destruct (js_get rows r) as [a|] eqn:Hr; [|done]. simpl.
  assert (rows !! Z.to_nat r = Some a) as Hr'.
  { unfold js_get in Hr. by destruct (r <? 0). }
  split; [|split].
  - f_equal. symmetry. by apply view_insert_row.
  - apply length_insert.
  - intros rows' Hdisj. apply view_insert_other, Hdisj.
    by eapply list_elem_of_lookup_2.
Qed.

Lemma view_app_l h x rows :
  Forall (fun a => (a < length h)%nat) rows -> view (h ++ x) rows = view h rows.
Proof.
  intros Hvalid. unfold view. apply map_ext_in. intros a Hin%list_elem_of_In.
  eapply Forall_forall in Hvalid; [|done]. by rewrite lookup_app_l.
Qed.

Lemma view_cloneDeep h rows :
  view (cloneDeep h rows).1 (cloneDeep h rows).2 = view h rows.
Proof.
  unfold cloneDeep. simpl. apply list_eq; intros i.
  unfold view at 1. rewrite list_lookup_fmap.
  destruct (decide (i < length rows)%nat) as [Hi|Hi].
  - rewrite lookup_seq_lt by done. simpl.
    rewrite lookup_app_r by lia.
    replace (length h + i - length h)%nat with i by lia.
    destruct (lookup_lt_is_Some_2 (view h rows) i) as [row Hrow].
    { unfold view. by rewrite length_map. }
    by rewrite Hrow.
  - rewrite lookup_seq_ge by lia. simpl. symmetry. apply lookup_ge_None.
    unfold view. rewrite length_map. lia.
Qed.

Lemma swap_in_store_refines b h rows swapOrbs playerSwap :
  wf_store h rows -> orbs b = view h rows ->
  board_of b (swap_in_store b h rows swapOrbs playerSwap) = swap b swapOrbs playerSwap.
Proof.
  intros Hwf Hview. destruct swapOrbs as [[row1 col1] [row2 col2]].
  unfold swap_in_store, swap.
  pose proof (view_cloneDeep h rows) as Hclone.
  destruct (cloneDeep h rows) as [h0 orbsBefore] eqn:Ec. simpl in Hclone.
  assert (h0 = h ++ view h rows /\ orbsBefore = seq (length h) (length rows)) as [Eh0 Eb].
  { unfold cloneDeep in Ec. by injection Ec as <- <-. }
  assert (wf_store h0 rows) as Hwf0.
  { destruct Hwf as [Hnd Hvalid]. split; [done|].
    eapply Forall_impl; [exact Hvalid|]. intros a Ha. simpl in *.
    rewrite Eh0, length_app. lia. }
  assert (view h0 rows = orbs b) as Hview0.
  { rewrite Eh0, Hview. apply view_app_l, Hwf. }
  assert (forall a, a ∈ rows -> a ∉ orbsBefore) as Hdisj.
  { intros a Ha Hb. rewrite Eb in Hb. apply elem_of_seq in Hb.
    destruct Hwf as [_ Hvalid]. eapply Forall_forall in Hvalid; [|done].
    simpl in Hvalid. lia. }
  rewrite heap_read_view, Hclone, <- Hview.
  destruct (orb_at (orbs b) row2 col2) as [v2| |]; simpl; try done.
  pose proof (heap_write_view h0 rows row1 col1 v2 Hwf0) as Hw1.
  destruct (heap_write h0 rows row1 col1 v2) as [h1| |]; simpl; [| |done].
  2:{ by rewrite <- Hview0, Hw1. }
  destruct Hw1 as (Hw1 & Hlen1 & Hkeep1). rewrite <- Hview0, Hw1. simpl.
  rewrite heap_read_view, (Hkeep1 _ Hdisj), Hclone, <- Hview, Hview0.
  destruct (orb_at (orbs b) row1 col1) as [v1| |]; simpl; try done.
  assert (wf_store h1 rows) as Hwf1.
  { destruct Hwf0 as [Hnd Hvalid]. split; [done|]. by rewrite Hlen1. }
  pose proof (heap_write_view h1 rows row2 col2 v1 Hwf1) as Hw2.
  destruct (heap_write h1 rows row2 col2 v1) as [h2| |]; simpl; [| |done].
  2:{ by rewrite Hw2. }
  destruct Hw2 as (Hw2 & Hlen2 & Hkeep2). rewrite Hw2. simpl.
  destruct playerSwap; [|done].
  destruct (hasMatch (with_orbs b (view h2 rows))) as [[|]| |]; simpl; try done.
  by rewrite (Hkeep2 _ Hdisj), (Hkeep1 _ Hdisj), Hclone, <- Hview.
Qed.

(** On the grid: a player swap whose exchanged grid has no match returns
    the board it was given. *)
Lemma swap_undone_without_match (b b2 : Board) (c1 c2 : coord) :
  in_bounds (orbs b) c1 = true ->
  in_bounds (orbs b) c2 = true ->
  swap b (c1, c2) false = Ok b2 ->
  findTriples (orbs b2) = Ok [] ->
  swap b (c1, c2) true = Ok b.
Proof.
  intros (r1 & k1 & v1 & -> & H1)%in_bounds_nat (r2 & k2 & v2 & -> & H2)%in_bounds_nat.
  destruct (swap_cells b r1 k1 r2 k2 v1 v2 H1 H2) as (E & m & Hm & Ep).
  rewrite E. intros [= <-] Hnone.
  rewrite Ep. unfold hasMatch in Hm. rewrite Hnone in Hm. simpl in Hm.
  by injection Hm as <-.
Qed.

(** C3.  For a board whose rows are distinct arrays and two in-bounds
    coordinates: when the grid with the two orbs exchanged has no match
    (structural enumeration returns no group), a player swap returns with
    [this.orbs] bound to a grid that is equal, cell for cell, to the grid
    before the swap; it is the deep copy taken on entry, which the two
    writes have not touched, so no exchanged orb and no sentinel is left
    in it. *)
Theorem player_swap_without_match_restores_grid
    (b : Board) (h h2 : list (list orb)) (rows rows2 : list nat) (c1 c2 : coord) :
  wf_store h rows ->
  orbs b = view h rows ->
  in_bounds (view h rows) c1 = true ->
  in_bounds (view h rows) c2 = true ->
  swap_in_store b h rows (c1, c2) false = Ok (h2, rows2) ->
  findTriples (view h2 rows2) = Ok [] ->
  exists h' rows',
    swap_in_store b h rows (c1, c2) true = Ok (h', rows') /\
    view h' rows' = view h rows.
Proof.
  intros Hwf Hview B1 B2 Hswap Hnone. rewrite <- Hview in B1, B2.
  pose proof (swap_in_store_refines b h rows (c1, c2) false Hwf Hview) as R0.
  rewrite Hswap in R0. simpl in R0. symmetry in R0.
  pose proof (swap_undone_without_match b _ c1 c2 B1 B2 R0 Hnone) as Hundone.
  pose proof (swap_in_store_refines b h rows (c1, c2) true Hwf Hview) as R1.
  rewrite Hundone in R1.
  destruct (swap_in_store b h rows (c1, c2) true) as [[h' rows']| |]; try discriminate.
  exists h', rows'. split; [done|]. simpl in R1. injection R1 as R1.
  rewrite <- Hview, <- R1. done.
Qed.

Lemma player_swap_without_match_restores_grid_witness :
  exists h' rows',
    swap_in_store calm_board (orbs calm_board) [0; 1; 2]%nat ((0, 0), (0, 1)) true
    = Ok (h', rows') /\
    view h' rows' = view (orbs calm_board) [0; 1; 2]%nat.
Proof.
  apply (player_swap_without_match_restores_grid calm_board (orbs calm_board)
           [[Tok 2; Tok 1; Tok 1]; [Tok 2; Tok 3; Tok 2]; [Tok 1; Tok 3; Tok 1];
            [Tok 1; Tok 2; Tok 1]; [Tok 2; Tok 3; Tok 2]; [Tok 1; Tok 3; Tok 1]]
           [0; 1; 2]%nat [0; 1; 2]%nat (0, 0) (0, 1)).
  - split; [|repeat constructor; simpl; lia].
    repeat (apply NoDup_cons; split; [rewrite ?elem_of_cons, elem_of_nil; lia|]).
    apply NoDup_nil_2.
  - reflexivity.
  - reflexivity.
  - reflexivity.
  - reflexivity.
  - reflexivity.
Defined.

(** C10.  A swap of two in-bounds cells, player-initiated or internal,
    kept or undone, returns a board with the same width and height, the
    same number of rows, the same length of every row, and the same
    multiset of orbs. *)
Theorem swap_preserves_shape_and_tokens (b : Board) (c1 c2 : coord) (playerSwap : bool) :
  in_bounds (orbs b) c1 = true ->
  in_bounds (orbs b) c2 = true ->
  exists b',
    swap b (c1, c2) playerSwap = Ok b' /\
    width b' = width b /\ height b' = height b /\
    length (orbs b') = length (orbs b) /\
    map length (orbs b') = map length (orbs b) /\
    concat (orbs b') ≡ₚ concat (orbs b).
Proof.
  intros (r1 & k1 & v1 & -> & H1)%in_bounds_nat (r2 & k2 & v2 & -> & H2)%in_bounds_nat.
  destruct (swap_cells b r1 k1 r2 k2 v1 v2 H1 H2) as (E & m & Hm & Ep).
  assert (forall b', b' = with_orbs b (set_cell (set_cell (orbs b) r1 k1 v2) r2 k2 v1)
                     \/ b' = b ->
            width b' = width b /\ height b' = height b /\
            length (orbs b') = length (orbs b) /\
            map length (orbs b') = map length (orbs b) /\
            concat (orbs b') ≡ₚ concat (orbs b)) as Hkeep.
  { intros b' [-> | ->]; simpl; [|done].
    rewrite !length_set_cell, !row_lengths_set_cell.
    repeat split; try done. by eapply swap_cells_perm. }
  destruct playerSwap.
  - eexists; split; [exact Ep|]. apply Hkeep. destruct m; auto.
  - eexists; split; [exact E|]. apply Hkeep. auto.
Qed.

Lemma swap_preserves_shape_and_tokens_witness :
  exists b',
    swap calm_board ((0, 1), (1, 1)) true = Ok b' /\
    width b' = 3 /\ height b' = 3 /\
    length (orbs b') = 3%nat /\
    map length (orbs b') = [3; 3; 3]%nat /\
    concat (orbs b') ≡ₚ concat (orbs calm_board).
Proof.
  apply (swap_preserves_shape_and_tokens calm_board (0, 1) (1, 1) true); reflexivity.
Defined.

(** ** The merger on a grid whose runs form a chain *)

(** C5.  On [chain_grid] structural enumeration lists the top row, the
    bottom row and then the left column; the merger absorbs the column
    into the top row in its single pass and emits the bottom row as a
    group of its own, so the two groups it returns share the coordinate
    (2, 0). *)
Theorem combineMatches_returns_overlapping_groups :
  exists raw g1 g2,
    findMatches chain_grid = Ok raw /\
    combineMatches raw = [g1; g2] /\
    (2, 0) ∈ g1 /\ (2, 0) ∈ g2.
Proof.
  exists [[(0, 0); (0, 1); (0, 2)]; [(2, 0); (2, 1); (2, 2)]; [(0, 0); (1, 0); (2, 0)]],
         [(0, 0); (0, 1); (0, 2); (1, 0); (2, 0)],
         [(2, 0); (2, 1); (2, 2)].
  repeat split; try reflexivity.
  - do 4 apply list_elem_of_further. apply list_elem_of_here.
  - apply list_elem_of_here.
Qed.

(** ** Fuel

    A call that returns or throws with some fuel does the same with more:
    the fuel bounds the model, not the program. *)

Lemma bind_finished {A B} (m : outcome A) (k : A -> outcome B) :
  finished (bind m k) -> finished m.
Proof. unfold finished. by destruct m. Qed.

Lemma random_pick_fuel n m b match_ thisOrb g :
  (n <= m)%nat ->
  finished (random_pick n b match_ thisOrb g) ->
  random_pick m b match_ thisOrb g = random_pick n b match_ thisOrb g.
Proof.
  revert m g. induction n as [|n IH]; intros m g Hle Hfin; [by destruct Hfin|].
  destruct m as [|m]; [lia|]. simpl in *.
  destruct (Lodash.random (height b - 1) g) as [randomRow g1].
  destruct (Lodash.random (width b - 1) g1) as [randomCol g2].
  destruct (orb_at (orbs b) randomRow randomCol) as [v| |]; simpl in *; try done.
  destruct (bool_decide (v <> thisOrb)); [done|]. apply IH; [lia|done].
Qed.

Lemma _unmatch_fuel n m b row col match_ skip g :
  (n <= m)%nat ->
  finished (_unmatch n b row col match_ skip g) ->
  _unmatch m b row col match_ skip g = _unmatch n b row col match_ skip g.
Proof.
  intros Hle. unfold _unmatch.
  destruct (orb_at (orbs b) row col) as [thisOrb| |]; simpl; try done.
  destruct (Lodash.shuffle [up; down; left; right] g) as [directions g1].
  destruct (if skip then _ else _) as [[b'|]| |]; simpl; try done.
  intros Hfin. apply bind_finished in Hfin.
  by rewrite (random_pick_fuel n m).
Qed.

Lemma unmatch_fuel n m b g :
  (n <= m)%nat ->
  finished (unmatch n b g) ->
  unmatch m b g = unmatch n b g.
Proof.
  revert m b g. induction n as [|n IH]; intros m b g Hle Hfin; [by destruct Hfin|].
  destruct m as [|m]; [lia|]. simpl in *.
  destruct (hasMatch b) as [[|]| |]; simpl in *; try done.
  destruct (findTriples (orbs b)) as [triples| |]; simpl in *; try done.
  destruct (head _) as [match_|]; try done.
  destruct (unmatch_target _ _ _) as [[[t s] g1]| |]; simpl in *; try done.
  pose proof (bind_finished _ _ Hfin) as Hf1.
  rewrite (_unmatch_fuel n m) by (lia || done).
  destruct (_unmatch n b t.1 t.2 match_ s g1) as [r| |]; simpl in *; try done.
  apply IH; [lia|done].
Qed.

Lemma shuffle_fuel n m b g :
  (n <= m)%nat ->
  finished (shuffle n b g) ->
  shuffle m b g = shuffle n b g.
Proof.
  revert m b g. induction n as [|n IH]; intros m b g Hle Hfin; [by destruct Hfin|].
  destruct m as [|m]; [lia|]. simpl in *.
  destruct (shuffle_rows (orbs b) g) as [shuffled g1].
  pose proof (bind_finished _ _ Hfin) as Hf1.
  rewrite (unmatch_fuel n m) by (lia || done).
  destruct (unmatch n _ g1) as [r| |]; simpl in *; try done.
  destruct (needsShuffle r.1) as [[|]| |]; simpl in *; try done.
  apply IH; [lia|done].
Qed.

Lemma Board_new_fuel n m w h ts g :
  (n <= m)%nat ->
  finished (Board_new n w h ts g) ->
  Board_new m w h ts g = Board_new n w h ts g.
Proof.
  intros Hle. unfold Board_new. destruct (sampled_board w h ts g) as [b g1].
  destruct (hasMatch b) as [[|]| |]; simpl; try done.
  - by apply shuffle_fuel.
  - destruct (needsShuffle b) as [[|]| |]; simpl; try done. by apply shuffle_fuel.
Qed.

(** ** What construction and [shuffle] return *)

Lemma unmatch_no_match fuel b g r :
  unmatch fuel b g = Ok r -> hasMatch r.1 = Ok false.
Proof.
  revert b g r. induction fuel as [|fuel IH]; intros b g r; simpl; [discriminate|].
  destruct (hasMatch b) as [[|]| |] eqn:Hm; simpl; try discriminate.
  - destruct (findTriples (orbs b)); simpl; try discriminate.
    destruct (head _); try discriminate.
    destruct (unmatch_target _ _ _) as [[[t s] g1]| |]; simpl; try discriminate.
    destruct (_unmatch _ _ _ _ _ _ _) as [r'| |]; simpl; try discriminate.
    apply IH.
  - by intros [= <-].
Qed.

Lemma needsShuffle_false b :
  needsShuffle b = Ok false -> hasPotentialMatch b = Ok true.
Proof.
  unfold needsShuffle. destruct (hasPotentialMatch b) as [[|]| |]; simpl; congruence.
Qed.

Lemma shuffle_playable fuel b g r :
  shuffle fuel b g = Ok r ->
  hasMatch r.1 = Ok false /\ needsShuffle r.1 = Ok false.
Proof.
  revert b g r. induction fuel as [|fuel IH]; intros b g r; simpl; [discriminate|].
  destruct (shuffle_rows (orbs b) g) as [shuffled g1].
  destruct (unmatch fuel _ g1) as [r1| |] eqn:Hu; simpl; try discriminate.
  destruct (needsShuffle r1.1) as [[|]| |] eqn:Hn; simpl; try discriminate.
  - apply IH.
  - intros [= <-]. split; [by eapply unmatch_no_match | done].
Qed.

Lemma Board_new_playable fuel w h ts g r :
  Board_new fuel w h ts g = Ok r ->
  hasMatch r.1 = Ok false /\ needsShuffle r.1 = Ok false.
Proof.
  unfold Board_new. destruct (sampled_board w h ts g) as [b g1].
  destruct (hasMatch b) as [[|]| |] eqn:Hm; simpl; try discriminate.
  - apply shuffle_playable.
  - destruct (needsShuffle b) as [[|]| |] eqn:Hn; simpl; try discriminate.
    + apply shuffle_playable.
    + by intros [= <-].
Qed.

(** On every board that construction returns, and on every board that a
    call of [shuffle] returns, [hasMatch()] is false, [hasPotentialMatch()]
    is true and [needsShuffle()] is false. *)
Lemma produced_board_is_playable (b : Board) :
  produced b ->
  hasMatch b = Ok false /\ hasPotentialMatch b = Ok true /\ needsShuffle b = Ok false.
Proof.
  intros [fuel w h ts g b' g' H | fuel b0 g b' g' H].
  - apply Board_new_playable in H as [H1 H2]; simpl in *.
    auto using needsShuffle_false.
  - apply shuffle_playable in H as [H1 H2]; simpl in *.
    auto using needsShuffle_false.
Qed.

Lemma produced_board_is_playable_witness :
  (hasMatch repaired_board = Ok false /\
   hasPotentialMatch repaired_board = Ok true /\
   needsShuffle repaired_board = Ok false) /\
  (hasMatch reshuffled_board = Ok false /\
   hasPotentialMatch reshuffled_board = Ok true /\
   needsShuffle reshuffled_board = Ok false).
Proof.
  split; apply produced_board_is_playable.
  - apply (produced_by_new 40 4 4 (map Tok [0; 1; 2]) (replay repair_draws)
             repaired_board (mkRand (tape (replay repair_draws)) 38)).
    vm_compute. reflexivity.
  - apply (produced_by_shuffle 40 stacked_board (replay repair_draws)
             reshuffled_board (mkRand (tape (replay repair_draws)) 22)).
    vm_compute. reflexivity.
Defined.

(** ** Loops over [_.range] *)

Lemma range_nat n : Lodash.range 0 (Z.of_nat n) = map Z.of_nat (seq 0 n).
Proof.
  unfold Lodash.range. destruct (Z.ltb_spec 0 (Z.of_nat n)).
  - rewrite Z.sub_0_r, Nat2Z.id. apply map_ext. intros; lia.
  - assert (n = 0%nat) as -> by lia. done.
Qed.

Lemma each_seq_from {S} (f : S -> Z -> outcome S) (I : nat -> S -> Prop) n :
  forall k s,
    I k s ->
    (forall i s, (k <= i < k + n)%nat -> I i s ->
       exists s', f s (Z.of_nat i) = Ok s' /\ I (Datatypes.S i) s') ->
    exists s', each (map Z.of_nat (seq k n)) f s = Ok s' /\ I (k + n)%nat s'.
Proof.
  induction n as [|n IH]; intros k s H0 Hstep; simpl.
  - exists s. by rewrite Nat.add_0_r.
  - destruct (Hstep k s) as (s1 & -> & H1); [lia|done|]. simpl.
    destruct (IH (Datatypes.S k) s1) as (s' & -> & H'); [done| |].
    + intros i s2 Hi. apply Hstep. lia.
    + exists s'. split; [done|]. by replace (k + Datatypes.S n)%nat with (Datatypes.S k + n)%nat by lia.
Qed.

Lemma each_range {S} (f : S -> Z -> outcome S) (I : nat -> S -> Prop) n s :
  I 0%nat s ->
  (forall i s, (i < n)%nat -> I i s ->
     exists s', f s (Z.of_nat i) = Ok s' /\ I (Datatypes.S i) s') ->
  exists s', each (Lodash.range 0 (Z.of_nat n)) f s = Ok s' /\ I n s'.
Proof.
  intros H0 Hstep. rewrite range_nat.
  apply (each_seq_from f I n 0 s H0). intros i s1 Hi. apply Hstep. lia.
Qed.

(** ** Rectangular grids *)

Lemma rect_cell o h w r c :
  rect o h w -> (r < h)%nat -> (c < w)%nat -> is_Some (cell o r c).
Proof.
  intros [Hl Hr] Hrh Hcw. unfold cell.
  destruct (lookup_lt_is_Some_2 o r) as [row Hrow]; [lia|]. rewrite Hrow.
  apply lookup_lt_is_Some. eapply Forall_lookup_1 in Hr; [|done]. simpl in Hr. lia.
Qed.

Lemma wf_board_nat b :
  wf_board b ->
  exists h w, height b = Z.of_nat h /\ width b = Z.of_nat w /\ rect (orbs b) h w.
Proof.
  intros (Hh & Hw & Hr). exists (Z.to_nat (height b)), (Z.to_nat (width b)).
  repeat split; try lia; apply Hr.
Qed.

Lemma sentinel_free_cell o r c v :
  sentinel_free o -> cell o r c = Some v -> is_cleared v = false.
Proof.
  unfold cell. intros Hf. destruct (o !! r) as [row|] eqn:Hr; [|discriminate].
  intros Hc. eapply Forall_lookup_1 in Hf; [|done].
  eapply Forall_lookup_1 in Hf; [|done]. by destruct v.
Qed.

(** ** [evaluate] without a match group *)

Lemma sweep_without_cleared b dropOptions g :
  wf_board b -> sentinel_free (orbs b) ->
  sweep b dropOptions (orbs b, g) = Ok (orbs b, g).
Proof.
  intros (h & w & Eh & Ew & Hrect)%wf_board_nat Hfree.
  unfold sweep. rewrite Eh, Ew.
  destruct (each_range
              (fun st row => each (Lodash.range 0 (Z.of_nat w))
                                  (sweep_cell dropOptions row) st)
              (fun _ st => st = (orbs b, g)) h (orbs b, g)) as (st & -> & ->);
    [done| |done].
  intros r st Hr ->.
  destruct (each_range (sweep_cell dropOptions (Z.of_nat r))
              (fun _ st => st = (orbs b, g)) w (orbs b, g)) as (st & -> & ->);
    [done| |eauto].
  intros c st Hc ->. exists (orbs b, g). split; [|done].
  unfold sweep_cell; simpl.
  destruct (rect_cell _ _ _ r c Hrect Hr Hc) as [v Hv].
  rewrite (orb_at_cell _ _ _ _ Hv); simpl.
  by rewrite (sentinel_free_cell _ _ _ _ Hfree Hv).
Qed.

(** X30.  On a board whose grid has [height] rows of [width] orbs, none of
    them the cleared sentinel, [evaluate] called with an empty list of
    match groups, or with none at all, returns the empty event list and the
    board with every cell as it was, and draws nothing from the random
    source; this holds whether or not [hasMatch()] is false. *)
Theorem evaluate_without_groups_is_noop
    (b : Board) (matches : option (list (list coord)))
    (dropOptions : option (list orb)) (g : Rand) :
  wf_board b ->
  sentinel_free (orbs b) ->
  matches = None \/ matches = Some [] ->
  evaluate b matches dropOptions g = Ok ([], b, g).
Proof.
  intros Hwf Hfree Hm. unfold evaluate.
  assert (default [] matches = []) as -> by (by destruct Hm as [-> | ->]).
  simpl. rewrite sweep_without_cleared by done. simpl.
  by rewrite with_orbs_id.
Qed.

Lemma evaluate_without_groups_is_noop_witness :
  hasMatch repaired_board = Ok false /\
  evaluate repaired_board None None (replay repair_draws)
    = Ok ([], repaired_board, replay repair_draws) /\
  evaluate repaired_board (Some []) (Some [Tok 5]) (replay repair_draws)
    = Ok ([], repaired_board, replay repair_draws).
Proof.
  assert (wf_board repaired_board) as Hwf.
  { unfold wf_board, rect; simpl. repeat split; try lia. repeat constructor. }
  assert (sentinel_free (orbs repaired_board)) as Hfree.
  { unfold sentinel_free; simpl. repeat constructor; discriminate. }
  split; [reflexivity|].
  split; apply evaluate_without_groups_is_noop; auto.
Defined.

(** C8.  [new Board(4, 5, [0, 1, 2])] returns, under [high_draws], a board
    without a match and without a cleared cell whose grid has four rows
    while [height] is 5.  On that board [evaluate()] and [evaluate([])] are
    no benign no-op: the sweep reads [this.orbs[4][0]] and throws a
    [TypeError]. *)
Theorem evaluate_without_groups_throws_on_high_board :
  Board_new 0 4 5 (map Tok [0; 1; 2]) (replay high_draws) = Ok (high_board, high_source) /\
  hasMatch high_board = Ok false /\
  sentinel_free (orbs high_board) /\
  length (orbs high_board) = 4%nat /\
  evaluate high_board None None high_source = TypeError /\
  evaluate high_board (Some []) None high_source = TypeError.
Proof.
  split; [vm_compute; reflexivity|].
  split; [reflexivity|].
  split; [repeat constructor; discriminate|].
  repeat split; reflexivity.
Qed.

(** ** Columns *)

Lemma column_lookup o c r :
  column o c !! r = (fun row => default Undefined (row !! c)) <$> o !! r.
Proof. unfold column. apply list_lookup_fmap. Qed.

Lemma length_column o c : length (column o c) = length o.
Proof. unfold column. apply length_map. Qed.

Lemma cell_column o r c v : cell o r c = Some v -> column o c !! r = Some v.
Proof.
  unfold cell. rewrite column_lookup.
  destruct (o !! r) as [row|]; [|discriminate]. simpl. by intros ->.
Qed.

Lemma column_set_cell_same o r c v :
  is_Some (cell o r c) -> column (set_cell o r c v) c = <[r := v]> (column o c).
Proof.
  intros [x Hx]. apply list_eq; intros i.
  rewrite column_lookup. unfold set_cell.
  unfold cell in Hx. destruct (o !! r) as [row|] eqn:Hr; [|discriminate].
  destruct (decide (i = r)) as [->|Hne].
  - rewrite list_lookup_alter_eq, Hr; simpl.
    rewrite list_lookup_insert_eq by (by eapply lookup_lt_Some).
    rewrite list_lookup_insert_eq; [done|].
    rewrite length_column. by eapply lookup_lt_Some.
  - rewrite list_lookup_alter_ne by done.
    rewrite list_lookup_insert_ne by done. by rewrite column_lookup.
Qed.

Lemma column_set_cell_other o r c v c' :
  c' <> c -> column (set_cell o r c v) c' = column o c'.
Proof.
  intros Hc. apply list_eq; intros i.
  rewrite !column_lookup. unfold set_cell.
  destruct (decide (i = r)) as [->|Hne].
  - rewrite list_lookup_alter_eq. destruct (o !! r) as [row|]; simpl; [|done].
    by rewrite list_lookup_insert_ne.
  - by rewrite list_lookup_alter_ne.
Qed.

(** ** The inner loop of the sweep *)

Lemma drop_down_column opts g h w col :
  (col < w)%nat ->
  forall z o, rect o h w -> (z < h)%nat ->
  exists o',
    drop_down z o (Z.of_nat col) opts g = Ok (o', (Lodash.sample opts g).2) /\
    rect o' h w /\
    column o' col =
      default Undefined (Lodash.sample opts g).1
        :: take z (column o col) ++ drop (S z) (column o col) /\
    forall c', c' <> col -> column o' c' = column o c'.
Proof.
  intros Hcol. induction z as [|z IH]; intros o Hrect Hz.
  - simpl. destruct (Lodash.sample opts g) as [s g'] eqn:Es; simpl.
    pose proof (rect_cell _ _ _ 0%nat col Hrect Hz Hcol) as Hc.
    change 0 with (Z.of_nat 0). rewrite set_orb_cell by done. simpl.
    eexists; split; [done|]. split; [by apply rect_set_cell|]. split.
    + rewrite column_set_cell_same by done.
      pose proof (length_column o col) as Hl. destruct Hrect as [Hlen _].
      destruct (column o col) as [|x L]; simpl in *; [lia|]. by rewrite drop_0.
    + intros c' Hc'. by apply column_set_cell_other.
  - cbn [drop_down].
    destruct (rect_cell _ _ _ z col Hrect ltac:(lia) Hcol) as [v Hv].
    pose proof (rect_cell _ _ _ (S z) col Hrect Hz Hcol) as Hc.
    rewrite (orb_at_cell _ _ _ _ Hv); simpl bind.
    rewrite set_orb_cell by done. simpl bind.
    destruct (IH (set_cell o (S z) col v)) as (o' & E & Hr' & Hcol' & Hother);
      [by apply rect_set_cell | lia |].
    exists o'. split; [done|]. split; [done|]. split.
    + rewrite Hcol'. f_equal.
      rewrite column_set_cell_same by done.
      apply cell_column in Hv.
      assert (S z < length (column o col))%nat as Hlen.
      { rewrite length_column. destruct Hrect as [-> _]. done. }
      rewrite take_insert_ge by lia.
      rewrite (take_S_r _ _ _ Hv), <- app_assoc. f_equal. simpl.
      erewrite (drop_S (<[S z:=v]> (column o col)) v (S z));
        [|by apply list_lookup_insert_eq].
      f_equal. by rewrite drop_insert_lt by lia.
    + intros c' Hc'. rewrite (Hother c' Hc'). by apply column_set_cell_other.
Qed.

(** ** Sweeping one column *)

Lemma settled_start opts M : settled opts M M 0.
Proof. exists []. simpl. by rewrite !take_0. Qed.

Lemma settled_next_row opts M L p x :
  settled opts M L p -> L !! p = Some x ->
  M !! p = Some x /\
  (x <> Cleared -> settled opts M L (S p)) /\
  (x = Cleared -> forall s, refill opts s ->
     settled opts M (s :: take p L ++ drop (S p) L) (S p)).
Proof.
  intros (fresh & Hf & Ht & Hd) Hx.
  assert (M !! p = Some x) as HM.
  { pose proof (lookup_drop L p 0) as E1. pose proof (lookup_drop M p 0) as E2.
    rewrite Nat.add_0_r in E1, E2. by rewrite <- E2, <- Hd, E1. }
  assert (drop (S p) L = drop (S p) M) as Hd'.
  { replace (S p) with (p + 1)%nat by lia. rewrite <- !drop_drop. by rewrite Hd. }
  split; [done|]. split.
  - intros Hne. exists fresh. split; [done|]. split; [|done].
    rewrite (take_S_r _ _ _ Hx), (take_S_r _ _ _ HM), Ht.
    unfold survivors. rewrite filter_app, <- app_assoc. f_equal. f_equal.
    rewrite filter_cons_True by done. done.
  - intros -> s Hs. exists (s :: fresh). split; [by constructor|].
    assert (length (take p L) = p) as Hlen.
    { rewrite length_take. apply lookup_lt_Some in Hx. lia. }
    split.
    + simpl. f_equal. rewrite take_app_length' by done.
      rewrite Ht, (take_S_r _ _ _ HM). unfold survivors.
      rewrite filter_app. rewrite (filter_cons_False _ Cleared) by tauto.
      simpl. by rewrite app_nil_r.
    + simpl. rewrite drop_app_length' by done. done.
Qed.

Lemma sample_refill opts g : refill opts (default Undefined (Lodash.sample opts g).1).
Proof.
  unfold Lodash.sample, refill. destruct opts as [|a opts]; [done|].
  unfold Lodash.baseRandom, draw. cbn [fst snd].
  set (l := a :: opts).
  set (i := 0 + Z.of_nat (tape g (cursor g)) mod (Z.of_nat (length l) - 1 - 0 + 1)).
  assert (0 <= i < Z.of_nat (length l)) as Hi.
  { unfold i. assert (0 < Z.of_nat (length l)) by (unfold l; simpl; lia).
    pose proof (Z.mod_pos_bound (Z.of_nat (tape g (cursor g)))
                  (Z.of_nat (length l) - 1 - 0 + 1)).
    lia. }
  destruct (lookup_lt_is_Some_2 l (Z.to_nat i)) as [v Hv]; [lia|].
  rewrite Hv. simpl. by eapply list_elem_of_lookup_2.
Qed.

(** ** The sweep of [evaluate] *)

Lemma is_cleared_spec v : is_cleared v = true <-> v = Cleared.
Proof. destruct v; simpl; split; congruence. Qed.

Lemma sweep_settles b opts om g h w :
  height b = Z.of_nat h -> width b = Z.of_nat w -> rect om h w ->
  exists st,
    sweep b opts (om, g) = Ok st /\ rect st.1 h w /\
    forall c, (c < w)%nat -> settled opts (column om c) (column st.1 c) h.
Proof.
  intros Eh Ew Hrect. unfold sweep. rewrite Eh, Ew.
  set (I := fun (r : nat) (st : grid * Rand) =>
              rect st.1 h w /\
              forall c, (c < w)%nat -> settled opts (column om c) (column st.1 c) r).
  apply (each_range _ I h (om, g)).
  { split; [done|]. intros c _. apply settled_start. }
  intros r st Hr [Hrect_r Hset_r].
  set (J := fun (k : nat) (st : grid * Rand) =>
              rect st.1 h w /\
              forall c, (c < w)%nat ->
                settled opts (column om c) (column st.1 c)
                        (if decide (c < k)%nat then S r else r)).
  destruct (each_range (sweep_cell opts (Z.of_nat r)) J w st) as (st' & E & HJ).
  { split; [done|]. intros c Hc. rewrite decide_False by lia. auto. }
  { clear st Hrect_r Hset_r. intros k [o g0] Hk [Hrect_k Hset_k]. simpl in *.
    destruct (rect_cell _ _ _ r k Hrect_k Hr Hk) as [v Hv].
    unfold sweep_cell. simpl. rewrite (orb_at_cell _ _ _ _ Hv). simpl.
    pose proof (Hset_k k Hk) as Hcol. rewrite decide_False in Hcol by lia.
    destruct (settled_next_row _ _ _ _ _ Hcol (cell_column _ _ _ _ Hv))
      as (_ & Hkeep & Hdrop).
    destruct (is_cleared v) eqn:Ec.
    - apply is_cleared_spec in Ec.
      destruct (Z.leb_spec 0 (Z.of_nat r)); [|lia]. rewrite Nat2Z.id.
      destruct (drop_down_column opts g0 h w k Hk r o Hrect_k Hr)
        as (o' & -> & Hrect' & Hcolk & Hother).
      eexists; split; [done|]. split; [done|]. simpl.
      intros c Hc. destruct (decide (c = k)) as [->|Hne].
      + rewrite decide_True by lia. rewrite Hcolk.
        apply Hdrop; [done|]. apply sample_refill.
      + rewrite (Hother c Hne). specialize (Hset_k c Hc).
        destruct (decide (c < k)%nat), (decide (c < S k)%nat); try lia; done.
    - assert (v <> Cleared) as Hne by (intros ->; discriminate).
      eexists; split; [done|]. split; [done|]. simpl.
      intros c Hc. destruct (decide (c = k)) as [->|Hck].
      + rewrite decide_True by lia. auto.
      + specialize (Hset_k c Hc).
        destruct (decide (c < k)%nat), (decide (c < S k)%nat); try lia; done. }
  exists st'. split; [done|]. destruct HJ as [Hrect' Hset']. split; [done|].
  intros c Hc. specialize (Hset' c Hc). by rewrite decide_True in Hset' by lia.
Qed.

(** ** The marking of [evaluate] *)

Lemma in_bounds_rect o h w r c :
  rect o h w ->
  in_bounds o (r, c) = true ->
  exists r' c', r = Z.of_nat r' /\ c = Z.of_nat c' /\ (r' < h)%nat /\ (c' < w)%nat.
Proof.
  intros [Hl Hrows] (Hr & Hc & [v Hv])%in_bounds_cell.
  exists (Z.to_nat r), (Z.to_nat c). repeat split; try lia.
  - unfold cell in Hv. destruct (o !! Z.to_nat r) eqn:E; [|discriminate].
    apply lookup_lt_Some in E. lia.
  - unfold cell in Hv. destruct (o !! Z.to_nat r) as [row|] eqn:E; [|discriminate].
    eapply Forall_lookup_1 in Hrows; [|done]. simpl in Hrows.
    apply lookup_lt_Some in Hv. lia.
Qed.

Lemma imap_mark_nil c (L : list orb) : imap (mark_fn [] c) L = L.
Proof.
  apply list_eq; intros i. rewrite list_lookup_imap.
  by destruct (L !! i).
Qed.

Lemma imap_mark_app m1 m2 c (L : list orb) :
  imap (mark_fn m2 c) (imap (mark_fn m1 c) L) = imap (mark_fn (m1 ++ m2) c) L.
Proof.
  apply list_eq; intros i. rewrite !list_lookup_imap.
  destruct (L !! i) as [v|]; [|done]. cbn [fmap option_fmap option_map]. f_equal.
  unfold mark_fn.
  rewrite (bool_decide_ext _ _ (elem_of_app m1 m2 _)), bool_decide_or.
  by destruct (bool_decide (_ ∈ m1)), (bool_decide (_ ∈ m2)).
Qed.

Lemma column_mark_one o h w r0 c0 c :
  rect o h w -> (r0 < h)%nat -> (c0 < w)%nat ->
  column (set_cell o r0 c0 Cleared) c
  = imap (mark_fn [(Z.of_nat r0, Z.of_nat c0)] c) (column o c).
Proof.
  intros Hrect Hr Hc. pose proof (rect_cell _ _ _ _ _ Hrect Hr Hc) as Hcell.
  destruct (decide (c = c0)) as [->|Hne].
  - rewrite column_set_cell_same by done.
    apply list_eq; intros i. rewrite list_lookup_imap. unfold mark_fn.
    destruct (decide (i = r0)) as [->|Hi].
    + rewrite list_lookup_insert_eq.
      2:{ rewrite length_column. destruct Hrect as [-> _]. done. }
      destruct Hcell as [v Hv]. rewrite (cell_column _ _ _ _ Hv). simpl.
      rewrite bool_decide_eq_true_2; [done|]. set_solver.
    + rewrite list_lookup_insert_ne by done.
      destruct (column o c0 !! i); simpl; [|done].
      rewrite bool_decide_eq_false_2; [done|].
      rewrite list_elem_of_singleton. intros [= ?]. lia.
  - rewrite column_set_cell_other by done.
    apply list_eq; intros i. rewrite list_lookup_imap. unfold mark_fn.
    destruct (column o c !! i); simpl; [|done].
    rewrite bool_decide_eq_false_2; [done|].
    rewrite list_elem_of_singleton. intros [= ? ?]. lia.
Qed.

Lemma mark_coords h w m :
  forall o, rect o h w ->
  Forall (fun c => in_bounds o c = true) m ->
  exists o',
    each m (fun o coord => set_orb o coord.1 coord.2 Cleared) o = Ok o' /\
    rect o' h w /\
    forall c, column o' c = imap (mark_fn m c) (column o c).
Proof.
  induction m as [|[r c] m IH]; intros o Hrect Hin; simpl.
  - exists o. split; [done|]. split; [done|]. intros c.
    by rewrite imap_mark_nil.
  - apply Forall_cons in Hin as [H0 Hin].
    pose proof H0 as (r' & c' & -> & -> & Hr & Hc)%(in_bounds_rect _ h w); [|done].
    rewrite set_orb_cell by (by eapply rect_cell). simpl.
    destruct (IH (set_cell o r' c' Cleared)) as (o' & -> & Hrect' & Hcol).
    + by apply rect_set_cell.
    + eapply Forall_impl; [exact Hin|]. intros [r c] Hb; simpl in *.
      destruct (in_bounds_rect _ h w _ _ Hrect Hb) as (r1 & c1 & -> & -> & Hr1 & Hc1).
      destruct (rect_cell _ _ _ r1 c1 (rect_set_cell _ _ _ r' c' Cleared Hrect) Hr1 Hc1)
        as [v Hv].
      by eapply cell_in_bounds.
    + exists o'. split; [done|]. split; [done|]. intros c.
      rewrite Hcol, (column_mark_one _ h w) by done.
      by rewrite imap_mark_app.
Qed.

Lemma mark_groups h w matches :
  forall o events, rect o h w ->
  Forall (fun m => m <> [] /\ Forall (fun c => in_bounds o c = true) m) matches ->
  exists events' o',
    each matches mark_match (events, o) = Ok (events', o') /\
    rect o' h w /\
    forall c, column o' c = imap (mark_fn (concat matches) c) (column o c).
Proof.
  induction matches as [|m matches IH]; intros o events Hrect Hin; simpl.
  - exists events, o. split; [done|]. split; [done|]. intros c.
    by rewrite imap_mark_nil.
  - apply Forall_cons in Hin as [[Hne H0] Hin].
    destruct m as [|[r0 c0] m']; [done|].
    pose proof (Forall_inv H0) as Hfirst.
    destruct (in_bounds_rect _ h w _ _ Hrect Hfirst) as (r1 & c1 & -> & -> & Hr1 & Hc1).
    destruct (rect_cell _ _ _ r1 c1 Hrect Hr1 Hc1) as [v Hv].
    rewrite (orb_at_cell _ _ _ _ Hv). cbn [bind].
    destruct (mark_coords h w _ o Hrect H0) as (o1 & -> & Hrect1 & Hcol1). cbn [bind].
    destruct (IH o1 (events ++ [(v, length ((Z.of_nat r1, Z.of_nat c1) :: m'))]) Hrect1)
      as (events' & o' & -> & Hrect' & Hcol').
    + eapply Forall_impl; [exact Hin|]. intros m2 [Hm2 Hb2]. split; [done|].
      eapply Forall_impl; [exact Hb2|]. intros [r c] Hb; simpl in *.
      destruct (in_bounds_rect _ h w _ _ Hrect Hb) as (r2 & c2 & -> & -> & Hr2 & Hc2).
      destruct (rect_cell _ _ _ r2 c2 Hrect1 Hr2 Hc2) as [v2 Hv2].
      by eapply cell_in_bounds.
    + exists events', o'. split; [done|]. split; [done|]. intros c.
      by rewrite Hcol', Hcol1, imap_mark_app.
Qed.

Lemma cleared_and_survivors (l : list orb) :
  (length (filter (fun v => v = Cleared) l) + length (survivors l))%nat = length l.
Proof.
  unfold survivors. induction l as [|v l IH]; [done|].
  destruct (decide (v = Cleared)) as [->|Hne].
  - rewrite filter_cons_True by done. rewrite (filter_cons_False _ Cleared) by tauto.
    simpl. lia.
  - rewrite filter_cons_False by done. rewrite (filter_cons_True _ v) by done.
    simpl. lia.
Qed.

Lemma refill_not_cleared opts v : Cleared ∉ opts -> refill opts v -> v <> Cleared.
Proof.
  unfold refill. destruct opts as [|a opts]; intros Hno Hv ->; [done|]. by apply Hno.
Qed.

(** X29.  On a board whose grid has [height] rows of [width] orbs, for
    match groups that are non-empty and in bounds and refill options
    without the sentinel, [evaluate] returns, the grid keeps its
    dimensions, no cell holds the cleared sentinel afterwards, and every
    column reads, from the top down: one refilled slot per cleared cell of
    the column, each holding what [_.sample] gives on the refill options,
    and then the orbs of the column that were not cleared, in their
    original order. *)
Theorem evaluate_drains_cleared_cells
    (b : Board) (matches : list (list coord)) (dropOptions : option (list orb))
    (g : Rand) :
  wf_board b ->
  Forall (fun m => m <> [] /\ Forall (fun c => in_bounds (orbs b) c = true) m) matches ->
  Cleared ∉ default (types b) dropOptions ->
  exists events b' g',
    evaluate b (Some matches) dropOptions g = Ok (events, b', g') /\
    wf_board b' /\ width b' = width b /\ height b' = height b /\
    sentinel_free (orbs b') /\
    forall c, Z.of_nat c < width b ->
      exists fresh,
        column (orbs b') c = fresh ++ survivors (marked_column (orbs b) matches c) /\
        Forall (refill (default (types b) dropOptions)) fresh /\
        length fresh
        = length (filter (fun v => v = Cleared) (marked_column (orbs b) matches c)).
Proof.
  intros Hwf Hin Hopts.
  destruct (wf_board_nat _ Hwf) as (h & w & Eh & Ew & Hrect).
  unfold evaluate. change (default [] (Some matches)) with matches.
  destruct (mark_groups h w matches (orbs b) [] Hrect Hin)
    as (events & om & -> & Hrect_m & Hcol_m). cbn [bind fst snd].
  destruct (sweep_settles b (default (types b) dropOptions) om g h w Eh Ew Hrect_m)
    as ([o' g'] & -> & Hrect' & Hset). cbn [bind fst snd] in *.
  exists events, (with_orbs b o'), g'. split; [done|].
  assert (forall c, (c < w)%nat ->
            exists fresh,
              column o' c = fresh ++ survivors (marked_column (orbs b) matches c) /\
              Forall (refill (default (types b) dropOptions)) fresh) as Hcols.
  { intros c Hc. destruct (Hset c Hc) as (fresh & Hf & Ht & _).
    exists fresh. split; [|done].
    rewrite !take_ge in Ht.
    - by rewrite Ht, Hcol_m.
    - rewrite length_column. by destruct Hrect_m as [-> _].
    - rewrite length_column. by destruct Hrect' as [-> _]. }
  split.
  { unfold wf_board; simpl. rewrite Eh, Ew, !Nat2Z.id. repeat split; try lia; apply Hrect'. }
  split; [done|]. split; [done|]. split.
  - simpl. apply Forall_lookup. intros r row Hrow.
    apply Forall_lookup. intros c v Hv.
    assert (c < w)%nat as Hc.
    { destruct Hrect' as [_ Hrows]. eapply Forall_lookup_1 in Hrows; [|done].
      simpl in Hrows. apply lookup_lt_Some in Hv. lia. }
    assert (column o' c !! r = Some v) as Hcv.
    { apply cell_column. unfold cell. by rewrite Hrow. }
    destruct (Hcols c Hc) as (fresh & E & Hf). rewrite E in Hcv.
    apply list_elem_of_lookup_2, elem_of_app in Hcv as [Hin'|Hin'].
    + eapply refill_not_cleared; [done|]. by eapply Forall_forall in Hf.
    + unfold survivors in Hin'. by apply list_elem_of_filter in Hin' as [? _].
  - simpl. intros c Hc. destruct (Hcols c) as (fresh & E & Hf); [lia|].
    exists fresh. split; [done|]. split; [done|].
    pose proof (cleared_and_survivors (marked_column (orbs b) matches c)) as Hsum.
    assert (length (column o' c) = length (marked_column (orbs b) matches c)) as Hlen.
    { unfold marked_column. rewrite length_imap, !length_column.
      destruct Hrect as [-> _]. by destruct Hrect' as [-> _]. }
    rewrite E, length_app in Hlen. lia.
Qed.

Lemma evaluate_drains_cleared_cells_witness :
  evaluate stacked_board (Some [[(1, 3); (2, 3)]; [(1, 2); (3, 2)]])
           (Some (map Tok [7; 8; 9])) (replay [0; 1; 2; 0]%nat)
  = Ok ([(Tok 4, 2%nat); (Tok 0, 2%nat)],
        with_orbs stacked_board
          [[Tok 0; Tok 0; Tok 7; Tok 9]; [Tok 1; Tok 1; Tok 7; Tok 8];
           [Tok 1; Tok 1; Tok 0; Tok 1]; [Tok 1; Tok 1; Tok 0; Tok 2]],
        mkRand (tape (replay [0; 1; 2; 0]%nat)) 4)
  /\ exists events b' g',
    evaluate stacked_board (Some [[(1, 3); (2, 3)]; [(1, 2); (3, 2)]])
             (Some (map Tok [7; 8; 9])) (replay [0; 1; 2; 0]%nat)
    = Ok (events, b', g') /\
    wf_board b' /\ width b' = 4 /\ height b' = 4 /\
    sentinel_free (orbs b') /\
    forall c, Z.of_nat c < 4 ->
      exists fresh,
        column (orbs b') c
        = fresh ++ survivors (marked_column (orbs stacked_board)
                                [[(1, 3); (2, 3)]; [(1, 2); (3, 2)]] c) /\
        Forall (refill (map Tok [7; 8; 9])) fresh /\
        length fresh
        = length (filter (fun v => v = Cleared)
                    (marked_column (orbs stacked_board)
                                   [[(1, 3); (2, 3)]; [(1, 2); (3, 2)]] c)).
Proof.
  split; [vm_compute; reflexivity|].
  apply (evaluate_drains_cleared_cells stacked_board
           [[(1, 3); (2, 3)]; [(1, 2); (3, 2)]] (Some (map Tok [7; 8; 9]))
           (replay [0; 1; 2; 0]%nat)).
  - unfold wf_board, rect; simpl. repeat split; try lia. repeat constructor.
  - repeat constructor; discriminate.
  - simpl. rewrite !elem_of_cons, elem_of_nil. intros [H|[H|[H|[]]]]; discriminate.
Defined.

(** C2.  [new Board(5, 4, [0, 1, 2])] returns, under [wide_draws], a board
    whose grid has five rows of four orbs while [height] is 4.  The player
    swap of (4, 2) and (3, 2) is kept, the code's own group for the grid is
    the run along row 4, its four coordinates are cells of the grid, and
    [evaluate] on that group returns with the four cleared sentinels still
    in row 4: the sweep ends at row [height - 1]. *)
Theorem evaluate_leaves_cleared_row_on_wide_board :
  Board_new 0 5 4 (map Tok [0; 1; 2]) (replay wide_draws) = Ok (wide_board, wide_source) /\
  swap wide_board ((4, 2), (3, 2)) true = Ok wide_board_swapped /\
  (triples <-- findTriples (orbs wide_board_swapped) ;; Ok (combineMatches triples))
  = Ok [wide_group] /\
  Forall (fun c => in_bounds (orbs wide_board_swapped) c = true) wide_group /\
  evaluate wide_board_swapped (Some [wide_group]) None wide_source
  = Ok ([(Tok 0, 4%nat)],
        with_orbs wide_board
          [[Tok 0; Tok 1; Tok 0; Tok 1]; [Tok 1; Tok 0; Tok 1; Tok 0];
           [Tok 0; Tok 1; Tok 2; Tok 1]; [Tok 1; Tok 2; Tok 1; Tok 2];
           [Cleared; Cleared; Cleared; Cleared]],
        wide_source).
Proof.
  split; [vm_compute; reflexivity|].
  split; [reflexivity|].
  split; [reflexivity|].
  split; [repeat constructor|].
  vm_compute. reflexivity.
Qed.

(** ** Windows of the scanner *)

Lemma js_slice_nat {A} (l : list A) (s : nat) (n : Z) :
  0 <= n -> (s + Z.to_nat n <= length l)%nat ->
  js_slice l (Z.of_nat s) (Z.of_nat s + n) = take (Z.to_nat n) (drop s l).
Proof.
  intros Hn H. unfold js_slice.
  destruct (Z.ltb_spec (Z.of_nat s) 0); [lia|].
  destruct (Z.ltb_spec (Z.of_nat s + n) 0); [lia|].
  rewrite !Z.min_l by lia.
  replace (Z.of_nat s + n - Z.of_nat s) with n by lia.
  by rewrite Nat2Z.id.
Qed.

Lemma take_drop_1 {A} (l : list A) i x :
  l !! i = Some x -> take 1 (drop i l) = [x].
Proof. intros H. by rewrite (drop_S _ _ _ H). Qed.

Lemma uniq3 (a b c : orb) :
  length (Lodash.uniq [a; b; c]) = 1%nat <-> a = b /\ b = c.
Proof.
  cbn [Lodash.uniq]. rewrite !filter_cons, !filter_nil.
  repeat case_decide; simpl; split; try lia;
    try (intros [? ?]; congruence); try (intros; split; congruence).
  all: rewrite ?filter_cons, ?filter_nil; repeat case_decide; simpl;
    try lia; try congruence.
Qed.

Lemma cell_bounds o h w r c v :
  rect o h w -> cell o r c = Some v -> (r < h)%nat /\ (c < w)%nat.
Proof.
  intros [Hl Hrows]. unfold cell.
  destruct (o !! r) as [row|] eqn:Hr; [|discriminate]. intros Hc.
  split; [apply lookup_lt_Some in Hr; lia|].
  eapply Forall_lookup_1 in Hrows; [|done]. simpl in Hrows.
  apply lookup_lt_Some in Hc. lia.
Qed.

Lemma window_match G R C (tr : bool) i j :
  rect G R C -> (i < R)%nat -> (j + 2 < C)%nat ->
  exists a b d,
    cell G i j = Some a /\ cell G i (j + 1) = Some b /\ cell G i (j + 2) = Some d /\
    match_of_chunk
      (mkChunk
         (map (fun row : list orb => js_slice row (Z.of_nat j) (Z.of_nat j + 3))
              (js_slice G (Z.of_nat i) (Z.of_nat i + 1)))
         (Some (if tr
                then (prod_swap (Z.of_nat i, Z.of_nat j),
                      prod_swap (Z.of_nat i + 1 - 1, Z.of_nat j + 3 - 1))
                else ((Z.of_nat i, Z.of_nat j),
                      (Z.of_nat i + 1 - 1, Z.of_nat j + 3 - 1)))))
      tr
    = Ok (if decide (a = b /\ b = d) then [run_coords tr i j] else []).
Proof.
  intros Hrect Hi Hj.
  destruct (rect_cell _ _ _ i j Hrect Hi ltac:(lia)) as [a Ha].
  destruct (rect_cell _ _ _ i (j + 1) Hrect Hi ltac:(lia)) as [b Hb].
  destruct (rect_cell _ _ _ i (j + 2) Hrect Hi ltac:(lia)) as [d Hd].
  exists a, b, d. repeat split; try done.
  unfold cell in Ha, Hb, Hd. destruct (G !! i) as [row|] eqn:Hrow; [|discriminate].
  rewrite js_slice_nat; [|lia|].
  2:{ apply lookup_lt_Some in Hrow. simpl. lia. }
  change (Z.to_nat 1) with 1%nat. rewrite (take_drop_1 _ _ _ Hrow). cbn [map].
  rewrite js_slice_nat; [|lia|].
  2:{ apply lookup_lt_Some in Hd. simpl. lia. }
  change (Z.to_nat 3) with 3%nat.
  rewrite (drop_S _ _ _ Ha). cbn [take].
  replace (S j) with (j + 1)%nat by lia. rewrite (drop_S _ _ _ Hb). cbn [take].
  replace (S (j + 1)) with (j + 2)%nat by lia. rewrite (drop_S _ _ _ Hd). cbn [take].
  rewrite take_0.
  unfold match_of_chunk. cbn [chunk_rows head default from_option id chunk_position].
  destruct (decide (a = b /\ b = d)) as [Heq|Hne].
  - rewrite decide_True by (by apply uniq3).
    unfold run_coords. by destruct tr.
  - rewrite decide_False; [done|]. by rewrite uniq3.
Qed.

Lemma _findMatches_elem cs tr :
  Forall (fun c => is_Some (chunk_position c)) cs ->
  exists ms,
    _findMatches cs tr = Ok ms /\
    forall g, g ∈ ms <-> exists c, c ∈ cs /\ match_of_chunk c tr = Ok [g].
Proof.
  induction 1 as [|c cs [[a z] Hp] _ (ms & IH & Hms)]; simpl.
  - exists []. split; [done|]. intros g. split; [by intros ?%elem_of_nil|].
    by intros (c & ?%elem_of_nil & _).
  - rewrite IH. unfold match_of_chunk at 1. rewrite Hp.
    destruct (decide _) as [Hu|Hu]; cbn [bind].
    + eexists; split; [done|]. intros g. cbn [app]. rewrite elem_of_cons, Hms.
      split.
      * intros [-> | (c' & Hc' & Hm)].
        -- exists c. split; [by left|]. unfold match_of_chunk. rewrite Hp.
           by rewrite decide_True.
        -- exists c'. split; [by right|done].
      * intros (c' & [-> | Hc']%elem_of_cons & Hm).
        -- left. unfold match_of_chunk in Hm. rewrite Hp in Hm.
           rewrite decide_True in Hm by done. by injection Hm as <-.
        -- right. eauto.
    + exists ms. split; [done|]. intros g. rewrite Hms. split.
      * intros (c' & Hc' & Hm). exists c'. split; [by right|done].
      * intros (c' & [-> | Hc']%elem_of_cons & Hm); [|eauto].
        unfold match_of_chunk in Hm. rewrite Hp in Hm.
        rewrite decide_False in Hm by done. discriminate.
Qed.

(** The scan of one grid with 3 x 1 windows: the groups are the runs of
    three equal cells along its rows. *)
Lemma scan_windows G R C tr :
  rect G R C -> (1 <= R)%nat -> (2 <= C)%nat ->
  exists cs ms,
    _iterchunks G (3, 1) true tr = Ok cs /\
    _findMatches cs tr = Ok ms /\
    forall g, g ∈ ms <->
      exists i j a,
        cell G i j = Some a /\ cell G i (j + 1) = Some a /\ cell G i (j + 2) = Some a /\
        g = run_coords tr i j.
Proof.
  intros Hrect HR HC.
  destruct (_iterchunks_ok G (3, 1) true tr) as [cs Hcs].
  { apply lookup_lt_is_Some. destruct Hrect as [-> _]. lia. }
  destruct (_findMatches_elem cs tr (_iterchunks_positions _ _ _ _ Hcs)) as (ms & Hms & Hel).
  exists cs, ms. split; [done|]. split; [done|].
  intros g. rewrite Hel. clear Hel Hms.
  unfold _iterchunks in Hcs.
  destruct (G !! 0%nat) as [row0|] eqn:H0; [|discriminate].
  assert (length row0 = C) as Hlen0.
  { destruct Hrect as [_ Hrows]. by eapply Forall_lookup_1 in Hrows. }
  assert (length G = R) as HlenG by apply Hrect.
  rewrite Hlen0, HlenG in Hcs.
  replace (Z.of_nat C - 3 + 1) with (Z.of_nat (C - 2)) in Hcs by lia.
  replace (Z.of_nat R - 1 + 1) with (Z.of_nat R) in Hcs by lia.
  rewrite !range_nat in Hcs. cbv beta iota zeta in Hcs. injection Hcs as <-.
  split.
  - intros (c & Hc & Hm).
    apply list_elem_of_In, in_flat_map in Hc as (hi & Hhi & Hc).
    apply in_map_iff in Hhi as (i & <- & Hi%in_seq).
    apply in_map_iff in Hc as (wi & <- & Hwi).
    apply in_map_iff in Hwi as (j & <- & Hj%in_seq).
    destruct (window_match G R C tr i j Hrect) as (a & b & d & Ha & Hb & Hd & E);
      [lia|lia|].
    pose proof (eq_trans (eq_sym E) Hm) as Hg.
    destruct (decide (a = b /\ b = d)) as [[-> ->]|]; [|discriminate].
    injection Hg as <-. eauto 10.
  - intros (i & j & a & Ha & Hb & Hd & ->).
    destruct (cell_bounds _ _ _ _ _ _ Hrect Ha) as [Hi _].
    destruct (cell_bounds _ _ _ _ _ _ Hrect Hd) as [_ Hj].
    destruct (window_match G R C tr i j Hrect Hi Hj) as (a' & b' & d' & Ha' & Hb' & Hd' & E).
    rewrite decide_True in E by (split; congruence).
    eexists. split; [|exact E].
    apply list_elem_of_In, in_flat_map. exists (Z.of_nat i). split.
    + apply in_map, in_seq. lia.
    + apply in_map_iff. exists (Z.of_nat j). split; [done|].
      apply in_map, in_seq. lia.
Qed.

(** ** The transposed grid *)

Lemma rect_max_length o h w :
  rect o h w -> (0 < h)%nat -> max_list (map length o) = w.
Proof.
  intros [Hl Hrows] Hh. destruct o as [|row o]; [simpl in Hl; lia|].
  clear Hl Hh. revert row Hrows. induction o as [|row' o IH]; intros row Hrows.
  - apply Forall_inv in Hrows. simpl in *. lia.
  - apply Forall_cons in Hrows as [Hrow Hrows].
    specialize (IH row' Hrows). simpl in *. lia.
Qed.

Lemma zip_lookup o h w c :
  rect o h w -> (0 < h)%nat -> (c < w)%nat -> Lodash.zip o !! c = Some (column o c).
Proof.
  intros Hrect Hh Hc. unfold Lodash.zip.
  rewrite (rect_max_length _ _ _ Hrect Hh).
  rewrite list_lookup_fmap, lookup_seq_lt by done. done.
Qed.

Lemma zip_rect o h w : rect o h w -> (0 < h)%nat -> rect (Lodash.zip o) w h.
Proof.
  intros Hrect Hh. split.
  - unfold Lodash.zip.
    by rewrite length_map, length_seq, (rect_max_length _ _ _ Hrect Hh).
  - apply Forall_forall. intros row Hin. unfold Lodash.zip in Hin.
    apply list_elem_of_fmap in Hin as (c & -> & _).
    rewrite length_map. apply Hrect.
Qed.

Lemma zip_cell o h w r c :
  rect o h w -> (r < h)%nat -> (c < w)%nat -> cell (Lodash.zip o) c r = cell o r c.
Proof.
  intros Hrect Hr Hc. unfold cell at 1.
  rewrite (zip_lookup _ h w) by (done || lia).
  destruct (rect_cell _ _ _ r c Hrect Hr Hc) as [v Hv].
  by rewrite Hv, (cell_column _ _ _ _ Hv).
Qed.

(** ** Structural enumeration on a grid of at least 2 x 2 *)

Lemma cell_of_Z o r c v :
  in_bounds o (r, c) = true -> orb_at o r c = Ok v ->
  0 <= r /\ 0 <= c /\ cell o (Z.to_nat r) (Z.to_nat c) = Some v.
Proof.
  intros (Hr & Hc & [x Hx])%in_bounds_cell Hv. repeat split; try done.
  pose proof (orb_at_cell _ _ _ _ Hx) as E. rewrite !Z2Nat.id in E by done.
  congruence.
Qed.

Lemma cell_to_Z o r c v :
  cell o r c = Some v ->
  in_bounds o (Z.of_nat r, Z.of_nat c) = true /\
  orb_at o (Z.of_nat r) (Z.of_nat c) = Ok v.
Proof. intros H. split; [by eapply cell_in_bounds | by apply orb_at_cell]. Qed.

Lemma row_run_cells o r c v :
  Forall (fun p => in_bounds o p = true /\ orb_at o p.1 p.2 = Ok v)
         [(r, c); (r, c + 1); (r, c + 2)] ->
  0 <= r /\ 0 <= c /\
  cell o (Z.to_nat r) (Z.to_nat c) = Some v /\
  cell o (Z.to_nat r) (Z.to_nat c + 1) = Some v /\
  cell o (Z.to_nat r) (Z.to_nat c + 2) = Some v.
Proof.
  intros Hv.
  apply Forall_cons in Hv as [[B0 V0] Hv].
  apply Forall_cons in Hv as [[B1 V1] Hv].
  apply Forall_cons in Hv as [[B2 V2] _]. simpl in *.
  destruct (cell_of_Z _ _ _ _ B0 V0) as (Hr & Hc & C0).
  destruct (cell_of_Z _ _ _ _ B1 V1) as (_ & _ & C1).
  destruct (cell_of_Z _ _ _ _ B2 V2) as (_ & _ & C2).
  replace (Z.to_nat (c + 1)) with (Z.to_nat c + 1)%nat in C1 by lia.
  replace (Z.to_nat (c + 2)) with (Z.to_nat c + 2)%nat in C2 by lia.
  done.
Qed.

Lemma column_run_cells o r c v :
  Forall (fun p => in_bounds o p = true /\ orb_at o p.1 p.2 = Ok v)
         [(r, c); (r + 1, c); (r + 2, c)] ->
  0 <= r /\ 0 <= c /\
  cell o (Z.to_nat r) (Z.to_nat c) = Some v /\
  cell o (Z.to_nat r + 1) (Z.to_nat c) = Some v /\
  cell o (Z.to_nat r + 2) (Z.to_nat c) = Some v.
Proof.
  intros Hv.
  apply Forall_cons in Hv as [[B0 V0] Hv].
  apply Forall_cons in Hv as [[B1 V1] Hv].
  apply Forall_cons in Hv as [[B2 V2] _]. simpl in *.
  destruct (cell_of_Z _ _ _ _ B0 V0) as (Hr & Hc & C0).
  destruct (cell_of_Z _ _ _ _ B1 V1) as (_ & _ & C1).
  destruct (cell_of_Z _ _ _ _ B2 V2) as (_ & _ & C2).
  replace (Z.to_nat (r + 1)) with (Z.to_nat r + 1)%nat in C1 by lia.
  replace (Z.to_nat (r + 2)) with (Z.to_nat r + 2)%nat in C2 by lia.
  done.
Qed.

Lemma aligned_distinct g : aligned g -> length g = 3%nat /\ NoDup g.
Proof.
  intros (r & c & [-> | ->]); (split; [done|]);
    repeat (apply NoDup_cons; split);
    rewrite ?elem_of_cons, ?elem_of_nil; try apply NoDup_nil_2;
    intros H; repeat destruct H as [H|H]; try done; injection H; lia.
Qed.

(** The groups of structural enumeration on a grid of at least 2 x 2. *)
Lemma structural_enumeration_runs (o : grid) (h w : nat) :
  rect o h w -> (2 <= h)%nat -> (2 <= w)%nat ->
  exists ms,
    findMatches o = Ok ms /\
    (forall g, g ∈ ms <-> aligned g /\ uniform o g).
Proof.
  intros Hrect Hh Hw.
  destruct (scan_windows o h w false Hrect) as (cs1 & ms1 & E1 & F1 & M1); [lia|lia|].
  pose proof (zip_rect o h w Hrect ltac:(lia)) as Hzrect.
  destruct (scan_windows (Lodash.zip o) w h true Hzrect) as (cs2 & ms2 & E2 & F2 & M2);
    [lia|lia|].
  assert (forall g, g ∈ ms1 ++ ms2 <-> aligned g /\ uniform o g) as Hiff.
  { intros g. rewrite elem_of_app, M1, M2. split.
    - intros [(i & j & a & Ha & Hb & Hd & ->) | (i & j & a & Ha & Hb & Hd & ->)].
      + split.
        * exists (Z.of_nat i), (Z.of_nat j). by left.
        * exists a. unfold run_coords.
          apply cell_to_Z in Ha, Hb, Hd.
          rewrite Nat2Z.inj_add in Hb, Hd.
          repeat constructor; simpl; tauto.
      + destruct (cell_bounds _ _ _ _ _ _ Hzrect Ha) as [Hi _].
        destruct (cell_bounds _ _ _ _ _ _ Hzrect Hd) as [_ Hj].
        rewrite (zip_cell _ h w) in Ha, Hb, Hd by (done || lia).
        split.
        * exists (Z.of_nat j), (Z.of_nat i). by right.
        * exists a. unfold run_coords.
          apply cell_to_Z in Ha, Hb, Hd.
          rewrite Nat2Z.inj_add in Hb, Hd.
          repeat constructor; simpl; tauto.
    - intros [(r & c & [-> | ->]) [v Hv]].
      + destruct (row_run_cells _ _ _ _ Hv) as (Hr & Hc & C0 & C1 & C2).
        left. exists (Z.to_nat r), (Z.to_nat c), v.
        repeat split; try done.
        unfold run_coords. by rewrite !Z2Nat.id.
      + destruct (column_run_cells _ _ _ _ Hv) as (Hr & Hc & C0 & C1 & C2).
        destruct (cell_bounds _ _ _ _ _ _ Hrect C0) as [_ Hcw].
        destruct (cell_bounds _ _ _ _ _ _ Hrect C2) as [Hrh _].
        right. exists (Z.to_nat c), (Z.to_nat r), v.
        rewrite !(zip_cell _ h w) by (done || lia).
        repeat split; try done.
        unfold run_coords. by rewrite !Z2Nat.id. }
  exists (ms1 ++ ms2). split.
  - unfold findMatches. by rewrite E1, E2; cbn [bind]; rewrite F1, F2.
  - done.
Qed.


(** C6 (as the code has it).  On a grid of [h] rows of [w] orbs with
    [h] and [w] at least 2, structural enumeration returns, and its groups
    are exactly the triples of coordinates that follow one another along a
    row or a column, lie on the grid and hold one and the same orb; each
    has three distinct coordinates. *)
Theorem findMatches_groups_are_the_runs (o : grid) (h w : nat) :
  rect o h w -> (2 <= h)%nat -> (2 <= w)%nat ->
  exists ms,
    findMatches o = Ok ms /\
    (forall g, g ∈ ms <-> aligned g /\ uniform o g) /\
    (forall g, g ∈ ms -> length g = 3%nat /\ NoDup g).
Proof.
  intros Hrect Hh Hw.
  destruct (structural_enumeration_runs o h w Hrect Hh Hw) as (ms & E & Hiff).
  exists ms. split; [done|]. split; [done|].
  intros g Hg. apply aligned_distinct. by apply Hiff.
Qed.

Lemma findMatches_groups_are_the_runs_witness :
  exists ms,
    findMatches chain_grid = Ok ms /\
    (forall g, g ∈ ms <-> aligned g /\ uniform chain_grid g) /\
    (forall g, g ∈ ms -> length g = 3%nat /\ NoDup g).
Proof.
  apply (findMatches_groups_are_the_runs chain_grid 3 3).
  - unfold rect; simpl. split; [done|]. repeat constructor.
  - lia.
  - lia.
Defined.

(** On the grid of a single orb both scans take the orb for a window of
    three equal cells and return groups that leave the grid. *)
Lemma findMatches_leaves_single_orb_grid :
  exists g,
    findMatches single_orb = Ok [g; [(0, 0); (1, 0); (2, 0)]] /\
    g = [(0, 0); (0, 1); (0, 2)] /\
    ~ Forall (fun p => in_bounds single_orb p = true) g.
Proof.
  eexists. split; [reflexivity|]. split; [done|].
  intros H. apply Forall_cons in H as [_ H]. apply Forall_inv in H. discriminate.
Qed.

(** ** The wide scan *)

Lemma elem_of_uniq (x : orb) l : x ∈ Lodash.uniq l <-> x ∈ l.
Proof.
  induction l as [|y l IH]; [done|]. cbn [Lodash.uniq].
  rewrite !elem_of_cons, list_elem_of_filter, IH.
  destruct (decide (x = y)); tauto.
Qed.

Lemma count_three (s : list orb) p a :
  s !! p = Some a -> s !! (p + 1)%nat = Some a -> s !! (p + 2)%nat = Some a ->
  (3 <= Lodash.count a s)%nat.
Proof.
  intros H0 H1 H2. unfold Lodash.count.
  rewrite <- (take_drop p s), filter_app, length_app.
  rewrite (drop_S _ _ _ H0).
  replace (S p) with (p + 1)%nat by lia. rewrite (drop_S _ _ _ H1).
  replace (S (p + 1)) with (p + 2)%nat by lia. rewrite (drop_S _ _ _ H2).
  rewrite !filter_cons_True by done. simpl. lia.
Qed.

Lemma hasMatchInSingleRow_run (s : list orb) p a :
  s !! p = Some a -> s !! (p + 1)%nat = Some a -> s !! (p + 2)%nat = Some a ->
  hasMatchInSingleRow s = true.
Proof.
  intros H0 H1 H2. unfold hasMatchInSingleRow. apply Nat.ltb_lt.
  pose proof (count_three s p a H0 H1 H2) as Hc.
  assert (Lodash.count a s ∈ map (fun v => Lodash.count v s) (Lodash.uniq s)) as Hin.
  { apply list_elem_of_fmap. exists a. split; [done|].
    apply elem_of_uniq. by eapply list_elem_of_lookup_2. }
  apply max_list_elem_of_le in Hin. lia.
Qed.

(** A run along a row of a grid of at least 2 x 4 lies in a row of one of
    its 4 x 2 chunks. *)
Lemma wide_chunk_sees_run G R C (tr : bool) i j a :
  rect G R C -> (2 <= R)%nat -> (4 <= C)%nat ->
  cell G i j = Some a -> cell G i (j + 1) = Some a -> cell G i (j + 2) = Some a ->
  exists cs,
    _iterchunks G (4, 2) false tr = Ok cs /\
    existsb hasPotentialMatchInSingleRow (flat_map chunk_rows cs) = true.
Proof.
  intros Hrect HR HC Ha Hb Hd.
  destruct (cell_bounds _ _ _ _ _ _ Hrect Ha) as [Hi _].
  destruct (cell_bounds _ _ _ _ _ _ Hrect Hd) as [_ Hj].
  destruct (_iterchunks_ok G (4, 2) false tr) as [cs Hcs].
  { apply lookup_lt_is_Some. destruct Hrect as [-> _]. lia. }
  exists cs. split; [done|].
  unfold _iterchunks in Hcs.
  destruct (G !! 0%nat) as [row0|] eqn:H0; [|discriminate].
  assert (length row0 = C) as Hlen0.
  { destruct Hrect as [_ Hrows]. by eapply Forall_lookup_1 in Hrows. }
  assert (length G = R) as HlenG by apply Hrect.
  rewrite Hlen0, HlenG in Hcs.
  replace (Z.of_nat C - 4 + 1) with (Z.of_nat (C - 3)) in Hcs by lia.
  replace (Z.of_nat R - 2 + 1) with (Z.of_nat (R - 1)) in Hcs by lia.
  rewrite !range_nat in Hcs. cbv beta iota zeta in Hcs. injection Hcs as <-.
  set (hi := Nat.min i (R - 2)). set (wi := Nat.min j (C - 4)).
  unfold cell in Ha, Hb, Hd. destruct (G !! i) as [row|] eqn:Hrow; [|discriminate].
  apply existsb_exists.
  exists (js_slice row (Z.of_nat wi) (Z.of_nat wi + 4)). split.
  - apply in_flat_map.
    exists (mkChunk
              (map (fun row : list orb => js_slice row (Z.of_nat wi) (Z.of_nat wi + 4))
                   (js_slice G (Z.of_nat hi) (Z.of_nat hi + 2)))
              None).
    split.
    + apply in_flat_map. exists (Z.of_nat hi). split.
      * apply in_map, in_seq. lia.
      * apply in_map_iff. exists (Z.of_nat wi). split; [done|].
        apply in_map, in_seq. lia.
    + cbn [chunk_rows].
      apply (in_map (fun row : list orb => js_slice row (Z.of_nat wi) (Z.of_nat wi + 4))).
      rewrite js_slice_nat by (simpl; lia). change (Z.to_nat 2) with 2%nat.
      apply list_elem_of_In. apply list_elem_of_lookup. exists (i - hi)%nat.
      rewrite lookup_take_lt by lia. rewrite lookup_drop.
      by replace (hi + (i - hi))%nat with i by lia.
  - assert (length row = C) as Hlen.
    { destruct Hrect as [_ Hrows]. by eapply Forall_lookup_1 in Hrows. }
    rewrite js_slice_nat by (simpl; lia). change (Z.to_nat 4) with 4%nat.
    apply (hasMatchInSingleRow_run _ (j - wi) a).
    + rewrite lookup_take_lt by lia. rewrite lookup_drop.
      by replace (wi + (j - wi))%nat with j by lia.
    + rewrite lookup_take_lt by lia. rewrite lookup_drop.
      by replace (wi + (j - wi + 1))%nat with (j + 1)%nat by lia.
    + rewrite lookup_take_lt by lia. rewrite lookup_drop.
      by replace (wi + (j - wi + 2))%nat with (j + 2)%nat by lia.
Qed.

Lemma existsb_app_true {A} (f : A -> bool) l1 l2 :
  existsb f l1 = true \/ existsb f l2 = true -> existsb f (l1 ++ l2) = true.
Proof. rewrite existsb_app, orb_true_iff. tauto. Qed.

(** C4 (as the code has it).  On a grid of [h] rows of [w] orbs with [h]
    and [w] at least 4, if three cells that follow one another along a row
    or a column hold one and the same orb, the wide scan
    [hasPotentialMatch()] returns true. *)
Theorem wide_scan_sees_every_run (b : Board) (h w : nat) (g : list coord) :
  rect (orbs b) h w -> (4 <= h)%nat -> (4 <= w)%nat ->
  aligned g -> uniform (orbs b) g ->
  hasPotentialMatch b = Ok true.
Proof.
  intros Hrect Hh Hw (r & c & Hg) [v Hv].
  pose proof (zip_rect _ h w Hrect ltac:(lia)) as Hzrect.
  assert (forall cs1 cs2,
            iterchunks (orbs b) = Ok (cs1 ++ cs2) ->
            existsb hasPotentialMatchInSingleRow (flat_map chunk_rows cs1) = true \/
            existsb hasPotentialMatchInSingleRow (flat_map chunk_rows cs2) = true ->
            hasPotentialMatch b = Ok true) as Hfin.
  { intros cs1 cs2 E Hex. unfold hasPotentialMatch. rewrite E. cbn [bind].
    rewrite flat_map_app, (existsb_app_true _ _ _ Hex). done. }
  destruct Hg as [-> | ->].
  - destruct (row_run_cells _ _ _ _ Hv) as (Hr & Hc & C0 & C1 & C2).
    destruct (wide_chunk_sees_run _ h w false _ _ _ Hrect ltac:(lia) Hw C0 C1 C2)
      as (cs1 & E1 & X1).
    destruct (_iterchunks_ok (Lodash.zip (orbs b)) (4, 2) false true) as [cs2 E2].
    { apply lookup_lt_is_Some. destruct Hzrect as [-> _]. lia. }
    apply (Hfin cs1 cs2); [|by left].
    unfold iterchunks. by rewrite E1, E2.
  - destruct (column_run_cells _ _ _ _ Hv) as (Hr & Hc & C0 & C1 & C2).
    destruct (cell_bounds _ _ _ _ _ _ Hrect C0) as [_ Hcw].
    destruct (cell_bounds _ _ _ _ _ _ Hrect C2) as [Hrh _].
    rewrite <- (zip_cell _ h w) in C0, C1, C2 by (done || lia).
    destruct (wide_chunk_sees_run _ w h true _ _ _ Hzrect ltac:(lia) Hh C0 C1 C2)
      as (cs2 & E2 & X2).
    destruct (_iterchunks_ok (orbs b) (4, 2) false false) as [cs1 E1].
    { apply lookup_lt_is_Some. destruct Hrect as [-> _]. lia. }
    apply (Hfin cs1 cs2); [|by right].
    unfold iterchunks. by rewrite E1, E2.
Qed.

Lemma wide_scan_sees_every_run_witness :
  hasPotentialMatch column_run_board = Ok true.
Proof.
  apply (wide_scan_sees_every_run column_run_board 4 4 [(0, 2); (0 + 1, 2); (0 + 2, 2)]).
  - unfold rect; simpl. split; [done|]. repeat constructor.
  - lia.
  - lia.
  - exists 0, 2. by right.
  - exists (Tok 2). repeat constructor.
Defined.

(** A 3 x 3 grid has no 4 x 2 chunk, in either orientation: the wide scan
    returns false on [chain_board], whose top row is a run. *)
Lemma wide_scan_misses_run_on_3x3 :
  rect (orbs chain_board) 3 3 /\
  aligned [(0, 0); (0, 0 + 1); (0, 0 + 2)] /\
  uniform (orbs chain_board) [(0, 0); (0, 0 + 1); (0, 0 + 2)] /\
  hasPotentialMatch chain_board = Ok false.
Proof.
  split; [|split; [|split]].
  - unfold rect; simpl. split; [done|]. repeat constructor.
  - exists 0, 0. by left.
  - exists (Tok 1). repeat constructor.
  - reflexivity.
Qed.

(** ** The random fallback of [_unmatch] *)

(** When every coordinate of the current match group holds the targeted
    orb (as the coordinates of a match group do), the coordinate on which
    the random fallback settles is not a member of the group, and what the
    grid reads there, an orb or [undefined], is different from the targeted
    orb, whatever the draws.  The [_.includes] test of the loop rejects
    nothing; the comparison of the orbs is what keeps the members of the
    group out. *)
Lemma random_fallback_avoids_match_group
    (fuel : nat) (b : Board) (match_ : list coord) (thisOrb : orb)
    (g g' : Rand) (p : coord) :
  Forall (fun c => orb_at (orbs b) c.1 c.2 = Ok thisOrb) match_ ->
  random_pick fuel b match_ thisOrb g = Ok (p, g') ->
  (p ∉ match_) /\ exists v, orb_at (orbs b) p.1 p.2 = Ok v /\ v <> thisOrb.
Proof.
  intros Hgroup. revert g.
  induction fuel as [|fuel IH]; intros g; simpl; [discriminate|].
  destruct (Lodash.random (height b - 1) g) as [randomRow g1].
  destruct (Lodash.random (width b - 1) g1) as [randomCol g2].
  destruct (orb_at (orbs b) randomRow randomCol) as [v| |] eqn:Hv; simpl;
    try discriminate.
  case_bool_decide as Hne; [|apply IH].
  intros [= <- <-]. split; [|eauto].
  intros Hin. eapply Forall_forall in Hgroup; [|exact Hin].
  simpl in Hgroup. congruence.
Qed.

Lemma random_fallback_avoids_match_group_witness :
  random_pick 5 stacked_board [(0, 0); (0, 1); (0, 2)] (Tok 0) (replay [0; 1; 1; 1]%nat)
  = Ok ((1, 1), mkRand (tape (replay [0; 1; 1; 1]%nat)) 4)
  /\ ((1, 1) ∉ [(0, 0); (0, 1); (0, 2)])
  /\ exists v, orb_at (orbs stacked_board) 1 1 = Ok v /\ v <> Tok 0.
Proof.
  split; [reflexivity|].
  apply (random_fallback_avoids_match_group 5 stacked_board [(0, 0); (0, 1); (0, 2)]
           (Tok 0) (replay [0; 1; 1; 1]%nat)
           (mkRand (tape (replay [0; 1; 1; 1]%nat)) 4) (1, 1)).
  - repeat constructor.
  - reflexivity.
Defined.

(** C9.  The random fallback draws its row below [height] and its column
    below [width], and the grid of [new Board(5, 4, [0, 1, 2])] has five
    rows of four orbs.  On the board that construction returns under
    [wide_draws], after the kept player swap of (4, 2) and (3, 2),
    [unmatch()] targets (4, 2) with [skipToRandom] set, and the fallback
    settles on (0, 4): no cell of the grid, where the read gives
    [undefined] and no token.  The swap with it puts [undefined] on the
    grid and a fifth orb into row 0, and [unmatch()] returns, one turn
    later, a grid with two [undefined] cells and two rows of five. *)
Theorem random_fallback_picks_off_grid :
  Board_new 0 5 4 (map Tok [0; 1; 2]) (replay wide_draws) = Ok (wide_board, wide_source) /\
  swap wide_board ((4, 2), (3, 2)) true = Ok wide_board_swapped /\
  (triples <-- findTriples (orbs wide_board_swapped) ;; Ok (head (combineMatches triples)))
  = Ok (Some wide_group) /\
  unmatch_target wide_board_swapped wide_group wide_source
  = Ok ((4, 2), true, wide_source) /\
  orb_at (orbs wide_board_swapped) 4 2 = Ok (Tok 0) /\
  random_pick 1 wide_board_swapped wide_group (Tok 0) (mkRand (tape wide_source) 24)
  = Ok ((0, 4), mkRand (tape wide_source) 26) /\
  in_bounds (orbs wide_board_swapped) (0, 4) = false /\
  orb_at (orbs wide_board_swapped) 0 4 = Ok Undefined /\
  _unmatch 1 wide_board_swapped 4 2 wide_group true wide_source
  = Ok (with_orbs wide_board
          [[Tok 0; Tok 1; Tok 0; Tok 1; Tok 0]; [Tok 1; Tok 0; Tok 1; Tok 0];
           [Tok 0; Tok 1; Tok 2; Tok 1]; [Tok 1; Tok 2; Tok 1; Tok 2];
           [Tok 0; Tok 0; Undefined; Tok 0]],
        mkRand (tape wide_source) 26) /\
  unmatch 3 wide_board_swapped wide_source
  = Ok (with_orbs wide_board
          [[Undefined; Tok 1; Tok 0; Tok 1; Tok 0]; [Tok 1; Tok 0; Tok 1; Tok 0];
           [Tok 0; Tok 1; Tok 2; Tok 1]; [Tok 1; Tok 2; Tok 1; Tok 2; Tok 0];
           [Tok 0; Tok 0; Undefined; Tok 0]],
        mkRand (tape wide_source) 32).
Proof.
  split; [vm_compute; reflexivity|].
  repeat split; vm_compute; reflexivity.
Qed.

(** ** The group that [unmatch] hands to [_unmatch] *)

Lemma elem_of_add c x s : c ∈ SortedSet.add x s <-> c = x \/ c ∈ s.
Proof.
  induction s as [|d s IH]; simpl.
  - rewrite list_elem_of_singleton, elem_of_nil. tauto.
  - destruct (SortedSet.lt x d); [by rewrite elem_of_cons|].
    destruct (decide (x = d)) as [->|Hne].
    + rewrite elem_of_cons. tauto.
    + rewrite !elem_of_cons, IH. tauto.
Qed.

Lemma elem_of_union c s m : c ∈ SortedSet.union s m <-> c ∈ s \/ c ∈ m.
Proof.
  unfold SortedSet.union. revert s. induction m as [|x m IH]; intros s; simpl.
  - rewrite elem_of_nil. tauto.
  - rewrite IH, elem_of_add, elem_of_cons. tauto.
Qed.

Lemma elem_of_of_list c l : c ∈ SortedSet.of_list l <-> c ∈ l.
Proof.
  change (SortedSet.of_list l) with (SortedSet.union [] l).
  rewrite elem_of_union, elem_of_nil. tauto.
Qed.

Lemma uniform_union o s m v :
  Forall (fun p => in_bounds o p = true /\ orb_at o p.1 p.2 = Ok v) s ->
  uniform o m ->
  SortedSet.intersection s m <> [] ->
  Forall (fun p => in_bounds o p = true /\ orb_at o p.1 p.2 = Ok v)
         (SortedSet.union s m).
Proof.
  intros Hs [v' Hm] Hmeet.
  assert (v' = v) as ->.
  { destruct (SortedSet.intersection s m) as [|c rest] eqn:E; [done|].
    assert (c ∈ SortedSet.intersection s m) as Hc by (rewrite E; left).
    unfold SortedSet.intersection in Hc. apply list_elem_of_filter in Hc as [Hcm Hcs].
    eapply Forall_forall in Hs; [|exact Hcs].
    eapply Forall_forall in Hm; [|exact Hcm].
    destruct Hs as [_ Hs], Hm as [_ Hm]. congruence. }
  apply Forall_forall. intros c [Hc|Hc]%elem_of_union.
  - by eapply Forall_forall in Hs.
  - by eapply Forall_forall in Hm.
Qed.

Lemma each_couldMatch_uniform o couldMatch :
  forall currentMatch v,
    Forall (fun p => in_bounds o p = true /\ orb_at o p.1 p.2 = Ok v) currentMatch ->
    Forall (uniform o) couldMatch ->
    Forall (fun p => in_bounds o p = true /\ orb_at o p.1 p.2 = Ok v)
           (each_couldMatch couldMatch currentMatch).1 /\
    Forall (uniform o) (each_couldMatch couldMatch currentMatch).2 /\
    (length (each_couldMatch couldMatch currentMatch).2 <= length couldMatch)%nat /\
    (forall c, c ∈ currentMatch -> c ∈ (each_couldMatch couldMatch currentMatch).1).
Proof.
  induction couldMatch as [|m rest IH]; intros cur v Hcur Hall; simpl.
  - auto.
  - apply Forall_cons in Hall as [Hm Hrest].
    destruct (SortedSet.intersection cur m) as [|c0 cs] eqn:E.
    + destruct (IH cur v Hcur Hrest) as (H1 & H2 & H3 & H4).
      destruct (each_couldMatch rest cur) as [cur' unused]. simpl in *.
      repeat split; auto. lia.
    + destruct (IH (SortedSet.union cur m) v) as (H1 & H2 & H3 & H4); [|done|].
      { apply uniform_union; [done|done|]. by rewrite E. }
      repeat split; auto. intros c Hc. apply H4, elem_of_union. by left.
Qed.

Lemma combineMatches_loop_uniform o n :
  forall unused,
    Forall (uniform o) unused ->
    Forall (uniform o) (combineMatches_loop n unused).
Proof.
  induction n as [|n IH]; intros unused Hall; simpl; [constructor|].
  destruct unused as [|first rest]; [constructor|].
  apply Forall_cons in Hall as [[v Hfirst] Hrest].
  assert (Forall (fun p => in_bounds o p = true /\ orb_at o p.1 p.2 = Ok v)
                 (SortedSet.of_list first)) as Hseed.
  { apply Forall_forall. intros c Hc.
    exact (proj1 (Forall_forall _ _) Hfirst c (proj1 (elem_of_of_list _ _) Hc)). }
  destruct (each_couldMatch_uniform o rest _ v Hseed Hrest) as (H1 & H2 & _ & _).
  destruct (each_couldMatch rest (SortedSet.of_list first)) as [cur unused'].
  simpl in *. constructor; [by exists v | by apply IH].
Qed.

Lemma sample_elem_of {A} (l : list A) g x :
  (Lodash.sample l g).1 = Some x -> x ∈ l.
Proof.
  unfold Lodash.sample. destruct l as [|a l]; [discriminate|].
  destruct (Lodash.baseRandom _ _ _) as [i g']. simpl.
  apply list_elem_of_lookup_2.
Qed.

Lemma unmatch_target_elem_of b match_ g target skip g1 :
  unmatch_target b match_ g = Ok (target, skip, g1) -> target ∈ match_.
Proof.
  unfold unmatch_target.
  destruct (_ || _).
  - destruct (match_ !! _) as [[midRow midCol]|] eqn:E; [|discriminate].
    destruct (if bool_decide _ then _ else _) as [nb| |]; try discriminate.
    cbn [bind]. destruct (orb_at _ _ _); try discriminate. cbn [bind].
    intros [= <- _ _]. by eapply list_elem_of_lookup_2.
  - destruct (Lodash.sample _ g) as [[picked|] g2] eqn:E; [|discriminate].
    intros [= <- _ _].
    assert ((Lodash.sample
               (filter (fun coords : coord =>
                          coords.1 ∈ crowded (map fst match_) /\
                          coords.2 ∈ crowded (map snd match_)) match_) g).1
            = Some picked) as Hs by (by rewrite E).
    apply sample_elem_of in Hs. by apply list_elem_of_filter in Hs as [_ ?].
Qed.

(** ** Boards of 3 x 3 are never handed out

    A grid of three rows of three orbs has no 4 x 2 chunk, so
    [needsShuffle()] is true on it whatever it holds, and [shuffle] calls
    itself without end. *)

Lemma in_bounds_rect_iff o h w r c :
  rect o h w ->
  in_bounds o (r, c) = true <-> 0 <= r < Z.of_nat h /\ 0 <= c < Z.of_nat w.
Proof.
  intros Hrect. split.
  - intros (r' & c' & -> & -> & Hr & Hc)%(in_bounds_rect _ h w); [lia|done].
  - intros [Hr Hc].
    destruct (rect_cell _ _ _ (Z.to_nat r) (Z.to_nat c) Hrect) as [v Hv]; [lia|lia|].
    apply cell_in_bounds in Hv. by rewrite !Z2Nat.id in Hv by lia.
Qed.

Lemma swap_keeps_rect b h w c1 c2 b' :
  rect (orbs b) h w ->
  in_bounds (orbs b) c1 = true -> in_bounds (orbs b) c2 = true ->
  swap b (c1, c2) false = Ok b' ->
  rect (orbs b') h w /\ height b' = height b /\ width b' = width b.
Proof.
  intros Hrect (r1 & k1 & v1 & -> & H1)%in_bounds_nat (r2 & k2 & v2 & -> & H2)%in_bounds_nat.
  destruct (swap_cells b r1 k1 r2 k2 v1 v2 H1 H2) as (E & _).
  rewrite E. intros [= <-]. simpl. split; [|done].
  by do 2 apply rect_set_cell.
Qed.

Lemma try_directions_keeps_rect b h w row col thisOrb directions b' :
  rect (orbs b) h w ->
  in_bounds (orbs b) (row, col) = true ->
  try_directions b row col thisOrb directions = Ok (Some b') ->
  rect (orbs b') h w /\ height b' = height b /\ width b' = width b.
Proof.
  intros Hrect Hin. pose proof Hin as [Hr Hc]%(in_bounds_rect_iff _ h w); [|done].
  induction directions as [|d rest IH]; cbn [try_directions]; [discriminate|].
  assert (forall nrow ncol (valid : bool),
            (valid = true -> in_bounds (orbs b) (nrow, ncol) = true) ->
            (if valid
             then b1 <-- swap b ((row, col), (nrow, ncol)) false ;; Ok (Some b1)
             else try_directions b row col thisOrb rest) = Ok (Some b') ->
            rect (orbs b') h w /\ height b' = height b /\ width b' = width b) as Hstep.
  { intros nrow ncol [|] Hvalid; [|apply IH].
    destruct (swap b (row, col, (nrow, ncol)) false) as [b1| |] eqn:E; simpl; try discriminate.
    intros [= <-]. eapply swap_keeps_rect; [done|exact Hin|by apply Hvalid|exact E]. }
  assert (forall nrow,
            match js_get (orbs b) nrow with
            | Some r0 => Ok (bool_decide (default Undefined (js_get r0 col) <> thisOrb))
            | None => Ok false
            end = Ok true -> in_bounds (orbs b) (nrow, col) = true) as Hvert.
  { intros nrow. unfold js_get at 1.
    destruct (Z.ltb_spec nrow 0); [discriminate|].
    destruct (orbs b !! Z.to_nat nrow) eqn:E; [|discriminate]. intros _.
    apply (in_bounds_rect_iff _ h w); [done|].
    apply lookup_lt_Some in E. destruct Hrect as [Hl _]. lia. }
  assert (forall ncol,
            (v <-- orb_at (orbs b) row ncol ;;
             Ok (bool_decide (v <> Undefined) && bool_decide (v <> thisOrb))) = Ok true ->
            in_bounds (orbs b) (row, ncol) = true) as Hhor.
  { intros ncol. unfold orb_at, in_bounds. simpl.
    destruct (js_get (orbs b) row) as [rw|]; [|discriminate]. simpl.
    unfold js_get. destruct (Z.ltb_spec ncol 0); simpl.
    - try (rewrite bool_decide_eq_false_2 by tauto); discriminate.
    - destruct (rw !! Z.to_nat ncol) eqn:E; simpl.
      + intros _. apply lookup_lt_Some in E.
        apply andb_true_iff; split; [apply Z.leb_le | apply Z.ltb_lt]; lia.
      + try (rewrite bool_decide_eq_false_2 by tauto); discriminate. }
  destruct d.
  - destruct (js_get (orbs b) (row - 1)) eqn:E; cbn [bind].
    + apply Hstep. intros Hv. apply Hvert. rewrite E. by rewrite Hv.
    + apply IH.
  - destruct (js_get (orbs b) (row + 1)) eqn:E; cbn [bind].
    + apply Hstep. intros Hv. apply Hvert. rewrite E. by rewrite Hv.
    + apply IH.
  - destruct (orb_at (orbs b) row (col - 1)) as [v| |] eqn:E; cbn [bind]; try discriminate.
    apply Hstep. intros Hv. apply Hhor. rewrite E. cbn [bind]. by rewrite Hv.
  - destruct (orb_at (orbs b) row (col + 1)) as [v| |] eqn:E; cbn [bind]; try discriminate.
    apply Hstep. intros Hv. apply Hhor. rewrite E. cbn [bind]. by rewrite Hv.
Qed.

Lemma random_range upper g :
  0 <= upper -> 0 <= (Lodash.random upper g).1 <= upper.
Proof.
  intros Hu. unfold Lodash.random, Lodash.baseRandom, draw.
  destruct (Z.ltb_spec upper 0); [lia|]. simpl.
  pose proof (Z.mod_pos_bound (Z.of_nat (tape g (cursor g))) (upper - 0 + 1)). lia.
Qed.

Lemma random_pick_in_range fuel b match_ thisOrb g p g' :
  1 <= height b -> 1 <= width b ->
  random_pick fuel b match_ thisOrb g = Ok (p, g') ->
  0 <= p.1 < height b /\ 0 <= p.2 < width b.
Proof.
  intros Hh Hw. revert g. induction fuel as [|fuel IH]; intros g; simpl; [discriminate|].
  pose proof (random_range (height b - 1) g ltac:(lia)) as Hr.
  destruct (Lodash.random (height b - 1) g) as [randomRow g1].
  pose proof (random_range (width b - 1) g1 ltac:(lia)) as Hc.
  destruct (Lodash.random (width b - 1) g1) as [randomCol g2].
  destruct (orb_at (orbs b) randomRow randomCol) as [v| |]; simpl; try discriminate.
  destruct (bool_decide (v <> thisOrb)); [|apply IH].
  intros [= <- <-]. simpl in *. lia.
Qed.

Lemma _unmatch_keeps_rect fuel b h w row col match_ skip g r :
  rect (orbs b) h w -> height b = Z.of_nat h -> width b = Z.of_nat w ->
  in_bounds (orbs b) (row, col) = true ->
  _unmatch fuel b row col match_ skip g = Ok r ->
  rect (orbs r.1) h w /\ height r.1 = height b /\ width r.1 = width b.
Proof.
  intros Hrect Eh Ew Hin. unfold _unmatch.
  pose proof Hin as [Hr Hc]%(in_bounds_rect_iff _ h w); [|done].
  destruct (orb_at (orbs b) row col) as [thisOrb| |]; cbn [bind]; try discriminate.
  destruct (Lodash.shuffle [up; down; left; right] g) as [directions g1].
  destruct (if skip then Ok None else try_directions b row col thisOrb directions)
    as [[b'|]| |] eqn:Et; cbn [bind]; try discriminate.
  - intros [= <-]. cbn [fst]. destruct skip; [discriminate|].
    by eapply try_directions_keeps_rect.
  - destruct (random_pick fuel b match_ thisOrb g1) as [[p g2]| |] eqn:Ep; cbn [bind];
      try discriminate.
    cbn [fst snd].
    destruct (swap b (row, col, p) false) as [b'| |] eqn:Es; cbn [bind]; try discriminate.
    intros [= <-]. cbn [fst].
    apply random_pick_in_range in Ep as [Hp1 Hp2]; [|lia|lia].
    eapply swap_keeps_rect; [done|exact Hin| |exact Es].
    destruct p as [pr pc]. apply (in_bounds_rect_iff _ h w); [done|]. simpl in *. lia.
Qed.

Lemma unmatch_target_group (b : Board) (h w : nat) triples match_ g target skip g1 :
  rect (orbs b) h w -> (2 <= h)%nat -> (2 <= w)%nat ->
  findTriples (orbs b) = Ok triples ->
  head (combineMatches triples) = Some match_ ->
  unmatch_target b match_ g = Ok (target, skip, g1) ->
  uniform (orbs b) match_ /\ target ∈ match_.
Proof.
  intros Hrect Hh Hw Htr Hhead Htarget.
  destruct (structural_enumeration_runs (orbs b) h w Hrect Hh Hw)
    as (ms & Ems & Hruns).
  unfold findTriples in Htr. rewrite Ems in Htr. injection Htr as <-.
  assert (Forall (uniform (orbs b)) ms) as Hall.
  { apply Forall_forall. intros t Ht. by apply Hruns in Ht as [_ ?]. }
  pose proof (combineMatches_loop_uniform (orbs b) (length ms) ms Hall) as Hcomb.
  fold (combineMatches ms) in Hcomb.
  destruct (combineMatches ms) as [|first others]; [discriminate|].
  injection Hhead as ->. apply Forall_inv in Hcomb.
  split; [done|]. by eapply unmatch_target_elem_of.
Qed.

(** On a grid of at least 2 x 2 the group that [unmatch] takes from the
    merger and the orb it targets satisfy the premise of the theorem
    above. *)
Lemma unmatch_group_holds_target_orb
    (b : Board) (h w : nat) triples match_ g target skip g1 thisOrb :
  rect (orbs b) h w -> (2 <= h)%nat -> (2 <= w)%nat ->
  findTriples (orbs b) = Ok triples ->
  head (combineMatches triples) = Some match_ ->
  unmatch_target b match_ g = Ok (target, skip, g1) ->
  orb_at (orbs b) target.1 target.2 = Ok thisOrb ->
  Forall (fun c => orb_at (orbs b) c.1 c.2 = Ok thisOrb) match_.
Proof.
  intros Hrect Hh Hw Htr Hhead Htarget Horb.
  destruct (unmatch_target_group b h w _ _ _ _ _ _ Hrect Hh Hw Htr Hhead Htarget)
    as [[v Hv] Hin].
  assert (v = thisOrb) as ->.
  { eapply Forall_forall in Hv; [|exact Hin]. destruct Hv as [_ Hv]. congruence. }
  eapply Forall_impl; [exact Hv|]. by intros c [_ ?].
Qed.

Lemma unmatch_keeps_rect fuel h w :
  (2 <= h)%nat -> (2 <= w)%nat ->
  forall b g r,
    rect (orbs b) h w -> height b = Z.of_nat h -> width b = Z.of_nat w ->
    unmatch fuel b g = Ok r ->
    rect (orbs r.1) h w /\ height r.1 = Z.of_nat h /\ width r.1 = Z.of_nat w.
Proof.
  intros Hh Hw. induction fuel as [|fuel IH]; intros b g r Hrect Eh Ew; simpl;
    [discriminate|].
  destruct (hasMatch b) as [[|]| |]; simpl; try discriminate.
  2:{ by intros [= <-]. }
  destruct (findTriples (orbs b)) as [triples| |] eqn:Htr; simpl; try discriminate.
  destruct (head (combineMatches triples)) as [match_|] eqn:Hhead; try discriminate.
  destruct (unmatch_target b match_ g) as [[[target skip] g1]| |] eqn:Htarget; simpl;
    try discriminate.
  destruct (unmatch_target_group b h w _ _ _ _ _ _ Hrect Hh Hw Htr Hhead Htarget)
    as [[v Hv] Hin].
  assert (in_bounds (orbs b) (target.1, target.2) = true) as Hb.
  { eapply Forall_forall in Hv; [|exact Hin]. destruct target; simpl. tauto. }
  destruct (_unmatch fuel b target.1 target.2 match_ skip g1) as [r1| |] eqn:Eu; simpl;
    try discriminate.
  destruct (_unmatch_keeps_rect _ _ h w _ _ _ _ _ _ Hrect Eh Ew Hb Eu) as (R1 & H1 & W1).
  apply IH; [done|congruence|congruence].
Qed.

Lemma shuffle_from_length {A} n : forall i (l : list A) g,
  length (Lodash.shuffle_from n i l g).1 = length l.
Proof.
  induction n as [|n IH]; intros i l g; cbn [Lodash.shuffle_from]; [done|].
  destruct (Lodash.baseRandom (Z.of_nat i) (Z.of_nat (length l) - 1) g) as [r g'].
  rewrite IH.
  destruct (l !! Z.to_nat r), (l !! i); rewrite ?length_insert; done.
Qed.

Lemma shuffle_rows_rect rows h w g :
  rect rows h w -> rect (shuffle_rows rows g).1 h w.
Proof.
  intros [<- Hrows]. revert g. induction rows as [|row rows IH]; intros g; simpl.
  - done.
  - apply Forall_cons in Hrows as [Hrow Hrows].
    pose proof (shuffle_from_length (length row) 0 row g) as Hl.
    unfold Lodash.shuffle. destruct (Lodash.shuffle_from _ _ row g) as [row' g1].
    specialize (IH Hrows g1). destruct (shuffle_rows rows g1) as [rest g2].
    simpl in *. destruct IH as [IHl IHr]. split; [simpl; by rewrite IHl|].
    constructor; [congruence|done].
Qed.

Lemma flat_map_nil {A B} (l : list A) : flat_map (fun _ : A => @nil B) l = [].
Proof. by induction l. Qed.

Lemma needsShuffle_3x3 b : rect (orbs b) 3 3 -> needsShuffle b = Ok true.
Proof.
  intros Hrect. pose proof (zip_rect _ _ _ Hrect ltac:(lia)) as Hz.
  assert (forall G tr, rect G 3 3 -> _iterchunks G (4, 2) false tr = Ok []) as Hnone.
  { intros G tr [Hl Hrows]. unfold _iterchunks.
    destruct G as [|row0 G]; [discriminate|]. simpl lookup. cbv beta iota.
    apply Forall_inv in Hrows. rewrite Hrows.
    change (Lodash.range 0 (Z.of_nat 3 - 4 + 1)) with (@nil Z). simpl map.
    by rewrite flat_map_nil. }
  unfold needsShuffle, hasPotentialMatch, iterchunks.
  by rewrite (Hnone _ false Hrect), (Hnone _ true Hz).
Qed.

Lemma shuffle_3x3_never_returns fuel :
  forall b g r,
    rect (orbs b) 3 3 -> height b = 3 -> width b = 3 ->
    shuffle fuel b g <> Ok r.
Proof.
  induction fuel as [|fuel IH]; intros b g r Hrect Eh Ew; simpl; [discriminate|].
  pose proof (shuffle_rows_rect _ _ _ g Hrect) as Hs.
  destruct (shuffle_rows (orbs b) g) as [shuffled g1]. simpl in Hs.
  destruct (unmatch fuel (with_orbs b shuffled) g1) as [r1| |] eqn:Eu; simpl;
    try discriminate.
  destruct (unmatch_keeps_rect fuel 3 3 ltac:(lia) ltac:(lia)
              (with_orbs b shuffled) g1 r1 Hs Eh Ew Eu) as (R1 & H1 & W1).
  rewrite (needsShuffle_3x3 _ R1). simpl. by apply IH.
Qed.

Lemma times_length {A} n (f : Rand -> A * Rand) g :
  length (Lodash.times n f g).1 = n.
Proof.
  revert g. induction n as [|n IH]; intros g; simpl; [done|].
  destruct (f g) as [a g1]. specialize (IH g1).
  destruct (Lodash.times n f g1) as [l g2]. simpl in *. by rewrite IH.
Qed.

Lemma times_Forall {A} (P : A -> Prop) n (f : Rand -> A * Rand) g :
  (forall g, P (f g).1) -> Forall P (Lodash.times n f g).1.
Proof.
  intros Hf. revert g. induction n as [|n IH]; intros g; simpl; [constructor|].
  pose proof (Hf g) as Ha. destruct (f g) as [a g1]. specialize (IH g1).
  destruct (Lodash.times n f g1) as [l g2]. simpl in *. by constructor.
Qed.

(** Width 3, height 3: no fuel and no random source make construction
    return a board. *)
Lemma Board_new_3x3_never_returns fuel ts g r :
  Board_new fuel 3 3 ts g <> Ok r.
Proof.
  unfold Board_new.
  assert (rect (orbs (sampled_board 3 3 ts g).1) 3 3 /\
          height (sampled_board 3 3 ts g).1 = 3 /\
          width (sampled_board 3 3 ts g).1 = 3) as (Hrect & Eh & Ew).
  { unfold sampled_board.
    set (chooseOrb := fun g0 : Rand =>
           let '(o, g') := Lodash.sample ts g0 in (default Undefined o, g')).
    pose proof (times_length (Z.to_nat 3) (Lodash.times (Z.to_nat 3) chooseOrb) g) as Hl.
    pose proof (times_Forall (fun row : list orb => length row = 3%nat) (Z.to_nat 3)
                  (Lodash.times (Z.to_nat 3) chooseOrb) g
                  (fun g0 => times_length (Z.to_nat 3) chooseOrb g0)) as Hrows.
    destruct (Lodash.times (Z.to_nat 3) (Lodash.times (Z.to_nat 3) chooseOrb) g)
      as [rows g1].
    simpl in *. split; [|done]. apply zip_rect; [|lia]. by split. }
  destruct (sampled_board 3 3 ts g) as [b g1]. simpl in *.
  destruct (hasMatch b) as [[|]| |]; simpl; try discriminate.
  - by apply shuffle_3x3_never_returns.
  - rewrite (needsShuffle_3x3 _ Hrect). simpl. by apply shuffle_3x3_never_returns.
Qed.

(** ** Square boards have the shape of the data model

    The constructor samples [height] rows of [width] orbs and keeps their
    [_.zip]: [width] rows of [height] orbs.  When the two are equal (and at
    least 2) the board that construction returns has [height] rows of
    [width] orbs, and [shuffle] keeps that shape. *)

Lemma shuffle_keeps_rect fuel h w :
  (2 <= h)%nat -> (2 <= w)%nat ->
  forall b g r,
    rect (orbs b) h w -> height b = Z.of_nat h -> width b = Z.of_nat w ->
    shuffle fuel b g = Ok r ->
    rect (orbs r.1) h w /\ height r.1 = Z.of_nat h /\ width r.1 = Z.of_nat w.
Proof.
  intros Hh Hw. induction fuel as [|fuel IH]; intros b g r Hrect Eh Ew; simpl;
    [discriminate|].
  pose proof (shuffle_rows_rect _ _ _ g Hrect) as Hs.
  destruct (shuffle_rows (orbs b) g) as [shuffled g1]. simpl in Hs.
  destruct (unmatch fuel (with_orbs b shuffled) g1) as [r1| |] eqn:Eu; simpl;
    try discriminate.
  destruct (unmatch_keeps_rect fuel h w Hh Hw (with_orbs b shuffled) g1 r1 Hs Eh Ew Eu)
    as (R1 & H1 & W1).
  destruct (needsShuffle r1.1) as [[|]| |]; simpl; try discriminate.
  - by apply IH.
  - by intros [= <-].
Qed.

Lemma sampled_board_square n ts g :
  (1 <= n)%nat ->
  rect (orbs (sampled_board (Z.of_nat n) (Z.of_nat n) ts g).1) n n /\
  height (sampled_board (Z.of_nat n) (Z.of_nat n) ts g).1 = Z.of_nat n /\
  width (sampled_board (Z.of_nat n) (Z.of_nat n) ts g).1 = Z.of_nat n.
Proof.
  intros Hn. unfold sampled_board. rewrite Nat2Z.id.
  set (chooseOrb := fun g0 : Rand =>
         let '(o, g') := Lodash.sample ts g0 in (default Undefined o, g')).
  pose proof (times_length n (Lodash.times n chooseOrb) g) as Hl.
  pose proof (times_Forall (fun row : list orb => length row = n) n
                (Lodash.times n chooseOrb) g
                (fun g0 => times_length n chooseOrb g0)) as Hrows.
  destruct (Lodash.times n (Lodash.times n chooseOrb) g) as [rows g1].
  simpl in *. split; [|done]. apply zip_rect; [|lia]. by split.
Qed.

Lemma Board_new_square_wf fuel n ts g r :
  (2 <= n)%nat ->
  Board_new fuel (Z.of_nat n) (Z.of_nat n) ts g = Ok r ->
  wf_board r.1.
Proof.
  intros Hn. unfold Board_new.
  destruct (sampled_board_square n ts g ltac:(lia)) as (Hrect & Eh & Ew).
  destruct (sampled_board (Z.of_nat n) (Z.of_nat n) ts g) as [b g1]. simpl in *.
  assert (forall b', rect (orbs b') n n /\ height b' = Z.of_nat n /\ width b' = Z.of_nat n ->
                     wf_board b') as Hwf.
  { intros b' (R & H & W). unfold wf_board. rewrite H, W, !Nat2Z.id.
    repeat split; try lia; apply R. }
  destruct (hasMatch b) as [[|]| |]; simpl; try discriminate.
  - intros Hs. by eapply Hwf, shuffle_keeps_rect.
  - destruct (needsShuffle b) as [[|]| |]; simpl; try discriminate.
    + intros Hs. by eapply Hwf, shuffle_keeps_rect.
    + intros [= <-]. by apply Hwf.
Qed.

(** ** Construction does not look at its arguments *)

(** C7 (as the code has it).  Construction validates nothing and raises no
    configuration error: whatever the width, the height and the types,
    when the sampled grid has no match and has a potential match,
    construction returns the board holding that grid. *)
Theorem construction_keeps_playable_sample
    (fuel : nat) (w h : Z) (ts : list orb) (g : Rand) :
  hasMatch (sampled_board w h ts g).1 = Ok false ->
  hasPotentialMatch (sampled_board w h ts g).1 = Ok true ->
  Board_new fuel w h ts g = Ok (sampled_board w h ts g).
Proof.
  unfold Board_new, needsShuffle. destruct (sampled_board w h ts g) as [b g1]; simpl.
  by intros -> ->.
Qed.

Lemma construction_keeps_playable_sample_witness :
  Board_new 0 2 4 [Tok 0; Tok 1] (replay narrow_draws)
  = Ok (sampled_board 2 4 [Tok 0; Tok 1] (replay narrow_draws)).
Proof.
  apply construction_keeps_playable_sample; reflexivity.
Defined.

(** Width 2 is below the scan window, and construction returns a board.
    Width 3, height 3 and two types are valid, and construction never
    returns, whatever the draws.  Width 4, height 5 and two types are
    valid, and construction throws a [TypeError]: [orbs] is the [_.zip] of
    the sampled rows, four rows of five orbs, and the random fallback picks
    its row below [height]. *)
Lemma construction_does_not_validate :
  (exists g', Board_new 0 2 4 [Tok 0; Tok 1] (replay narrow_draws)
     = Ok (mkBoard 2 4 [Tok 0; Tok 1]
                   [[Tok 0; Tok 0; Tok 1; Tok 1]; [Tok 1; Tok 1; Tok 0; Tok 0]], g')) /\
  (forall fuel g r, Board_new fuel 3 3 [Tok 0; Tok 1] g <> Ok r) /\
  Board_new 3 4 5 [Tok 0; Tok 1] (replay tall_draws) = TypeError.
Proof.
  split; [|split].
  - eexists. vm_compute. reflexivity.
  - intros fuel g r. apply Board_new_3x3_never_returns.
  - vm_compute. reflexivity.
Qed.

(** * Further properties of the code *)

(** ** [swap]: exchanging twice, and coordinates off the grid *)

Lemma grid_ext (o1 o2 : grid) :
  map length o1 = map length o2 ->
  (forall r c, cell o1 r c = cell o2 r c) ->
  o1 = o2.
Proof.
  intros Hl Hc. apply list_eq. intros r.
  assert (length <$> o1 !! r = length <$> o2 !! r) as Hr.
  { change (length <$> o1 = length <$> o2) in Hl.
    by rewrite <- !list_lookup_fmap, Hl. }
  destruct (o1 !! r) as [row1|] eqn:E1, (o2 !! r) as [row2|] eqn:E2;
    simpl in Hr; try done.
  f_equal. apply list_eq. intros c. specialize (Hc r c). unfold cell in Hc.
  by rewrite E1, E2 in Hc.
Qed.

Lemma exchange_symmetric o r1 k1 r2 k2 v1 v2 :
  cell o r1 k1 = Some v1 -> cell o r2 k2 = Some v2 ->
  set_cell (set_cell o r2 k2 v1) r1 k1 v2 = set_cell (set_cell o r1 k1 v2) r2 k2 v1.
Proof.
  intros H1 H2. apply grid_ext.
  - by rewrite !row_lengths_set_cell.
  - intros r c. rewrite !cell_set_cell.
    repeat case_decide; destruct_and?; simplify_eq; rewrite ?H1, ?H2; try done;
      congruence.
Qed.

Lemma exchange_twice o r1 k1 r2 k2 v1 v2 :
  cell o r1 k1 = Some v1 -> cell o r2 k2 = Some v2 ->
  let o2 := set_cell (set_cell o r1 k1 v2) r2 k2 v1 in
  exists w1 w2,
    cell o2 r1 k1 = Some w1 /\ cell o2 r2 k2 = Some w2 /\
    set_cell (set_cell o2 r1 k1 w2) r2 k2 w1 = o.
Proof.
  intros H1 H2 o2.
  exists (if decide (r1 = r2 /\ k1 = k2) then v1 else v2), v1.
  assert (forall r c,
            cell o2 r c =
            if decide (r = r2 /\ c = k2) then Some v1
            else if decide (r = r1 /\ c = k1) then Some v2 else cell o r c) as Ho2.
  { intros r c. unfold o2. rewrite !cell_set_cell.
    repeat case_decide; destruct_and?; simplify_eq; rewrite ?H1, ?H2; try done; tauto. }
  split; [|split].
  - rewrite Ho2. repeat case_decide; try done; tauto.
  - rewrite Ho2. repeat case_decide; try done; tauto.
  - apply grid_ext.
    + unfold o2. by rewrite !row_lengths_set_cell.
    + intros r c. rewrite !cell_set_cell, !Ho2.
      repeat case_decide; destruct_and?; simplify_eq; try done; try tauto; congruence.
Qed.

(** X1.  Exchanging two cells of the grid with [swap(..., false)] does not
    depend on the order in which the two coordinates are given, and doing it
    a second time gives the board back. *)
Theorem swap_twice_restores (b b1 : Board) (c1 c2 : coord) :
  in_bounds (orbs b) c1 = true ->
  in_bounds (orbs b) c2 = true ->
  swap b (c1, c2) false = Ok b1 ->
  swap b (c2, c1) false = Ok b1 /\ swap b1 (c1, c2) false = Ok b.
Proof.
  intros (r1 & k1 & v1 & -> & H1)%in_bounds_nat (r2 & k2 & v2 & -> & H2)%in_bounds_nat.
  destruct (swap_cells b r1 k1 r2 k2 v1 v2 H1 H2) as (E & _).
  destruct (swap_cells b r2 k2 r1 k1 v2 v1 H2 H1) as (E' & _).
  rewrite E. intros [= <-]. split.
  - rewrite E'. by rewrite (exchange_symmetric _ _ _ _ _ _ _ H1 H2).
  - destruct (exchange_twice _ _ _ _ _ _ _ H1 H2) as (w1 & w2 & G1 & G2 & Hback).
    destruct (swap_cells (with_orbs b (set_cell (set_cell (orbs b) r1 k1 v2) r2 k2 v1))
                r1 k1 r2 k2 w1 w2 G1 G2) as (E2 & _).
    rewrite E2. cbn [orbs with_orbs]. rewrite Hback. by destruct b.
Qed.

Lemma swap_twice_restores_witness :
  swap calm_board ((0, 1), (0, 0)) false
  = Ok (with_orbs calm_board
          [[Tok 2; Tok 1; Tok 1]; [Tok 2; Tok 3; Tok 2]; [Tok 1; Tok 3; Tok 1]]) /\
  swap (with_orbs calm_board
          [[Tok 2; Tok 1; Tok 1]; [Tok 2; Tok 3; Tok 2]; [Tok 1; Tok 3; Tok 1]])
       ((0, 0), (0, 1)) false
  = Ok calm_board.
Proof.
  apply (swap_twice_restores calm_board _ (0, 0) (0, 1)); reflexivity.
Defined.

(** X2.  A player swap of two cells of the grid returns: when the grid
    with the two cells exchanged has a match the exchange is kept, and
    otherwise the board is the one before the call. *)
Theorem player_swap_keeps_match_or_reverts (b : Board) (c1 c2 : coord) :
  in_bounds (orbs b) c1 = true ->
  in_bounds (orbs b) c2 = true ->
  exists b2 b',
    swap b (c1, c2) false = Ok b2 /\
    swap b (c1, c2) true = Ok b' /\
    ((hasMatch b2 = Ok true /\ b' = b2) \/ (hasMatch b2 = Ok false /\ b' = b)).
Proof.
  intros (r1 & k1 & v1 & -> & H1)%in_bounds_nat (r2 & k2 & v2 & -> & H2)%in_bounds_nat.
  destruct (swap_cells b r1 k1 r2 k2 v1 v2 H1 H2) as (E & m & Hm & Ep).
  eexists _, _. split; [exact E|]. split; [exact Ep|].
  destruct m; [left|right]; done.
Qed.

Lemma player_swap_keeps_match_or_reverts_witness :
  exists b2 b',
    swap column_run_board ((1, 1), (1, 2)) false = Ok b2 /\
    swap column_run_board ((1, 1), (1, 2)) true = Ok b' /\
    ((hasMatch b2 = Ok true /\ b' = b2) \/
     (hasMatch b2 = Ok false /\ b' = column_run_board)).
Proof.
  apply (player_swap_keeps_match_or_reverts column_run_board (1, 1) (1, 2)); reflexivity.
Defined.

(** X3.  [swap] does not check its coordinates.  When one of the two rows
    is no row of the grid it throws a [TypeError], with either value of
    [playerSwap]. *)
Theorem swap_row_off_grid_throws
    (b : Board) (r1 c1 r2 c2 : Z) (playerSwap : bool) :
  r1 < 0 \/ Z.of_nat (length (orbs b)) <= r1 \/
  r2 < 0 \/ Z.of_nat (length (orbs b)) <= r2 ->
  swap b ((r1, c1), (r2, c2)) playerSwap = TypeError.
Proof.
  intros Hoff. unfold swap.
  assert (forall r, r < 0 \/ Z.of_nat (length (orbs b)) <= r -> js_get (orbs b) r = None)
    as Hnone.
  { intros r Hr. unfold js_get. destruct (Z.ltb_spec r 0); [done|].
    apply lookup_ge_None. lia. }
  unfold orb_at at 1.
  destruct (js_get (orbs b) r2) as [row2|] eqn:E2; cbn [bind]; [|done].
  unfold set_orb at 1.
  destruct (js_get (orbs b) r1) as [row1|] eqn:E1; cbn [bind]; [|done].
  exfalso.
  destruct Hoff as [H|[H|[H|H]]].
  - rewrite Hnone in E1 by tauto. discriminate.
  - rewrite Hnone in E1 by tauto. discriminate.
  - rewrite Hnone in E2 by tauto. discriminate.
  - rewrite Hnone in E2 by tauto. discriminate.
Qed.

Lemma swap_row_off_grid_throws_witness :
  swap calm_board ((0, 0), (3, 0)) true = TypeError /\
  swap calm_board ((-1, 0), (0, 0)) false = TypeError.
Proof.
  split.
  - apply (swap_row_off_grid_throws calm_board 0 0 3 0 true). simpl. lia.
  - apply (swap_row_off_grid_throws calm_board (-1) 0 0 0 false). simpl. lia.
Defined.

(** X4.  With a column at or past the end of a row of the grid, [swap]
    throws nothing: the cell on the grid takes [undefined], and the other row
    is extended up to the column given, where it takes the orb of the cell;
    the grid is no longer rectangular. *)
Theorem swap_column_past_end_extends_row
    (b : Board) (h w r1 k1 r2 : nat) (c2 : Z) (v1 : orb) :
  rect (orbs b) h w ->
  cell (orbs b) r1 k1 = Some v1 ->
  (r2 < h)%nat ->
  Z.of_nat w <= c2 ->
  exists b',
    swap b ((Z.of_nat r1, Z.of_nat k1), (Z.of_nat r2, c2)) false = Ok b' /\
    cell (orbs b') r1 k1 = Some Undefined /\
    cell (orbs b') r2 (Z.to_nat c2) = Some v1 /\
    length <$> orbs b' !! r2 = Some (Z.to_nat c2 + 1)%nat.
Proof.
  intros Hrect H1 Hr2 Hc2.
  destruct (rect_cell _ _ _ r2 0 Hrect Hr2) as [x Hx].
  { destruct (cell_bounds _ _ _ _ _ _ Hrect H1). lia. }
  unfold cell in Hx. destruct (orbs b !! r2) as [row2|] eqn:Erow2; [|discriminate].
  assert (length row2 = w) as Hlen2.
  { destruct Hrect as [_ Hrows]. by eapply Forall_lookup_1 in Hrows. }
  unfold swap.
  assert (orb_at (orbs b) (Z.of_nat r2) c2 = Ok Undefined) as ->.
  { unfold orb_at, js_get. destruct (Z.ltb_spec (Z.of_nat r2) 0); [lia|].
    rewrite Nat2Z.id, Erow2. destruct (Z.ltb_spec c2 0); [lia|].
    rewrite (proj2 (lookup_ge_None row2 (Z.to_nat c2))) by lia. done. }
  cbn [bind].
  rewrite (set_orb_cell _ _ _ Undefined) by (by rewrite H1). cbn [bind].
  rewrite (orb_at_cell _ _ _ _ H1). cbn [bind].
  set (o1 := set_cell (orbs b) r1 k1 Undefined).
  assert (exists row, o1 !! r2 = Some row /\ length row = w /\
                      forall c, row !! c = cell o1 r2 c) as (row & Erow & Hlen & Hcells).
  { pose proof (rect_set_cell _ _ _ r1 k1 Undefined Hrect) as Hrect1. fold o1 in Hrect1.
    destruct (o1 !! r2) as [row|] eqn:E.
    - exists row. split; [done|]. split.
      + destruct Hrect1 as [_ Hrows]. by eapply Forall_lookup_1 in Hrows.
      + intros c. unfold cell. by rewrite E.
    - apply lookup_ge_None in E. destruct Hrect1 as [Hl _]. lia. }
  unfold set_orb, js_get. destruct (Z.ltb_spec (Z.of_nat r2) 0); [lia|].
  rewrite Nat2Z.id, Erow. cbn [bind].
  eexists. split; [reflexivity|]. cbn [orbs with_orbs].
  unfold js_set. destruct (Z.ltb_spec c2 0); [lia|].
  destruct (Z.ltb_spec c2 (Z.of_nat (length row))); [lia|].
  set (row' := row ++ replicate (Z.to_nat c2 - length row) Undefined ++ [v1]).
  assert (cell o1 r1 k1 = Some Undefined) as Hu.
  { unfold o1. rewrite cell_set_cell, decide_True by done. by rewrite H1. }
  assert (length row' = (Z.to_nat c2 + 1)%nat) as Hlen'.
  { unfold row'. rewrite !length_app, length_replicate. simpl. lia. }
  split; [|split].
  - unfold cell. destruct (decide (r1 = r2)) as [->|Hne].
    + rewrite list_lookup_insert_eq by (by eapply lookup_lt_Some).
      unfold row'. rewrite lookup_app_l.
      * by rewrite Hcells.
      * destruct (cell_bounds _ _ _ _ _ _ Hrect H1). lia.
    + rewrite list_lookup_insert_ne by done. exact Hu.
  - unfold cell. rewrite list_lookup_insert_eq by (by eapply lookup_lt_Some).
    unfold row'. rewrite app_assoc. rewrite lookup_app_r.
    + rewrite length_app, length_replicate.
      replace (Z.to_nat c2 - _)%nat with 0%nat by lia. done.
    + rewrite length_app, length_replicate. lia.
  - rewrite list_lookup_insert_eq by (by eapply lookup_lt_Some). simpl.
    by rewrite Hlen'.
Qed.

Lemma swap_column_past_end_extends_row_witness :
  exists b',
    swap calm_board ((Z.of_nat 0, Z.of_nat 0), (Z.of_nat 1, 4)) false = Ok b' /\
    cell (orbs b') 0 0 = Some Undefined /\
    cell (orbs b') 1 (Z.to_nat 4) = Some (Tok 1) /\
    length <$> orbs b' !! 1%nat = Some (Z.to_nat 4 + 1)%nat.
Proof.
  apply (swap_column_past_end_extends_row calm_board 3 3 0 0 1 4 (Tok 1)).
  - split; [reflexivity|]. repeat constructor.
  - reflexivity.
  - lia.
  - simpl. lia.
Defined.

(** ** [hasMatch] is exact *)

(** X5.  On a grid of [h] rows of [w] orbs with [h] and [w] at least 2,
    [hasMatch()] returns, and it returns true exactly when three cells that
    follow one another along a row or a column hold one and the same orb. *)
Theorem hasMatch_iff_run (b : Board) (h w : nat) :
  rect (orbs b) h w -> (2 <= h)%nat -> (2 <= w)%nat ->
  exists m,
    hasMatch b = Ok m /\
    (m = true <-> exists g, aligned g /\ uniform (orbs b) g).
Proof.
  intros Hrect Hh Hw.
  destruct (structural_enumeration_runs _ h w Hrect Hh Hw) as (ms & E & Hiff).
  unfold hasMatch, findTriples. rewrite E. cbn [bind].
  eexists. split; [reflexivity|].
  destruct ms as [|g ms].
  - split; [discriminate|]. intros (g & Hg). apply Hiff in Hg. by apply elem_of_nil in Hg.
  - split; [|done]. intros _. exists g. apply Hiff. by left.
Qed.

Lemma hasMatch_iff_run_witness :
  exists m,
    hasMatch column_run_board = Ok m /\
    (m = true <-> exists g, aligned g /\ uniform (orbs column_run_board) g).
Proof.
  apply (hasMatch_iff_run column_run_board 4 4).
  - split; [reflexivity|]. repeat constructor.
  - lia.
  - lia.
Defined.

(** ** The chunks of [_iterchunks] *)

Lemma range_length e : length (Lodash.range 0 e) = Z.abs_nat e.
Proof.
  unfold Lodash.range. destruct (Z.ltb_spec 0 e);
    rewrite length_map, length_seq; lia.
Qed.

Lemma flat_map_length_const {A B} (f : A -> list B) (l : list A) k :
  (forall a, length (f a) = k) -> length (flat_map f l) = (length l * k)%nat.
Proof.
  intros Hf. induction l as [|a l IH]; simpl; [done|].
  by rewrite length_app, Hf, IH.
Qed.

(** X6.  On a grid of [h] rows (at least one) of [w] cells, [_iterchunks]
    with a window of [W] columns and [H] rows returns
    |h - H + 1| * |w - W + 1| chunks.  These are the windows that fit; a
    window that exceeds the grid by exactly one row or column gives no chunk,
    and one that exceeds it by more gives chunks again, since [_.range]
    counts down to a negative end. *)
Theorem _iterchunks_count
    (o : grid) (h w : nat) (W H : Z) (includePositionInformation isTransposed : bool) :
  rect o h w -> (1 <= h)%nat ->
  exists cs,
    _iterchunks o (W, H) includePositionInformation isTransposed = Ok cs /\
    length cs
    = (Z.abs_nat (Z.of_nat h - H + 1) * Z.abs_nat (Z.of_nat w - W + 1))%nat.
Proof.
  intros [Hl Hrows] Hh. unfold _iterchunks.
  destruct (o !! 0%nat) as [row0|] eqn:E0.
  2:{ apply lookup_ge_None in E0. lia. }
  eexists. split; [reflexivity|].
  assert (length row0 = w) as -> by (by eapply Forall_lookup_1 in Hrows).
  rewrite Hl.
  rewrite (flat_map_length_const _ _ (Z.abs_nat (Z.of_nat w - W + 1))).
  - by rewrite range_length.
  - intros a. by rewrite length_map, range_length.
Qed.

Lemma _iterchunks_count_witness :
  (exists cs,
     _iterchunks documented_grid (3, 2) true false = Ok cs /\
     length cs = (Z.abs_nat (Z.of_nat 3 - 2 + 1) * Z.abs_nat (Z.of_nat 3 - 3 + 1))%nat) /\
  (exists cs,
     _iterchunks single_orb (3, 1) true false = Ok cs /\
     length cs = (Z.abs_nat (Z.of_nat 1 - 1 + 1) * Z.abs_nat (Z.of_nat 1 - 3 + 1))%nat).
Proof.
  split.
  - apply (_iterchunks_count documented_grid 3 3 3 2 true false); [|lia].
    split; [reflexivity|]. repeat constructor.
  - apply (_iterchunks_count single_orb 1 1 3 1 true false); [|lia].
    split; [reflexivity|]. repeat constructor.
Defined.

Lemma rect_row_lengths o h w : rect o h w -> map length o = replicate h w.
Proof.
  intros [<- Hrows]. induction Hrows as [|row o Hrow _ IH]; simpl; congruence.
Qed.

Lemma rect_ext (o1 o2 : grid) h w :
  rect o1 h w -> rect o2 h w ->
  (forall a b, (a < h)%nat -> (b < w)%nat -> cell o1 a b = cell o2 a b) ->
  o1 = o2.
Proof.
  intros H1 H2 Hc. apply grid_ext.
  - by rewrite (rect_row_lengths _ _ _ H1), (rect_row_lengths _ _ _ H2).
  - intros a b.
    destruct (decide (a < h /\ b < w)%nat) as [[Ha Hb]|Hn]; [by apply Hc|].
    transitivity (@None orb); [|symmetry].
    + destruct (cell o1 a b) eqn:E; [|done]. apply (cell_bounds _ _ _ _ _ _ H1) in E. lia.
    + destruct (cell o2 a b) eqn:E; [|done]. apply (cell_bounds _ _ _ _ _ _ H2) in E. lia.
Qed.

Lemma elem_of_take_drop {A} (x : A) n k (l : list A) :
  x ∈ take n (drop k l) -> x ∈ l.
Proof.
  intros H. eapply elem_of_sublist; [|apply sublist_drop].
  eapply elem_of_sublist; [exact H|apply sublist_take].
Qed.

Lemma window_cells (o : grid) (h w i j H W : nat) :
  rect o h w -> (i + H <= h)%nat -> (j + W <= w)%nat ->
  let win := map (fun row : list orb => js_slice row (Z.of_nat j) (Z.of_nat j + Z.of_nat W))
                 (js_slice o (Z.of_nat i) (Z.of_nat i + Z.of_nat H)) in
  rect win H W /\
  forall a b, (a < H)%nat -> (b < W)%nat -> cell win a b = cell o (i + a) (j + b).
Proof.
  intros [Hl Hrows] Hi Hj win.
  assert (win = map (fun row => take W (drop j row)) (take H (drop i o))) as ->.
  { unfold win. rewrite js_slice_nat by lia. rewrite Nat2Z.id.
    apply map_ext_in. intros row Hin.
    rewrite js_slice_nat, Nat2Z.id; [done|lia|].
    apply list_elem_of_In, elem_of_take_drop in Hin.
    rewrite Forall_forall in Hrows. rewrite (Hrows _ Hin), Nat2Z.id. lia. }
  split.
  - split.
    + rewrite length_map, length_take, length_drop. lia.
    + apply Forall_forall. intros row (row' & -> & Hin)%list_elem_of_fmap.
      apply elem_of_take_drop in Hin.
      rewrite Forall_forall in Hrows.
      rewrite length_take, length_drop, (Hrows _ Hin). lia.
  - intros a b Ha Hb. unfold cell.
    change (map ?f ?l) with (f <$> l).
    rewrite list_lookup_fmap, lookup_take_lt, lookup_drop by done.
    destruct (o !! (i + a)%nat) as [row|]; [|done]. simpl.
    by rewrite lookup_take_lt, lookup_drop.
Qed.

(** The chunks of a window that fits. *)
Lemma _iterchunks_chunks
    (o : grid) (h w W H : nat) (includePositionInformation isTransposed : bool) :
  rect o h w -> (1 <= H <= h)%nat -> (1 <= W <= w)%nat ->
  exists cs,
    _iterchunks o (Z.of_nat W, Z.of_nat H) includePositionInformation isTransposed
    = Ok cs /\
    forall c, c ∈ cs <->
      exists i j : nat,
        (i + H <= h)%nat /\ (j + W <= w)%nat /\
        rect (chunk_rows c) H W /\
        (forall a b, (a < H)%nat -> (b < W)%nat ->
           cell (chunk_rows c) a b = cell o (i + a) (j + b)) /\
        chunk_position c =
          (if includePositionInformation
           then Some (if isTransposed
                      then ((Z.of_nat j, Z.of_nat i),
                            (Z.of_nat j + Z.of_nat W - 1, Z.of_nat i + Z.of_nat H - 1))
                      else ((Z.of_nat i, Z.of_nat j),
                            (Z.of_nat i + Z.of_nat H - 1, Z.of_nat j + Z.of_nat W - 1)))
           else None).
Proof.
  intros Hrect HH HW. pose proof Hrect as [Hl Hrows]. unfold _iterchunks.
  destruct (o !! 0%nat) as [row0|] eqn:E0.
  2:{ apply lookup_ge_None in E0. lia. }
  eexists. split; [reflexivity|].
  assert (length row0 = w) as -> by (by eapply Forall_lookup_1 in Hrows).
  rewrite Hl.
  replace (Z.of_nat w - Z.of_nat W + 1) with (Z.of_nat (w - W + 1)) by lia.
  replace (Z.of_nat h - Z.of_nat H + 1) with (Z.of_nat (h - H + 1)) by lia.
  rewrite !range_nat. intros c. split.
  - intros Hc. apply list_elem_of_In, in_flat_map in Hc as (hi & Hhi & Hc).
    apply in_map_iff in Hhi as (i & <- & Hi%in_seq).
    apply in_map_iff in Hc as (wi & <- & Hwi).
    apply in_map_iff in Hwi as (j & <- & Hj%in_seq).
    exists i, j.
    destruct (window_cells o h w i j H W Hrect) as [Hwr Hwc]; [lia|lia|].
    split; [lia|]. split; [lia|]. cbn [chunk_rows chunk_position].
    split; [done|]. split; [done|]. by destruct includePositionInformation, isTransposed.
  - intros (i & j & Hi & Hj & Hcr & Hcc & Hpos).
    destruct (window_cells o h w i j H W Hrect Hi Hj) as [Hwr Hwc].
    apply list_elem_of_In, in_flat_map. exists (Z.of_nat i). split.
    { apply in_map, in_seq. lia. }
    apply in_map_iff. exists (Z.of_nat j). split.
    2:{ apply in_map, in_seq. lia. }
    destruct c as [rows p]. cbn [chunk_rows chunk_position] in *. f_equal.
    + apply (rect_ext _ _ H W); [done|done|]. intros a b Ha Hb. by rewrite Hwc, Hcc.
    + rewrite Hpos. by destruct includePositionInformation, isTransposed.
Qed.

(** X7.  On a grid of [h] rows of [w] cells and for a window of [W]
    columns and [H] rows that fits, the chunks of [_iterchunks] are exactly
    the windows at the offsets [(i, j)] with [i + H <= h] and [j + W <= w]:
    the chunk has [H] rows of [W] cells, its cell [(a, b)] is the cell
    [(i + a, j + b)] of the grid, and its position, when asked for, gives
    [(i, j)] and [(i + H - 1, j + W - 1)], each pair reversed for the
    transposed scan. *)
Theorem _iterchunks_windows
    (o : grid) (h w W H : nat) (includePositionInformation isTransposed : bool) :
  rect o h w -> (1 <= H <= h)%nat -> (1 <= W <= w)%nat ->
  exists cs,
    _iterchunks o (Z.of_nat W, Z.of_nat H) includePositionInformation isTransposed
    = Ok cs /\
    forall c, c ∈ cs <->
      exists i j : nat,
        (i + H <= h)%nat /\ (j + W <= w)%nat /\
        rect (chunk_rows c) H W /\
        (forall a b, (a < H)%nat -> (b < W)%nat ->
           cell (chunk_rows c) a b = cell o (i + a) (j + b)) /\
        chunk_position c =
          (if includePositionInformation
           then Some (if isTransposed
                      then ((Z.of_nat j, Z.of_nat i),
                            (Z.of_nat j + Z.of_nat W - 1, Z.of_nat i + Z.of_nat H - 1))
                      else ((Z.of_nat i, Z.of_nat j),
                            (Z.of_nat i + Z.of_nat H - 1, Z.of_nat j + Z.of_nat W - 1)))
           else None).
Proof. apply _iterchunks_chunks. Qed.

Lemma _iterchunks_windows_witness :
  exists cs,
    _iterchunks documented_grid (Z.of_nat 3, Z.of_nat 2) true true = Ok cs /\
    forall c, c ∈ cs <->
      exists i j : nat,
        (i + 2 <= 3)%nat /\ (j + 3 <= 3)%nat /\
        rect (chunk_rows c) 2 3 /\
        (forall a b, (a < 2)%nat -> (b < 3)%nat ->
           cell (chunk_rows c) a b = cell documented_grid (i + a) (j + b)) /\
        chunk_position c =
          Some ((Z.of_nat j, Z.of_nat i),
                (Z.of_nat j + Z.of_nat 3 - 1, Z.of_nat i + Z.of_nat 2 - 1)).
Proof.
  apply (_iterchunks_windows documented_grid 3 3 3 2 true true).
  - split; [reflexivity|]. repeat constructor.
  - lia.
  - lia.
Defined.

(** ** [indexOfAll] *)

Lemma indexOfAll_from_spec l v : forall k,
  (forall i, i ∈ indexOfAll_from k l v <-> (k <= i)%nat /\ l !! (i - k)%nat = Some v) /\
  StronglySorted Nat.lt (indexOfAll_from k l v).
Proof.
  induction l as [|e l IH]; intros k; simpl.
  - split; [|constructor]. intros i. rewrite elem_of_nil. split; [done|]. by intros [_ ?].
  - destruct (IH (S k)) as [Hin Hs].
    assert (forall i, (k <= i)%nat /\ (e :: l) !! (i - k)%nat = Some v <->
                      (i = k /\ e = v) \/ ((S k <= i)%nat /\ l !! (i - S k)%nat = Some v))
      as Hcase.
    { intros i. destruct (decide (i = k)) as [->|Hne].
      - rewrite Nat.sub_diag. simpl. split.
        + intros [_ [= ->]]. by left.
        + intros [[_ ->]|[? _]]; [done|lia].
      - split.
        + intros [Hk Hi]. right. split; [lia|].
          replace (i - k)%nat with (S (i - S k)) in Hi by lia. done.
        + intros [[? _]|[Hk Hi]]; [done|]. split; [lia|].
          replace (i - k)%nat with (S (i - S k)) by lia. done. }
    destruct (decide (e = v)) as [->|Hne].
    + split.
      * intros i. rewrite elem_of_cons, Hin, Hcase. tauto.
      * constructor; [done|]. apply Forall_forall. intros i Hi. apply Hin in Hi. lia.
    + split; [|done]. intros i. rewrite Hin, Hcase. tauto.
Qed.

(** X8.  [indexOfAll(list, value)] returns exactly the indices at which
    [list] holds [value], in increasing order; on a list that is
    [undefined] it returns no index. *)
Theorem indexOfAll_indices (l : list orb) (value : orb) :
  (forall i, i ∈ indexOfAll (Some l) value <-> l !! i = Some value) /\
  StronglySorted Nat.lt (indexOfAll (Some l) value) /\
  indexOfAll None value = [].
Proof.
  destruct (indexOfAll_from_spec l value 0) as [Hin Hs].
  split; [|by split]. intros i. unfold indexOfAll. simpl. rewrite Hin, Nat.sub_0_r.
  split; [tauto|]. split; [lia|done].
Qed.

(** ** What [combineMatches] merges *)

Lemma lt_trans a b c :
  SortedSet.lt a b = true -> SortedSet.lt b c = true -> SortedSet.lt a c = true.
Proof. unfold SortedSet.lt. destruct a, b, c; simpl. lia. Qed.

Lemma lt_irrefl a : SortedSet.lt a a = false.
Proof. unfold SortedSet.lt. destruct a; simpl. lia. Qed.

Lemma lt_total a b : SortedSet.lt a b = false -> a <> b -> SortedSet.lt b a = true.
Proof.
  unfold SortedSet.lt. destruct a as [a1 a2], b as [b1 b2]; simpl. intros H Hne.
  assert (a1 <> b1 \/ a2 <> b2) by (destruct (decide (a1 = b1)); [right; congruence|by left]).
  lia.
Qed.

Lemma ordered_add c s : ordered s -> ordered (SortedSet.add c s).
Proof.
  unfold ordered. induction 1 as [|d s Hs IH Hd]; simpl.
  - repeat constructor.
  - destruct (SortedSet.lt c d) eqn:E.
    + constructor; [by constructor|]. constructor; [done|].
      eapply Forall_impl; [exact Hd|]. intros x Hx. by eapply lt_trans.
    + destruct (decide (c = d)) as [->|Hne]; [by constructor|].
      constructor; [done|]. apply Forall_forall. intros x [->|Hx]%elem_of_add.
      * by apply lt_total.
      * by eapply Forall_forall in Hd.
Qed.

Lemma ordered_union s m : ordered s -> ordered (SortedSet.union s m).
Proof.
  unfold SortedSet.union. revert s. induction m as [|x m IH]; intros s Hs; simpl; [done|].
  by apply IH, ordered_add.
Qed.

Lemma ordered_of_list l : ordered (SortedSet.of_list l).
Proof. apply (ordered_union [] l). constructor. Qed.

Lemma ordered_NoDup g : ordered g -> NoDup g.
Proof.
  induction 1 as [|c g Hg IH Hc]; constructor; [|done].
  intros Hin. eapply Forall_forall in Hc; [|exact Hin]. by rewrite lt_irrefl in Hc.
Qed.

Lemma intersection_nil s m :
  SortedSet.intersection s m = [] <-> forall c, c ∈ s -> c ∉ m.
Proof.
  unfold SortedSet.intersection. split.
  - intros E c Hs Hm.
    assert (c ∈ filter (fun c => c ∈ m) s) as Hc by (by apply list_elem_of_filter).
    rewrite E in Hc. by apply elem_of_nil in Hc.
  - intros H. destruct (filter _ s) as [|c l] eqn:E; [done|].
    assert (c ∈ filter (fun c => c ∈ m) s) as Hc by (rewrite E; left).
    apply list_elem_of_filter in Hc as [Hm Hs]. by destruct (H c).
Qed.

(** One pass of the merger over the groups still unused. *)
Lemma each_couldMatch_pass couldMatch : forall currentMatch,
  let r := each_couldMatch couldMatch currentMatch in
  currentMatch ⊆ r.1 /\
  (forall c, c ∈ r.1 ->
     c ∈ currentMatch \/ exists m, m ∈ couldMatch /\ c ∈ m /\ m ⊆ r.1) /\
  (forall m, m ∈ couldMatch -> m ⊆ r.1 \/ m ∈ r.2) /\
  (forall m, m ∈ couldMatch -> (exists c, c ∈ currentMatch /\ c ∈ m) -> m ⊆ r.1) /\
  r.2 ⊆ couldMatch /\
  (length r.2 <= length couldMatch)%nat /\
  (ordered currentMatch -> ordered r.1) /\
  ((forall m, m ∈ couldMatch -> forall c, c ∈ currentMatch -> c ∉ m) ->
   r = (currentMatch, couldMatch)).
Proof.
  induction couldMatch as [|m rest IH]; intros cur; cbn zeta; simpl.
  - repeat split; try done.
    + by left.
    + by intros m ?%elem_of_nil.
    + by intros m ?%elem_of_nil.
  - destruct (SortedSet.intersection cur m) as [|c0 cs] eqn:E.
    + specialize (IH cur). cbn zeta in IH.
      destruct (each_couldMatch rest cur) as [cur' unused]. simpl in *.
      destruct IH as (I1 & I2 & I3 & I4 & I5 & I6 & I7 & I8).
      pose proof (proj1 (intersection_nil _ _) E) as Hdis.
      repeat split; try done.
      * intros c Hc. destruct (I2 c Hc) as [?|(m' & Hm' & ? & ?)]; [by left|].
        right. exists m'. split; [by right|done].
      * intros m' [->|Hm']%elem_of_cons; [right; by left|].
        destruct (I3 m' Hm'); [by left|right; by right].
      * intros m' [->|Hm']%elem_of_cons (c & Hc & Hcm); [by destruct (Hdis c)|].
        apply I4; eauto.
      * intros x [->|Hx]%elem_of_cons; [by left|]. right. by apply I5.
      * lia.
      * intros Hall.
        assert ((cur', unused) = (cur, rest)) as [= -> ->]; [|done].
        apply I8. intros m' Hm'. apply Hall. by right.
    + specialize (IH (SortedSet.union cur m)). cbn zeta in IH.
      destruct (each_couldMatch rest (SortedSet.union cur m)) as [cur' unused].
      simpl in *.
      destruct IH as (I1 & I2 & I3 & I4 & I5 & I6 & I7 & I8).
      assert (m ⊆ cur') as Hm.
      { intros c Hc. apply I1, elem_of_union. by right. }
      repeat split; try done.
      * intros c Hc. apply I1, elem_of_union. by left.
      * intros c Hc. destruct (I2 c Hc) as [[?|?]%elem_of_union|(m' & Hm' & ? & ?)].
        -- by left.
        -- right. exists m. split; [by left|done].
        -- right. exists m'. split; [by right|done].
      * intros m' [->|Hm']%elem_of_cons; [by left|]. apply I3, Hm'.
      * intros m' [->|Hm']%elem_of_cons (c & Hc & Hcm); [done|].
        apply I4; [done|]. exists c. split; [|done]. apply elem_of_union. by left.
      * intros x Hx. right. by apply I5.
      * lia.
      * intros Hs. by apply I7, ordered_union.
      * intros Hall. exfalso.
        assert (c0 ∈ SortedSet.intersection cur m) as Hc by (rewrite E; left).
        apply list_elem_of_filter in Hc as [Hcm Hcs].
        by apply (Hall m ltac:(left) c0).
Qed.

Lemma combineMatches_loop_groups n : forall unused,
  (length unused <= n)%nat ->
  let out := combineMatches_loop n unused in
  (forall m, m ∈ unused -> exists g, g ∈ out /\ m ⊆ g) /\
  (forall g, g ∈ out ->
     (exists m, m ∈ unused /\ m ⊆ g) /\
     forall c, c ∈ g -> exists m, m ∈ unused /\ c ∈ m /\ m ⊆ g) /\
  Forall ordered out /\
  (length out <= length unused)%nat.
Proof.
  induction n as [|n IH]; intros unused Hn; cbn zeta.
  - destruct unused; [|simpl in Hn; lia]. simpl. repeat split; try done.
    + by intros m ?%elem_of_nil.
    + by apply elem_of_nil in H.
    + by apply elem_of_nil in H.
  - destruct unused as [|first rest]; simpl.
    { repeat split; try done.
      - by intros m ?%elem_of_nil.
      - by apply elem_of_nil in H.
      - by apply elem_of_nil in H. }
    pose proof (each_couldMatch_pass rest (SortedSet.of_list first)) as P.
    cbn zeta in P.
    destruct (each_couldMatch rest (SortedSet.of_list first)) as [cur unused'].
    simpl in *. destruct P as (P1 & P2 & P3 & P4 & P5 & P6 & P7 & _).
    destruct (IH unused' ltac:(lia)) as (J1 & J2 & J3 & J4).
    assert (first ⊆ cur) as Hfirst.
    { intros c Hc. by apply P1, elem_of_of_list. }
    repeat split.
    + intros m [->|Hm]%elem_of_cons.
      * exists cur. split; [by left|done].
      * destruct (P3 m Hm) as [Hsub|Hun].
        -- exists cur. split; [by left|done].
        -- destruct (J1 m Hun) as (g & Hg & Hsub). exists g. split; [by right|done].
    + apply elem_of_cons in H as [->|Hg].
      * exists first. split; [by left|done].
      * destruct (J2 g Hg) as [(m & Hm & Hsub) _]. exists m. split; [|done].
        right. by apply P5.
    + intros c Hc. apply elem_of_cons in H as [->|Hg].
      * destruct (P2 c Hc) as [Hseed|(m & Hm & Hcm & Hsub)].
        -- exists first. split; [by left|]. split; [by apply elem_of_of_list|done].
        -- exists m. split; [by right|done].
      * destruct (J2 g Hg) as [_ Hcov]. destruct (Hcov c Hc) as (m & Hm & Hcm & Hsub).
        exists m. split; [|done]. right. by apply P5.
    + constructor; [|done]. apply P7, ordered_of_list.
    + lia.
Qed.

(** X9.  [combineMatches] loses and invents nothing: every group given lies
    inside a group returned, and every group returned is the union of
    groups given that lie inside it (one at least).  A group returned lists
    its coordinates in the order of the sorted set, each once, and there are
    no more groups returned than given. *)
Theorem combineMatches_covers (matches : list (list coord)) :
  (forall m, m ∈ matches -> exists g, g ∈ combineMatches matches /\ m ⊆ g) /\
  (forall g, g ∈ combineMatches matches ->
     (exists m, m ∈ matches /\ m ⊆ g) /\
     forall c, c ∈ g -> exists m, m ∈ matches /\ c ∈ m /\ m ⊆ g) /\
  Forall (fun g => ordered g /\ NoDup g) (combineMatches matches) /\
  (length (combineMatches matches) <= length matches)%nat.
Proof.
  destruct (combineMatches_loop_groups (length matches) matches (le_n _))
    as (H1 & H2 & H3 & H4).
  fold (combineMatches matches) in *.
  repeat split; try done.
  - by apply H2.
  - by apply H2.
  - eapply Forall_impl; [exact H3|]. intros g Hg. split; [done|by apply ordered_NoDup].
Qed.

(** X10.  The first group returned holds the first group given and every
    other group given that shares a coordinate with it. *)
Theorem combineMatches_first_group
    (first : list coord) (rest : list (list coord)) :
  exists g others,
    combineMatches (first :: rest) = g :: others /\
    first ⊆ g /\
    forall m, m ∈ rest -> (exists c, c ∈ first /\ c ∈ m) -> m ⊆ g.
Proof.
  unfold combineMatches. simpl.
  pose proof (each_couldMatch_pass rest (SortedSet.of_list first)) as P.
  cbn zeta in P.
  destruct (each_couldMatch rest (SortedSet.of_list first)) as [cur unused'].
  simpl in *. destruct P as (P1 & _ & _ & P4 & _).
  eexists _, _. split; [reflexivity|]. split.
  - intros c Hc. by apply P1, elem_of_of_list.
  - intros m Hm (c & Hc & Hcm). apply P4; [done|].
    exists c. split; [by apply elem_of_of_list|done].
Qed.

Lemma pairwise_disjoint_cons first rest :
  pairwise_disjoint (first :: rest) ->
  (forall m, m ∈ rest -> forall c, c ∈ first -> c ∉ m) /\ pairwise_disjoint rest.
Proof.
  intros H. split.
  - intros m (j & Hj)%list_elem_of_lookup c Hc.
    by apply (H 0%nat (S j) first m c).
  - intros i j m1 m2 c Hij H1 H2. apply (H (S i) (S j) m1 m2 c); [lia|done|done].
Qed.

Lemma combineMatches_loop_disjoint n : forall unused,
  (length unused <= n)%nat ->
  pairwise_disjoint unused ->
  combineMatches_loop n unused = map SortedSet.of_list unused.
Proof.
  induction n as [|n IH]; intros unused Hn Hdis.
  - destruct unused; [done|simpl in Hn; lia].
  - destruct unused as [|first rest]; [done|]. simpl in *.
    apply pairwise_disjoint_cons in Hdis as [Hfirst Hrest].
    pose proof (each_couldMatch_pass rest (SortedSet.of_list first)) as P.
    cbn zeta in P. destruct P as (_ & _ & _ & _ & _ & _ & _ & P8).
    rewrite P8.
    + f_equal. apply IH; [lia|done].
    + intros m Hm c Hc. apply Hfirst; [done|].
      exact (proj1 (elem_of_of_list _ _) Hc).
Qed.

(** X11.  Groups that share no coordinate are not merged: when no
    coordinate belongs to two of the groups given, [combineMatches] returns
    each of them, sorted, in the order given. *)
Theorem combineMatches_keeps_disjoint_groups (matches : list (list coord)) :
  pairwise_disjoint matches ->
  combineMatches matches = map SortedSet.of_list matches.
Proof. intros H. by apply combineMatches_loop_disjoint. Qed.

Lemma combineMatches_keeps_disjoint_groups_witness :
  combineMatches [[(0, 0); (0, 1); (0, 2)]; [(2, 2); (1, 2); (3, 2)]]
  = map SortedSet.of_list [[(0, 0); (0, 1); (0, 2)]; [(2, 2); (1, 2); (3, 2)]].
Proof.
  apply combineMatches_keeps_disjoint_groups.
  intros i j m1 m2 c Hij H1 H2 Hc Hc'.
  destruct i as [|[|i]], j as [|[|j]]; try done; simpl in H1, H2;
    simplify_eq;
    repeat (apply elem_of_cons in Hc as [->|Hc]);
    try (by apply elem_of_nil in Hc);
    repeat (apply elem_of_cons in Hc' as [Hc'|Hc']); try discriminate;
    by apply elem_of_nil in Hc'.
Defined.

(** X12.  On a grid of at least 2 x 2, every group that [combineMatches]
    makes of the groups of [findMatches] lies on the grid, holds one and the
    same orb in all its cells, and has at least three coordinates, none
    twice. *)
Theorem merged_groups_hold_one_orb (o : grid) (h w : nat) (raw : list (list coord)) :
  rect o h w -> (2 <= h)%nat -> (2 <= w)%nat ->
  findMatches o = Ok raw ->
  Forall (fun g => uniform o g /\ (3 <= length g)%nat /\ NoDup g) (combineMatches raw).
Proof.
  intros Hrect Hh Hw Hraw.
  destruct (structural_enumeration_runs o h w Hrect Hh Hw) as (ms & Ems & Hruns).
  rewrite Ems in Hraw. injection Hraw as <-.
  assert (Forall (uniform o) ms) as Hall.
  { apply Forall_forall. intros t Ht. by apply Hruns in Ht as [_ ?]. }
  pose proof (combineMatches_loop_uniform o (length ms) ms Hall) as Hu.
  destruct (combineMatches_loop_groups (length ms) ms (le_n _)) as (_ & H2 & H3 & _).
  fold (combineMatches ms) in *.
  apply Forall_forall. intros g Hg.
  pose proof (proj1 (Forall_forall _ _) Hu g Hg) as Hug.
  pose proof (proj1 (Forall_forall _ _) H3 g Hg) as Hog.
  destruct (H2 g Hg) as [(m & Hm & Hsub) _].
  apply Hruns in Hm as [Hal _]. apply aligned_distinct in Hal as [Hlen Hnd].
  split; [done|]. split; [|by apply ordered_NoDup].
  rewrite <- Hlen. apply submseteq_length, NoDup_submseteq; [done|]. exact Hsub.
Qed.

Lemma merged_groups_hold_one_orb_witness :
  Forall (fun g => uniform chain_grid g /\ (3 <= length g)%nat /\ NoDup g)
         (combineMatches
            [[(0, 0); (0, 1); (0, 2)]; [(2, 0); (2, 1); (2, 2)]; [(0, 0); (1, 0); (2, 0)]]).
Proof.
  apply (merged_groups_hold_one_orb chain_grid 3 3).
  - split; [reflexivity|]. repeat constructor.
  - lia.
  - lia.
  - reflexivity.
Defined.

(** ** The match data of [evaluate], and groups it cannot take *)

Lemma in_bounds_transfer o o1 h w p :
  rect o h w -> rect o1 h w -> in_bounds o p = true -> in_bounds o1 p = true.
Proof.
  intros H H1 Hp. destruct p as [r c].
  apply (in_bounds_rect_iff _ h w) in Hp; [|done]. by apply (in_bounds_rect_iff _ h w).
Qed.

Lemma marked_cell o o1 h w P r c v :
  rect o h w -> rect o1 h w ->
  (forall c, column o1 c = imap (mark_fn P c) (column o c)) ->
  cell o r c = Some v ->
  cell o1 r c
  = Some (if bool_decide ((Z.of_nat r, Z.of_nat c) ∈ P) then Cleared else v).
Proof.
  intros Hrect Hrect1 Hcol Hv.
  destruct (cell_bounds _ _ _ _ _ _ Hrect Hv) as [Hr Hc].
  destruct (rect_cell _ _ _ r c Hrect1 Hr Hc) as [x Hx]. rewrite Hx. f_equal.
  pose proof (cell_column _ _ _ _ Hx) as E.
  rewrite Hcol, list_lookup_imap, (cell_column _ _ _ _ Hv) in E.
  simpl in E. by injection E as <-.
Qed.

Lemma mark_groups_events h w (o : grid) matches :
  rect o h w ->
  forall pre o1 events,
    rect o1 h w ->
    (forall c, column o1 c = imap (mark_fn (concat pre) c) (column o c)) ->
    Forall (fun m => m <> [] /\ Forall (fun c => in_bounds o c = true) m) matches ->
    exists events' o',
      each matches mark_match (events, o1) = Ok (events ++ events', o') /\
      length events' = length matches /\
      forall k m r c v,
        matches !! k = Some m -> head m = Some (r, c) -> orb_at o r c = Ok v ->
        events' !! k
        = Some (if bool_decide ((r, c) ∈ concat (pre ++ take k matches))
                then Cleared else v, length m).
Proof.
  intros Hrect. induction matches as [|m matches IH]; intros pre o1 events Hrect1 Hcol Hin.
  - exists [], o1. simpl. rewrite app_nil_r. split; [done|]. split; [done|].
    intros k m r c v Hk. by rewrite lookup_nil in Hk.
  - apply Forall_cons in Hin as [[Hne H0] Hin].
    destruct m as [|[r0 c0] m']; [done|].
    pose proof (Forall_inv H0) as Hfirst.
    destruct (in_bounds_rect _ h w _ _ Hrect Hfirst) as (r1 & c1 & -> & -> & Hr1 & Hc1).
    destruct (rect_cell _ _ _ r1 c1 Hrect Hr1 Hc1) as [v0 Hv0].
    pose proof (marked_cell _ _ _ _ _ _ _ _ Hrect Hrect1 Hcol Hv0) as Hx.
    cbn [each]. unfold mark_match at 1.
    rewrite (orb_at_cell _ _ _ _ Hx). cbn [bind].
    destruct (mark_coords h w ((Z.of_nat r1, Z.of_nat c1) :: m') o1 Hrect1)
      as (o2 & -> & Hrect2 & Hcol2).
    { eapply Forall_impl; [exact H0|]. intros p Hp.
      exact (in_bounds_transfer _ _ h w p Hrect Hrect1 Hp). }
    cbn [bind].
    destruct (IH (pre ++ [(Z.of_nat r1, Z.of_nat c1) :: m']) o2
                 (events ++ [(if bool_decide ((Z.of_nat r1, Z.of_nat c1) ∈ concat pre)
                              then Cleared else v0,
                              length ((Z.of_nat r1, Z.of_nat c1) :: m'))])
                 Hrect2) as (events' & o' & E & Hlen & Hev); [|done|].
    { intros c. rewrite Hcol2, Hcol, imap_mark_app.
      by rewrite concat_app, (concat_cons _ []), concat_nil, app_nil_r. }
    eexists (_ :: events'), o'. split.
    { rewrite E. by rewrite <- app_assoc. }
    split; [simpl; by rewrite Hlen|].
    intros k m r c v Hk Hhead Hv. destruct k as [|k]; simpl in Hk.
    + injection Hk as <-. simpl in Hhead. injection Hhead as <- <-.
      rewrite (orb_at_cell _ _ _ _ Hv0) in Hv. injection Hv as <-.
      simpl. by rewrite app_nil_r.
    + change ((?x :: events') !! S k) with (events' !! k).
      rewrite (Hev k m r c v Hk Hhead Hv). cbn [take].
      by rewrite <- app_assoc.
Qed.

(** X13.  On a board whose grid has [height] rows of [width] orbs and for
    groups that are non-empty and in bounds, [evaluate] returns one entry of
    match data per group, in the order of the groups: the size of the group,
    and the orb that the grid held at the first coordinate of the group, or
    the cleared sentinel when that coordinate belongs to an earlier group. *)
Theorem evaluate_logs_each_group
    (b : Board) (matches : list (list coord)) (dropOptions : option (list orb))
    (g g' : Rand) (events : list (orb * nat)) (b' : Board) :
  wf_board b ->
  Forall (fun m => m <> [] /\ Forall (fun c => in_bounds (orbs b) c = true) m) matches ->
  evaluate b (Some matches) dropOptions g = Ok (events, b', g') ->
  length events = length matches /\
  forall k m r c v,
    matches !! k = Some m -> head m = Some (r, c) -> orb_at (orbs b) r c = Ok v ->
    events !! k
    = Some (if bool_decide ((r, c) ∈ concat (take k matches)) then Cleared else v,
            length m).
Proof.
  intros Hwf Hin. destruct (wf_board_nat _ Hwf) as (h & w & Eh & Ew & Hrect).
  unfold evaluate. change (default [] (Some matches)) with matches.
  destruct (mark_groups_events h w (orbs b) matches Hrect [] (orbs b) [] Hrect)
    as (events' & om & E & Hlen & Hev); [|done|].
  { intros c. simpl. by rewrite imap_mark_nil. }
  rewrite E. cbn [bind fst snd app].
  destruct (sweep b _ (om, g)) as [[o' g2]| |]; cbn [bind]; try discriminate.
  intros [= <- _ _]. split; [done|]. exact Hev.
Qed.

Lemma evaluate_logs_each_group_witness :
  length [(Tok 2, 3%nat); (Cleared, 2%nat)] = length [[(0, 2); (1, 2); (2, 2)]; [(1, 2); (1, 3)]]
  /\ forall k m r c v,
    [[(0, 2); (1, 2); (2, 2)]; [(1, 2); (1, 3)]] !! k = Some m ->
    head m = Some (r, c) -> orb_at (orbs column_run_board) r c = Ok v ->
    [(Tok 2, 3%nat); (Cleared, 2%nat)] !! k
    = Some (if bool_decide ((r, c) ∈ concat (take k [[(0, 2); (1, 2); (2, 2)]; [(1, 2); (1, 3)]]))
            then Cleared else v, length m).
Proof.
  apply (evaluate_logs_each_group column_run_board
           [[(0, 2); (1, 2); (2, 2)]; [(1, 2); (1, 3)]] None (replay [0; 1; 2; 3]%nat)
           (mkRand (tape (replay [0; 1; 2; 3]%nat)) 4) _
           (with_orbs column_run_board
              [[Tok 0; Tok 1; Tok 3; Tok 2]; [Tok 1; Tok 0; Tok 1; Tok 3];
               [Tok 3; Tok 1; Tok 0; Tok 1]; [Tok 0; Tok 3; Tok 1; Tok 2]])).
  - unfold wf_board. simpl. repeat split; try lia. repeat constructor.
  - repeat constructor; done.
  - vm_compute. reflexivity.
Defined.

Lemma set_orb_length o r c v o' : set_orb o r c v = Ok o' -> length o' = length o.
Proof.
  unfold set_orb. destruct (js_get o r); [|discriminate].
  intros [= <-]. by rewrite length_insert.
Qed.

Lemma set_orb_row_off_grid o r c v :
  r < 0 \/ Z.of_nat (length o) <= r -> set_orb o r c v = TypeError.
Proof.
  intros Hr. unfold set_orb, js_get. destruct (Z.ltb_spec r 0); [done|].
  by rewrite (proj2 (lookup_ge_None o (Z.to_nat r))) by lia.
Qed.

Lemma mark_each_outcome m : forall o,
  match each m (fun o coord => set_orb o coord.1 coord.2 Cleared) o with
  | Ok o' =>
      length o' = length o /\
      Forall (fun p : coord => 0 <= p.1 < Z.of_nat (length o)) m
  | TypeError => True
  | OutOfFuel => False
  end.
Proof.
  induction m as [|p m IH]; intros o; simpl; [by split|].
  destruct (set_orb o p.1 p.2 Cleared) as [o1| |] eqn:E; cbn [bind]; try done.
  - pose proof (set_orb_length _ _ _ _ _ E) as Hl. specialize (IH o1).
    destruct (each m _ o1) as [o'| |]; try done.
    destruct IH as [Hl' Hall]. rewrite Hl in *. split; [done|].
    constructor; [|done].
    destruct (decide (0 <= p.1 < Z.of_nat (length o))) as [|Hn]; [done|].
    rewrite set_orb_row_off_grid in E by lia. discriminate.
  - unfold set_orb in E. destruct (js_get o p.1); discriminate.
Qed.

Lemma mark_match_outcome st m :
  match mark_match st m with
  | Ok st' =>
      length st'.2 = length st.2 /\ m <> [] /\
      Forall (fun p : coord => 0 <= p.1 < Z.of_nat (length st.2)) m
  | TypeError => True
  | OutOfFuel => False
  end.
Proof.
  destruct st as [ev o]. unfold mark_match. destruct m as [|[r0 c0] m']; [done|].
  destruct (orb_at o r0 c0) as [t| |] eqn:Et; cbn [bind]; try done.
  2:{ unfold orb_at in Et. destruct (js_get o r0); discriminate. }
  pose proof (mark_each_outcome ((r0, c0) :: m') o) as H.
  destruct (each ((r0, c0) :: m') _ o) as [o'| |]; cbn [bind]; try done.
  simpl. destruct H as [Hl Hall]. done.
Qed.

Lemma mark_groups_outcome matches : forall st,
  match each matches mark_match st with
  | Ok st' =>
      Forall (fun m => m <> [] /\
                Forall (fun p : coord => 0 <= p.1 < Z.of_nat (length st.2)) m) matches
  | TypeError => True
  | OutOfFuel => False
  end.
Proof.
  induction matches as [|m matches IH]; intros st; simpl; [done|].
  pose proof (mark_match_outcome st m) as Hm.
  destruct (mark_match st m) as [st1| |]; cbn [bind]; try done.
  destruct Hm as (Hl & Hne & Hall). specialize (IH st1).
  destruct (each matches mark_match st1) as [st'| |]; try done.
  rewrite Hl in IH. by constructor.
Qed.

(** X14.  [evaluate] throws a [TypeError] when one of the groups is empty
    or has a coordinate whose row is no row of the grid, whatever the other
    groups are. *)
Theorem evaluate_malformed_group_throws
    (b : Board) (matches : list (list coord)) (dropOptions : option (list orb))
    (g : Rand) (m : list coord) :
  m ∈ matches ->
  m = [] \/ (exists p, p ∈ m /\ (p.1 < 0 \/ Z.of_nat (length (orbs b)) <= p.1)) ->
  evaluate b (Some matches) dropOptions g = TypeError.
Proof.
  intros Hm Hbad. unfold evaluate. change (default [] (Some matches)) with matches.
  pose proof (mark_groups_outcome matches ([], orbs b)) as H.
  destruct (each matches mark_match ([], orbs b)) as [st| |]; cbn [bind]; try done.
  exfalso. eapply Forall_forall in H; [|exact Hm]. destruct H as [Hne Hall].
  destruct Hbad as [->|(p & Hp & Hoff)]; [done|].
  eapply Forall_forall in Hall; [|exact Hp]. simpl in Hall. lia.
Qed.

Lemma evaluate_malformed_group_throws_witness :
  evaluate column_run_board (Some [[(0, 2); (1, 2); (2, 2)]; []]) None (replay []) = TypeError
  /\ evaluate column_run_board (Some [[(3, 2); (4, 2)]]) None (replay []) = TypeError.
Proof.
  split.
  - apply (evaluate_malformed_group_throws _ _ _ _ []).
    + right. left.
    + by left.
  - apply (evaluate_malformed_group_throws _ _ _ _ [(3, 2); (4, 2)]).
    + left.
    + right. exists (4, 2). split; [right; left|]. simpl. lia.
Defined.

(** ** What [_unmatch], [unmatch] and [shuffle] do to the orbs *)

Lemma random_pick_differs fuel b match_ thisOrb : forall g p g',
  random_pick fuel b match_ thisOrb g = Ok (p, g') ->
  exists v, orb_at (orbs b) p.1 p.2 = Ok v /\ v <> thisOrb.
Proof.
  induction fuel as [|fuel IH]; intros g p g'; simpl; [discriminate|].
  destruct (Lodash.random (height b - 1) g) as [randomRow g1].
  destruct (Lodash.random (width b - 1) g1) as [randomCol g2].
  destruct (orb_at (orbs b) randomRow randomCol) as [v| |] eqn:E; simpl; try discriminate.
  destruct (bool_decide (v <> thisOrb)) eqn:Hd; [|apply IH].
  intros [= <- <-]. exists v. split; [done|]. by apply bool_decide_eq_true in Hd.
Qed.

Lemma try_directions_exchange b h w row col thisOrb directions b' :
  rect (orbs b) h w ->
  in_bounds (orbs b) (row, col) = true ->
  try_directions b row col thisOrb directions = Ok (Some b') ->
  exists q v,
    q ∈ [(row - 1, col); (row + 1, col); (row, col - 1); (row, col + 1)] /\
    in_bounds (orbs b) q = true /\
    orb_at (orbs b) q.1 q.2 = Ok v /\ v <> thisOrb /\
    swap b ((row, col), q) false = Ok b'.
Proof.
  intros Hrect Hin. pose proof Hin as [Hr Hc]%(in_bounds_rect_iff _ h w); [|done].
  induction directions as [|d rest IH]; cbn [try_directions]; [discriminate|].
  set (goal := exists (q : coord) v,
         q ∈ [(row - 1, col); (row + 1, col); (row, col - 1); (row, col + 1)] /\
         in_bounds (orbs b) q = true /\
         orb_at (orbs b) q.1 q.2 = Ok v /\ v <> thisOrb /\
         swap b ((row, col), q) false = Ok b') in *.
  assert (forall nrow ncol (valid : bool),
            (nrow, ncol) ∈ [(row - 1, col); (row + 1, col); (row, col - 1); (row, col + 1)] ->
            (valid = true ->
             in_bounds (orbs b) (nrow, ncol) = true /\
             exists v, orb_at (orbs b) nrow ncol = Ok v /\ v <> thisOrb) ->
            (if valid
             then b1 <-- swap b ((row, col), (nrow, ncol)) false ;; Ok (Some b1)
             else try_directions b row col thisOrb rest) = Ok (Some b') ->
            goal) as Hstep.
  { intros nrow ncol [|] Hnb Hvalid; [|apply IH].
    destruct (swap b (row, col, (nrow, ncol)) false) as [b1| |] eqn:E; simpl; try discriminate.
    intros [= <-]. destruct (Hvalid eq_refl) as (Hb & v & Hv & Hne).
    exists (nrow, ncol), v. done. }
  assert (forall nrow,
            match js_get (orbs b) nrow with
            | Some r0 => Ok (bool_decide (default Undefined (js_get r0 col) <> thisOrb))
            | None => Ok false
            end = Ok true ->
            in_bounds (orbs b) (nrow, col) = true /\
            exists v, orb_at (orbs b) nrow col = Ok v /\ v <> thisOrb) as Hvert.
  { intros nrow Hv. split.
    - revert Hv. unfold js_get at 1.
      destruct (Z.ltb_spec nrow 0); [discriminate|].
      destruct (orbs b !! Z.to_nat nrow) eqn:E; [|discriminate]. intros _.
      apply (in_bounds_rect_iff _ h w); [done|].
      apply lookup_lt_Some in E. destruct Hrect as [Hl _]. lia.
    - unfold orb_at. destruct (js_get (orbs b) nrow) as [r0|]; [|discriminate].
      eexists. split; [reflexivity|]. injection Hv as Hv.
      by apply bool_decide_eq_true in Hv. }
  assert (forall ncol,
            (v <-- orb_at (orbs b) row ncol ;;
             Ok (bool_decide (v <> Undefined) && bool_decide (v <> thisOrb))) = Ok true ->
            in_bounds (orbs b) (row, ncol) = true /\
            exists v, orb_at (orbs b) row ncol = Ok v /\ v <> thisOrb) as Hhor.
  { intros ncol Hv. split.
    - revert Hv. unfold orb_at, in_bounds. simpl.
      destruct (js_get (orbs b) row) as [rw|]; [|discriminate]. simpl.
      unfold js_get. destruct (Z.ltb_spec ncol 0); simpl.
      + try (rewrite bool_decide_eq_false_2 by tauto); discriminate.
      + destruct (rw !! Z.to_nat ncol) eqn:E; simpl.
        * intros _. apply lookup_lt_Some in E.
          apply andb_true_iff; split; [apply Z.leb_le | apply Z.ltb_lt]; lia.
        * try (rewrite bool_decide_eq_false_2 by tauto); discriminate.
    - destruct (orb_at (orbs b) row ncol) as [v| |]; cbn [bind] in Hv; try discriminate.
      exists v. split; [done|]. injection Hv as Hv.
      apply andb_true_iff in Hv as [_ Hv]. by apply bool_decide_eq_true in Hv. }
  destruct d.
  - destruct (js_get (orbs b) (row - 1)) eqn:E; cbn [bind].
    + apply Hstep; [apply list_elem_of_In; simpl; tauto|]. intros Hv. apply Hvert. rewrite E. by rewrite Hv.
    + apply IH.
  - destruct (js_get (orbs b) (row + 1)) eqn:E; cbn [bind].
    + apply Hstep; [apply list_elem_of_In; simpl; tauto|]. intros Hv. apply Hvert. rewrite E. by rewrite Hv.
    + apply IH.
  - destruct (orb_at (orbs b) row (col - 1)) as [v| |] eqn:E; cbn [bind]; try discriminate.
    apply Hstep; [apply list_elem_of_In; simpl; tauto|]. intros Hv. apply Hhor. rewrite E. cbn [bind]. by rewrite Hv.
  - destruct (orb_at (orbs b) row (col + 1)) as [v| |] eqn:E; cbn [bind]; try discriminate.
    apply Hstep; [apply list_elem_of_In; simpl; tauto|]. intros Hv. apply Hhor. rewrite E. cbn [bind]. by rewrite Hv.
Qed.

Lemma _unmatch_exchange fuel b h w row col match_ skip g r :
  rect (orbs b) h w -> height b = Z.of_nat h -> width b = Z.of_nat w ->
  in_bounds (orbs b) (row, col) = true ->
  _unmatch fuel b row col match_ skip g = Ok r ->
  exists thisOrb q v,
    orb_at (orbs b) row col = Ok thisOrb /\
    in_bounds (orbs b) q = true /\
    orb_at (orbs b) q.1 q.2 = Ok v /\ v <> thisOrb /\
    swap b ((row, col), q) false = Ok r.1.
Proof.
  intros Hrect Eh Ew Hin. unfold _unmatch.
  pose proof Hin as [Hr Hc]%(in_bounds_rect_iff _ h w); [|done].
  destruct (orb_at (orbs b) row col) as [thisOrb| |]; cbn [bind]; try discriminate.
  destruct (Lodash.shuffle [up; down; left; right] g) as [directions g1].
  destruct (if skip then Ok None else try_directions b row col thisOrb directions)
    as [[b'|]| |] eqn:Et; cbn [bind]; try discriminate.
  - intros [= <-]. cbn [fst]. destruct skip; [discriminate|].
    destruct (try_directions_exchange _ h w _ _ _ _ _ Hrect Hin Et)
      as (q & v & _ & Hq & Hv & Hne & Hs).
    by exists thisOrb, q, v.
  - destruct (random_pick fuel b match_ thisOrb g1) as [[p g2]| |] eqn:Ep; cbn [bind];
      try discriminate.
    cbn [fst snd].
    destruct (swap b (row, col, p) false) as [b'| |] eqn:Es; cbn [bind]; try discriminate.
    intros [= <-]. cbn [fst].
    destruct (random_pick_differs _ _ _ _ _ _ _ Ep) as (v & Hv & Hne).
    apply random_pick_in_range in Ep as [Hp1 Hp2]; [|lia|lia].
    exists thisOrb, p, v. repeat split; try done.
    destruct p as [pr pc]. apply (in_bounds_rect_iff _ h w); [done|]. simpl in *. lia.
Qed.

Lemma exchange_cells b c1 c2 v1 v2 b' :
  in_bounds (orbs b) c1 = true -> in_bounds (orbs b) c2 = true ->
  orb_at (orbs b) c1.1 c1.2 = Ok v1 -> orb_at (orbs b) c2.1 c2.2 = Ok v2 ->
  v1 <> v2 ->
  swap b (c1, c2) false = Ok b' ->
  (exists o', b' = with_orbs b o') /\
  orb_at (orbs b') c1.1 c1.2 = Ok v2 /\
  orb_at (orbs b') c2.1 c2.2 = Ok v1 /\
  concat (orbs b') ≡ₚ concat (orbs b).
Proof.
  intros (r1 & k1 & x1 & -> & H1)%in_bounds_nat (r2 & k2 & x2 & -> & H2)%in_bounds_nat.
  cbn [fst snd]. rewrite (orb_at_cell _ _ _ _ H1), (orb_at_cell _ _ _ _ H2).
  intros [= ->] [= ->] Hne.
  destruct (swap_cells b r1 k1 r2 k2 v1 v2 H1 H2) as (E & _). rewrite E.
  intros [= <-]. cbn [orbs with_orbs]. split; [eauto|].
  split; [|split].
  - apply orb_at_cell. rewrite !cell_set_cell.
    rewrite decide_False by (intros [-> ->]; congruence).
    rewrite decide_True by done. by rewrite H1.
  - apply orb_at_cell. rewrite !cell_set_cell. rewrite decide_True by done.
    destruct (decide (r2 = r1 /\ k2 = k1)) as [[-> ->]|]; [|by rewrite H2].
    congruence.
  - by apply swap_cells_perm.
Qed.

(** X15.  On a board whose grid has [height] rows of [width] orbs, when
    [_unmatch] returns for a cell of the grid it has exchanged that cell with
    one other cell of the grid that held a different orb: the targeted cell
    holds another orb than before, the other cell holds the orb that was
    targeted, and the grid holds the same orbs as before, each as often. *)
Theorem _unmatch_exchanges_target
    (fuel : nat) (b : Board) (h w : nat) (row col : Z) (match_ : list coord)
    (skipToRandom : bool) (g : Rand) (r : Board * Rand) (thisOrb : orb) :
  rect (orbs b) h w -> height b = Z.of_nat h -> width b = Z.of_nat w ->
  in_bounds (orbs b) (row, col) = true ->
  orb_at (orbs b) row col = Ok thisOrb ->
  _unmatch fuel b row col match_ skipToRandom g = Ok r ->
  exists q v,
    in_bounds (orbs b) q = true /\
    orb_at (orbs b) q.1 q.2 = Ok v /\ v <> thisOrb /\
    swap b ((row, col), q) false = Ok r.1 /\
    orb_at (orbs r.1) row col = Ok v /\
    orb_at (orbs r.1) q.1 q.2 = Ok thisOrb /\
    concat (orbs r.1) ≡ₚ concat (orbs b).
Proof.
  intros Hrect Eh Ew Hin Horb Hu.
  destruct (_unmatch_exchange _ _ h w _ _ _ _ _ _ Hrect Eh Ew Hin Hu)
    as (t & q & v & Ht & Hq & Hv & Hne & Hs).
  assert (t = thisOrb) as -> by congruence.
  destruct (exchange_cells b (row, col) q thisOrb v r.1 Hin Hq Horb Hv
              ltac:(congruence) Hs) as (_ & G1 & G2 & Hperm).
  exists q, v. done.
Qed.

Lemma _unmatch_exchanges_target_witness :
  exists q v,
    in_bounds (orbs stacked_board) q = true /\
    orb_at (orbs stacked_board) q.1 q.2 = Ok v /\ v <> Tok 0 /\
    swap stacked_board ((0, 1), q) false
    = Ok stacked_board_unmatched.1 /\
    orb_at (orbs stacked_board_unmatched.1) 0 1 = Ok v /\
    orb_at (orbs stacked_board_unmatched.1) q.1 q.2 = Ok (Tok 0) /\
    concat (orbs stacked_board_unmatched.1) ≡ₚ concat (orbs stacked_board).
Proof.
  apply (_unmatch_exchanges_target 5 stacked_board 4 4 0 1 [(0, 0); (0, 1); (0, 2)]
           true (replay [0; 0; 0; 0; 1; 1]%nat)).
  - split; [reflexivity|]. repeat constructor.
  - reflexivity.
  - reflexivity.
  - reflexivity.
  - reflexivity.
  - vm_compute. reflexivity.
Defined.

Lemma shuffle_from_perm n : forall i (l : list orb) g,
  (Lodash.shuffle_from n i l g).1 ≡ₚ l.
Proof.
  induction n as [|n IH]; intros i l g; cbn [Lodash.shuffle_from]; [done|].
  destruct (Lodash.baseRandom (Z.of_nat i) (Z.of_nat (length l) - 1) g) as [r g'].
  rewrite IH.
  destruct (l !! Z.to_nat r) as [vr|] eqn:Er; [|done].
  destruct (l !! i) as [vi|] eqn:Ei; [|done].
  apply (Permutation_cons_inv (a := vi)).
  rewrite (insert_swap_perm (<[Z.to_nat r := vi]> l) i vi vr).
  - by apply insert_swap_perm.
  - destruct (decide (i = Z.to_nat r)) as [->|Hne].
    + rewrite list_lookup_insert_eq; [done|]. by eapply lookup_lt_Some.
    + by rewrite list_lookup_insert_ne.
Qed.

Lemma shuffle_rows_perm rows : forall g, concat (shuffle_rows rows g).1 ≡ₚ concat rows.
Proof.
  induction rows as [|row rows IH]; intros g; simpl; [done|].
  pose proof (shuffle_from_perm (length row) 0 row g) as Hp.
  unfold Lodash.shuffle. destruct (Lodash.shuffle_from _ _ row g) as [row' g1].
  specialize (IH g1). destruct (shuffle_rows rows g1) as [rest g2].
  simpl in *. by rewrite Hp, IH.
Qed.

Lemma unmatch_perm fuel h w :
  (2 <= h)%nat -> (2 <= w)%nat ->
  forall b g r,
    rect (orbs b) h w -> height b = Z.of_nat h -> width b = Z.of_nat w ->
    unmatch fuel b g = Ok r ->
    types r.1 = types b /\ concat (orbs r.1) ≡ₚ concat (orbs b).
Proof.
  intros Hh Hw. induction fuel as [|fuel IH]; intros b g r Hrect Eh Ew; simpl;
    [discriminate|].
  destruct (hasMatch b) as [[|]| |]; simpl; try discriminate.
  2:{ by intros [= <-]. }
  destruct (findTriples (orbs b)) as [triples| |] eqn:Htr; simpl; try discriminate.
  destruct (head (combineMatches triples)) as [match_|] eqn:Hhead; try discriminate.
  destruct (unmatch_target b match_ g) as [[[target skip] g1]| |] eqn:Htarget; simpl;
    try discriminate.
  destruct (unmatch_target_group b h w _ _ _ _ _ _ Hrect Hh Hw Htr Hhead Htarget)
    as [[v Hv] Hin].
  assert (in_bounds (orbs b) (target.1, target.2) = true /\
          orb_at (orbs b) target.1 target.2 = Ok v) as [Hb Hov].
  { eapply Forall_forall in Hv; [|exact Hin]. destruct target; simpl. tauto. }
  destruct (_unmatch fuel b target.1 target.2 match_ skip g1) as [r1| |] eqn:Eu; simpl;
    try discriminate.
  destruct (_unmatch_keeps_rect _ _ h w _ _ _ _ _ _ Hrect Eh Ew Hb Eu) as (R1 & H1 & W1).
  destruct (_unmatch_exchange _ _ h w _ _ _ _ _ _ Hrect Eh Ew Hb Eu)
    as (t & q & x & Ht & Hq & Hx & Hne & Hs).
  destruct (exchange_cells b (target.1, target.2) q t x r1.1 Hb Hq Ht Hx
              ltac:(congruence) Hs) as ((o' & Eo) & _ & _ & Hperm).
  intros Hrec. destruct (IH r1.1 r1.2 r R1 ltac:(congruence) ltac:(congruence) Hrec)
    as [Ety Hp].
  split.
  - rewrite Ety, Eo. done.
  - by rewrite Hp.
Qed.

Lemma shuffle_perm fuel h w :
  (2 <= h)%nat -> (2 <= w)%nat ->
  forall b g r,
    rect (orbs b) h w -> height b = Z.of_nat h -> width b = Z.of_nat w ->
    shuffle fuel b g = Ok r ->
    types r.1 = types b /\ concat (orbs r.1) ≡ₚ concat (orbs b).
Proof.
  intros Hh Hw. induction fuel as [|fuel IH]; intros b g r Hrect Eh Ew; simpl;
    [discriminate|].
  pose proof (shuffle_rows_rect _ _ _ g Hrect) as Hs.
  pose proof (shuffle_rows_perm (orbs b) g) as Hsp.
  destruct (shuffle_rows (orbs b) g) as [shuffled g1]. simpl in Hs, Hsp.
  destruct (unmatch fuel (with_orbs b shuffled) g1) as [r1| |] eqn:Eu; simpl;
    try discriminate.
  destruct (unmatch_keeps_rect fuel h w Hh Hw (with_orbs b shuffled) g1 r1 Hs Eh Ew Eu)
    as (R1 & H1 & W1).
  destruct (unmatch_perm fuel h w Hh Hw (with_orbs b shuffled) g1 r1 Hs Eh Ew Eu)
    as [Ety Hp]. simpl in Ety, Hp.
  destruct (needsShuffle r1.1) as [[|]| |]; simpl; try discriminate.
  - intros Hrec. destruct (IH _ _ _ R1 H1 W1 Hrec) as [Ety' Hp'].
    split; [congruence|]. by rewrite Hp', Hp.
  - intros [= <-]. split; [done|]. by rewrite Hp.
Qed.

(** X16.  On a board whose grid has [height] rows of [width] orbs, both at
    least 2, the boards that [unmatch] and [shuffle] return have a grid of
    the same shape that holds the same orbs as before, each as often: orbs
    change places, none is made or lost. *)
Theorem shuffle_keeps_the_orbs
    (fuel : nat) (b : Board) (h w : nat) (g : Rand) (r : Board * Rand) :
  (2 <= h)%nat -> (2 <= w)%nat ->
  rect (orbs b) h w -> height b = Z.of_nat h -> width b = Z.of_nat w ->
  unmatch fuel b g = Ok r \/ shuffle fuel b g = Ok r ->
  rect (orbs r.1) h w /\
  height r.1 = height b /\ width r.1 = width b /\ types r.1 = types b /\
  concat (orbs r.1) ≡ₚ concat (orbs b).
Proof.
  intros Hh Hw Hrect Eh Ew [Hu|Hs].
  - destruct (unmatch_keeps_rect fuel h w Hh Hw b g r Hrect Eh Ew Hu) as (R & H & W).
    destruct (unmatch_perm fuel h w Hh Hw b g r Hrect Eh Ew Hu) as [T P].
    repeat split; try done; try congruence; apply R.
  - destruct (shuffle_keeps_rect fuel h w Hh Hw b g r Hrect Eh Ew Hs) as (R & H & W).
    destruct (shuffle_perm fuel h w Hh Hw b g r Hrect Eh Ew Hs) as [T P].
    repeat split; try done; try congruence; apply R.
Qed.

Lemma shuffle_keeps_the_orbs_witness :
  rect (orbs reshuffled_board) 4 4 /\
  height reshuffled_board = height stacked_board /\
  width reshuffled_board = width stacked_board /\
  types reshuffled_board = types stacked_board /\
  concat (orbs reshuffled_board) ≡ₚ concat (orbs stacked_board).
Proof.
  apply (shuffle_keeps_the_orbs 20 stacked_board 4 4 (replay repair_draws)
           (reshuffled_board, mkRand (tape (replay repair_draws)) 22)).
  - lia.
  - lia.
  - split; [reflexivity|]. repeat constructor.
  - reflexivity.
  - reflexivity.
  - right. vm_compute. reflexivity.
Defined.

(** ** The two tests of the wide scan *)

Lemma elem_of_uniq_gen {A} `{EqDecision A} (x : A) l : x ∈ Lodash.uniq l <-> x ∈ l.
Proof.
  induction l as [|y l IH]; [done|]. cbn [Lodash.uniq].
  rewrite !elem_of_cons, list_elem_of_filter, IH.
  destruct (decide (x = y)); tauto.
Qed.

Lemma NoDup_uniq {A} `{EqDecision A} (l : list A) : NoDup (Lodash.uniq l).
Proof.
  induction l as [|y l IH]; cbn [Lodash.uniq]; constructor.
  - rewrite list_elem_of_filter. tauto.
  - by apply NoDup_filter.
Qed.

Lemma sort_insert_perm a l : sort_insert a l ≡ₚ a :: l.
Proof.
  induction l as [|b l IH]; simpl; [done|].
  destruct (index_le a b); [done|]. by rewrite IH, perm_swap.
Qed.

Lemma js_sort_perm l : js_sort l ≡ₚ l.
Proof.
  unfold js_sort. induction l as [|a l IH]; simpl; [done|].
  by rewrite sort_insert_perm, IH.
Qed.

Lemma hasMatchInSingleRow_iff row :
  hasMatchInSingleRow row = true <-> exists v, (3 <= Lodash.count v row)%nat.
Proof.
  unfold hasMatchInSingleRow. rewrite Nat.ltb_lt. split.
  - intros Hmax.
    destruct (decide (map (fun v => Lodash.count v row) (Lodash.uniq row) = []))
      as [E|Hne]; [rewrite E in Hmax; simpl in Hmax; lia|].
    apply max_list_elem_of in Hne.
    apply list_elem_of_fmap in Hne as (v & E & _). exists v. lia.
  - intros (v & Hv).
    assert (v ∈ row) as Hin.
    { unfold Lodash.count in Hv. destruct (filter _ row) as [|x l] eqn:E; [simpl in Hv; lia|].
      assert (x ∈ filter (fun y => y = v) row) as Hx by (rewrite E; left).
      by apply list_elem_of_filter in Hx as [-> ?]. }
    assert (Lodash.count v row ∈ map (fun v => Lodash.count v row) (Lodash.uniq row)) as Hc.
    { apply list_elem_of_fmap. exists v. split; [done|]. by apply elem_of_uniq_gen. }
    apply max_list_elem_of_le in Hc. lia.
Qed.

Lemma pair_indices row0 row1 v i :
  i ∈ js_sort (Lodash.uniq (indexOfAll (Some row0) v ++ indexOfAll (Some row1) v))
  <-> row0 !! i = Some v \/ row1 !! i = Some v.
Proof.
  rewrite js_sort_perm, elem_of_uniq_gen, elem_of_app. unfold indexOfAll. simpl.
  destruct (indexOfAll_from_spec row0 v 0) as [H0 _].
  destruct (indexOfAll_from_spec row1 v 0) as [H1 _].
  rewrite H0, H1, !Nat.sub_0_r. split.
  - intros [[_ ?]|[_ ?]]; tauto.
  - intros [?|?]; [left|right]; (split; [lia|done]).
Qed.

Lemma sort_pattern l pat :
  pat ∈ [[0; 1; 2]; [1; 2; 3]; [0; 1; 2; 3]]%nat ->
  NoDup l -> (forall i, i ∈ l <-> i ∈ pat) ->
  js_sort l = pat.
Proof.
  intros Hpat Hnd Hiff.
  assert (NoDup pat) as Hndp.
  { repeat (apply elem_of_cons in Hpat as [->|Hpat]); try (by apply elem_of_nil in Hpat);
      apply NoDup_ListNoDup; repeat constructor; simpl; intuition lia. }
  assert (l ∈ permutations pat) as Hl.
  { apply permutations_Permutation. symmetry. by apply NoDup_Permutation. }
  clear Hnd Hiff Hndp.
  repeat (apply elem_of_cons in Hpat as [->|Hpat]); try (by apply elem_of_nil in Hpat);
    vm_compute in Hl;
    repeat (apply elem_of_cons in Hl as [->|Hl]); try (by apply elem_of_nil in Hl);
    reflexivity.
Qed.

Lemma pair_of_rows_pattern (row0 row1 : list orb) :
  hasMatchInPairOfRows [row0; row1] = true <->
  exists v pat,
    pat ∈ [[0; 1; 2]; [1; 2; 3]; [0; 1; 2; 3]]%nat /\
    forall i, (row0 !! i = Some v \/ row1 !! i = Some v) <-> i ∈ pat.
Proof.
  unfold hasMatchInPairOfRows. cbn [lookup list_lookup].
  rewrite existsb_exists. split.
  - intros (m & Hm & Htest).
    apply in_map_iff in Hm as (v & <- & _).
    exists v. eexists. split.
    2:{ intros i. symmetry. apply pair_indices. }
    apply orb_true_iff in Htest as [Htest|Htest];
      [apply orb_true_iff in Htest as [Htest|Htest]|];
      apply bool_decide_eq_true in Htest; rewrite Htest;
      apply list_elem_of_In; simpl; tauto.
  - intros (v & pat & Hpat & Hiff).
    exists pat. split.
    + apply in_map_iff. exists v. split.
      * apply sort_pattern; [done|apply NoDup_uniq|].
        intros i. rewrite <- Hiff. rewrite <- pair_indices.
        by rewrite js_sort_perm.
      * apply list_elem_of_In, elem_of_uniq_gen. simpl. rewrite app_nil_r.
        assert (1%nat ∈ pat) as H1.
        { repeat (apply elem_of_cons in Hpat as [->|Hpat]);
            try (by apply elem_of_nil in Hpat); apply list_elem_of_In; simpl; tauto. }
        apply Hiff in H1 as [H1|H1]; apply list_elem_of_lookup_2 in H1;
          apply elem_of_app; tauto.
    + repeat (apply elem_of_cons in Hpat as [->|Hpat]);
        try (by apply elem_of_nil in Hpat); reflexivity.
Qed.

(** X17.  [hasMatchInPairOfRows] on a pair of rows is true exactly when,
    for some orb, the columns at which the orb occurs in one row or the
    other are exactly 0, 1, 2, or exactly 1, 2, 3, or exactly 0, 1, 2, 3. *)
Theorem hasMatchInPairOfRows_iff (row0 row1 : list orb) :
  hasMatchInPairOfRows [row0; row1] = true <->
  exists v pat,
    pat ∈ [[0; 1; 2]; [1; 2; 3]; [0; 1; 2; 3]]%nat /\
    forall i, (row0 !! i = Some v \/ row1 !! i = Some v) <-> i ∈ pat.
Proof. apply pair_of_rows_pattern. Qed.

(** ** What construction puts on the board *)

Lemma zip_elements (o : grid) h w (P : orb -> Prop) :
  rect o h w -> (0 < h)%nat ->
  Forall (Forall P) o -> Forall (Forall P) (Lodash.zip o).
Proof.
  intros Hrect Hh HP. apply Forall_forall. intros col Hcol.
  unfold Lodash.zip in Hcol. apply list_elem_of_fmap in Hcol as (c & -> & Hc).
  apply elem_of_seq in Hc as [_ Hc]. rewrite (rect_max_length _ _ _ Hrect Hh) in Hc.
  apply Forall_forall. intros v (row & -> & Hrow)%list_elem_of_fmap.
  pose proof (proj1 (Forall_forall _ _) HP row Hrow) as HProw.
  destruct Hrect as [_ Hrows].
  pose proof (proj1 (Forall_forall _ _) Hrows row Hrow) as Hlen. simpl in Hlen.
  destruct (lookup_lt_is_Some_2 row c ltac:(lia)) as [x Hx]. rewrite Hx. simpl.
  eapply Forall_forall in HProw; [exact HProw|]. by eapply list_elem_of_lookup_2.
Qed.

Lemma sampled_board_types n ts g :
  (1 <= n)%nat -> ts <> [] ->
  types (sampled_board (Z.of_nat n) (Z.of_nat n) ts g).1 = ts /\
  Forall (Forall (fun v => v ∈ ts)) (orbs (sampled_board (Z.of_nat n) (Z.of_nat n) ts g).1).
Proof.
  intros Hn Hts. unfold sampled_board. rewrite Nat2Z.id.
  set (chooseOrb := fun g0 : Rand =>
         let '(o, g') := Lodash.sample ts g0 in (default Undefined o, g')).
  assert (forall g0, (chooseOrb g0).1 ∈ ts) as Hchoose.
  { intros g0. unfold chooseOrb. pose proof (sample_refill ts g0) as Hr.
    destruct (Lodash.sample ts g0) as [s g']. simpl in *.
    unfold refill in Hr. by destruct ts. }
  pose proof (times_length n (Lodash.times n chooseOrb) g) as Hl.
  pose proof (times_Forall (fun row : list orb => length row = n) n
                (Lodash.times n chooseOrb) g
                (fun g0 => times_length n chooseOrb g0)) as Hrows.
  pose proof (times_Forall (Forall (fun v => v ∈ ts)) n
                (Lodash.times n chooseOrb) g
                (fun g0 => times_Forall _ n chooseOrb g0 Hchoose)) as Hel.
  destruct (Lodash.times n (Lodash.times n chooseOrb) g) as [rows g1].
  simpl in *. split; [done|].
  apply (zip_elements rows n n); [by split|lia|done].
Qed.

(** X18.  A board that construction returns for a width and a height that
    are equal (and at least 2) and for types that are not empty has [height]
    rows of [width] orbs, keeps the three arguments, and holds only orbs of
    [types]. *)
Theorem constructed_board_holds_types
    (fuel n : nat) (ts : list orb) (g : Rand) (r : Board * Rand) :
  (2 <= n)%nat -> ts <> [] ->
  Board_new fuel (Z.of_nat n) (Z.of_nat n) ts g = Ok r ->
  width r.1 = Z.of_nat n /\ height r.1 = Z.of_nat n /\ types r.1 = ts /\
  rect (orbs r.1) n n /\
  Forall (fun v => v ∈ ts) (concat (orbs r.1)).
Proof.
  intros Hn Hts. unfold Board_new.
  destruct (sampled_board_square n ts g ltac:(lia)) as (Hrect & Eh & Ew).
  destruct (sampled_board_types n ts g ltac:(lia) Hts) as (Ety & Hel).
  destruct (sampled_board (Z.of_nat n) (Z.of_nat n) ts g) as [b g1]. simpl in *.
  assert (Forall (fun v => v ∈ ts) (concat (orbs b))) as Hall.
  { apply Forall_concat. exact Hel. }
  assert (forall r, shuffle fuel b g1 = Ok r ->
            width r.1 = Z.of_nat n /\ height r.1 = Z.of_nat n /\ types r.1 = ts /\
            rect (orbs r.1) n n /\ Forall (fun v => v ∈ ts) (concat (orbs r.1))) as Hsh.
  { intros r' Hs.
    destruct (shuffle_keeps_rect fuel n n Hn Hn b g1 r' Hrect Eh Ew Hs) as (R & H & W).
    destruct (shuffle_perm fuel n n Hn Hn b g1 r' Hrect Eh Ew Hs) as [T P].
    repeat split; try done; try congruence; try apply R. by rewrite P. }
  destruct (hasMatch b) as [[|]| |]; simpl; try discriminate.
  - apply Hsh.
  - destruct (needsShuffle b) as [[|]| |]; simpl; try discriminate.
    + apply Hsh.
    + intros [= <-]. simpl. repeat split; try done; apply Hrect.
Qed.

Lemma constructed_board_holds_types_witness :
  width repaired_board = Z.of_nat 4 /\ height repaired_board = Z.of_nat 4 /\
  types repaired_board = map Tok [0; 1; 2] /\
  rect (orbs repaired_board) 4 4 /\
  Forall (fun v => v ∈ map Tok [0; 1; 2]) (concat (orbs repaired_board)).
Proof.
  apply (constructed_board_holds_types 20 4 (map Tok [0; 1; 2]) (replay repair_draws)
           (repaired_board, mkRand (tape (replay repair_draws)) 38)).
  - lia.
  - done.
  - vm_compute. reflexivity.
Defined.

(** ** Squares below 4 x 4 are never handed out *)

Lemma count_le_length (v : orb) row : (Lodash.count v row <= length row)%nat.
Proof. unfold Lodash.count. apply length_filter. Qed.

Lemma short_row_no_match row :
  (length row <= 2)%nat -> hasMatchInSingleRow row = false.
Proof.
  intros Hl. apply not_true_is_false. intros (v & Hv)%hasMatchInSingleRow_iff.
  pose proof (count_le_length v row). lia.
Qed.

Lemma short_pair_no_match row0 row1 :
  (length row0 <= 2)%nat -> (length row1 <= 2)%nat ->
  hasMatchInPairOfRows [row0; row1] = false.
Proof.
  intros H0 H1. apply not_true_is_false.
  intros (v & pat & Hpat & Hiff)%pair_of_rows_pattern.
  assert (2%nat ∈ pat) as H2.
  { repeat (apply elem_of_cons in Hpat as [->|Hpat]);
      try (by apply elem_of_nil in Hpat); apply list_elem_of_In; simpl; tauto. }
  apply Hiff in H2 as [H2|H2]; apply lookup_lt_Some in H2; lia.
Qed.

Lemma needsShuffle_2x2 b : rect (orbs b) 2 2 -> needsShuffle b = Ok true.
Proof.
  intros [Hl Hrows]. unfold needsShuffle, hasPotentialMatch, iterchunks.
  destruct (orbs b) as [|[|a [|a' [|? ?]]] [|[|c [|c' [|? ?]]] [|? ?]]];
    try discriminate;
    try (apply Forall_cons in Hrows as [H1 Hrows]; apply Forall_cons in Hrows as [H2 _];
         simpl in *; discriminate).
  change (_iterchunks [[a; a']; [c; c']] (4, 2) false false)
    with (Ok [mkChunk [[a; a']; [c; c']] None]).
  change (_iterchunks (Lodash.zip [[a; a']; [c; c']]) (4, 2) false true)
    with (Ok [mkChunk [[a; c]; [a'; c']] None]).
  cbn [bind app flat_map chunk_rows existsb].
  unfold hasPotentialMatchInSingleRow, hasPotentialMatchInPairOfRows.
  rewrite !short_row_no_match, !short_pair_no_match by (simpl; lia). done.
Qed.

Lemma shuffle_deadlocked_never_returns (n : nat) fuel :
  (2 <= n)%nat ->
  (forall b, rect (orbs b) n n -> needsShuffle b = Ok true) ->
  forall b g r,
    rect (orbs b) n n -> height b = Z.of_nat n -> width b = Z.of_nat n ->
    shuffle fuel b g <> Ok r.
Proof.
  intros Hn Hdead.
  induction fuel as [|fuel IH]; intros b g r Hrect Eh Ew; simpl; [discriminate|].
  pose proof (shuffle_rows_rect _ _ _ g Hrect) as Hs.
  destruct (shuffle_rows (orbs b) g) as [shuffled g1]. simpl in Hs.
  destruct (unmatch fuel (with_orbs b shuffled) g1) as [r1| |] eqn:Eu; simpl;
    try discriminate.
  destruct (unmatch_keeps_rect fuel n n Hn Hn
              (with_orbs b shuffled) g1 r1 Hs Eh Ew Eu) as (R1 & H1 & W1).
  rewrite (Hdead _ R1). simpl. by apply IH.
Qed.

Lemma Board_new_deadlocked_never_returns (n : nat) fuel ts g r :
  (2 <= n)%nat ->
  (forall b, rect (orbs b) n n -> needsShuffle b = Ok true) ->
  Board_new fuel (Z.of_nat n) (Z.of_nat n) ts g <> Ok r.
Proof.
  intros Hn Hdead. unfold Board_new.
  destruct (sampled_board_square n ts g ltac:(lia)) as (Hrect & Eh & Ew).
  destruct (sampled_board (Z.of_nat n) (Z.of_nat n) ts g) as [b g1]. simpl in *.
  destruct (hasMatch b) as [[|]| |]; simpl; try discriminate.
  - by apply (shuffle_deadlocked_never_returns n).
  - rewrite (Hdead _ Hrect). simpl. by apply (shuffle_deadlocked_never_returns n).
Qed.

(** The board of a single cell: its neighbours are [undefined], and the
    random fallback of [_unmatch] can only draw the cell itself. *)
Lemma try_directions_1x1 ts x directions :
  try_directions (mkBoard 1 1 ts [[x]]) 0 0 x directions = Ok None.
Proof.
  induction directions as [|d rest IH]; [done|].
  destruct d; cbn [try_directions]; cbv beta iota.
  - change (js_get (orbs (mkBoard 1 1 ts [[x]])) (0 - 1)) with (@None (list orb)).
    cbn [bind]. exact IH.
  - change (js_get (orbs (mkBoard 1 1 ts [[x]])) (0 + 1)) with (@None (list orb)).
    cbn [bind]. exact IH.
  - change (orb_at (orbs (mkBoard 1 1 ts [[x]])) 0 (0 - 1)) with (Ok Undefined).
    cbn [bind]. rewrite (bool_decide_eq_false_2 (Undefined <> Undefined)) by tauto.
    exact IH.
  - change (orb_at (orbs (mkBoard 1 1 ts [[x]])) 0 (0 + 1)) with (Ok Undefined).
    cbn [bind]. rewrite (bool_decide_eq_false_2 (Undefined <> Undefined)) by tauto.
    exact IH.
Qed.

Lemma random_0 g : (Lodash.random 0 g).1 = 0.
Proof.
  unfold Lodash.random, Lodash.baseRandom, draw. simpl. by rewrite Z.mod_1_r.
Qed.

Lemma random_pick_1x1 ts x match_ fuel : forall g,
  random_pick fuel (mkBoard 1 1 ts [[x]]) match_ x g = OutOfFuel.
Proof.
  induction fuel as [|fuel IH]; intros g; [done|]. cbn [random_pick height width].
  change (1 - 1) with 0.
  pose proof (random_0 g) as H1. destruct (Lodash.random 0 g) as [randomRow g1].
  pose proof (random_0 g1) as H2. destruct (Lodash.random 0 g1) as [randomCol g2].
  simpl in H1, H2. subst. cbn [negb includes_literal].
  change (orb_at (orbs (mkBoard 1 1 ts [[x]])) 0 0) with (Ok x). cbn [bind].
  rewrite (bool_decide_eq_false_2 (x <> x)) by tauto. apply IH.
Qed.

Lemma _unmatch_1x1 ts x match_ fuel g :
  _unmatch fuel (mkBoard 1 1 ts [[x]]) 0 0 match_ false g = OutOfFuel.
Proof.
  unfold _unmatch. change (orb_at (orbs (mkBoard 1 1 ts [[x]])) 0 0) with (Ok x).
  cbn [bind]. destruct (Lodash.shuffle [up; down; left; right] g) as [directions g1].
  rewrite try_directions_1x1. cbn [bind]. by rewrite random_pick_1x1.
Qed.

Lemma unmatch_1x1 ts x fuel g :
  unmatch fuel (mkBoard 1 1 ts [[x]]) g = OutOfFuel.
Proof.
  destruct fuel as [|fuel]; [done|]. cbn [unmatch].
  change (hasMatch (mkBoard 1 1 ts [[x]])) with (Ok true). cbn [bind].
  change (findTriples (orbs (mkBoard 1 1 ts [[x]])))
    with (Ok [[(0, 0); (0, 1); (0, 2)]; [(0, 0); (1, 0); (2, 0)]]). cbn [bind].
  change (head (combineMatches [[(0, 0); (0, 1); (0, 2)]; [(0, 0); (1, 0); (2, 0)]]))
    with (Some [(0, 0); (0, 1); (0, 2); (1, 0); (2, 0)]). cbv beta iota.
  assert (exists g1, unmatch_target (mkBoard 1 1 ts [[x]])
                       [(0, 0); (0, 1); (0, 2); (1, 0); (2, 0)] g
                     = Ok ((0, 0), false, g1)) as [g1 ->].
  { unfold unmatch_target.
    change (bool_decide _ || bool_decide _) with false. cbv beta iota zeta.
    change (filter _ [(0, 0); (0, 1); (0, 2); (1, 0); (2, 0)]) with [(0, 0)].
    unfold Lodash.sample, Lodash.baseRandom, draw. simpl. rewrite Z.mod_1_r. simpl.
    eauto. }
  cbn [bind fst snd]. by rewrite _unmatch_1x1.
Qed.

Lemma shuffle_rows_1x1 (x : orb) g : (shuffle_rows [[x]] g).1 = [[x]].
Proof.
  unfold shuffle_rows, Lodash.shuffle, Lodash.shuffle_from, Lodash.baseRandom, draw.
  simpl. by rewrite Z.mod_1_r.
Qed.

Lemma Board_new_1x1 fuel ts g : Board_new fuel 1 1 ts g = OutOfFuel.
Proof.
  unfold Board_new, sampled_board. change (Z.to_nat 1) with 1%nat.
  cbn [Lodash.times].
  destruct (Lodash.sample ts g) as [s g1]. cbv beta iota zeta.
  change (Lodash.zip [[default Undefined s]]) with [[default Undefined s]].
  set (x := default Undefined s).
  change (hasMatch (mkBoard 1 1 ts [[x]])) with (Ok true). cbn [bind].
  destruct fuel as [|fuel]; [done|]. cbn [shuffle orbs].
  pose proof (shuffle_rows_1x1 x g1) as Hs.
  destruct (shuffle_rows [[x]] g1) as [shuffled g2]. simpl in Hs. subst shuffled.
  change (with_orbs (mkBoard 1 1 ts [[x]]) [[x]]) with (mkBoard 1 1 ts [[x]]).
  by rewrite unmatch_1x1.
Qed.

Lemma Board_new_0x0 fuel ts g : Board_new fuel 0 0 ts g = TypeError.
Proof. reflexivity. Qed.

(** X19.  For a width and a height that are equal and below 4,
    construction returns no board, whatever the types and the draws: with
    0 it throws a [TypeError], and with 1, 2 or 3 it throws or never
    finishes ([needsShuffle()] is true on every grid of 2 x 2 and of 3 x 3,
    so that [shuffle] calls itself without end, and on the grid of one cell
    the random fallback of [_unmatch] has no other cell to draw). *)
Theorem small_square_board_is_never_returned
    (fuel n : nat) (ts : list orb) (g : Rand) :
  (n < 4)%nat ->
  Board_new fuel (Z.of_nat n) (Z.of_nat n) ts g = TypeError \/
  Board_new fuel (Z.of_nat n) (Z.of_nat n) ts g = OutOfFuel.
Proof.
  intros Hn.
  destruct n as [|[|[|[|n]]]]; [| | | |lia].
  - left. apply Board_new_0x0.
  - right. apply Board_new_1x1.
  - pose proof (fun r => Board_new_deadlocked_never_returns 2 fuel ts g r
                  ltac:(lia) needsShuffle_2x2) as H.
    destruct (Board_new fuel (Z.of_nat 2) (Z.of_nat 2) ts g) as [r| |]; [|by left|by right].
    by destruct (H r).
  - pose proof (fun r => Board_new_deadlocked_never_returns 3 fuel ts g r
                  ltac:(lia) needsShuffle_3x3) as H.
    destruct (Board_new fuel (Z.of_nat 3) (Z.of_nat 3) ts g) as [r| |]; [|by left|by right].
    by destruct (H r).
Qed.

Lemma small_square_board_is_never_returned_witness :
  Board_new 50 (Z.of_nat 2) (Z.of_nat 2) (map Tok [0; 1; 2]) (replay repair_draws)
  = TypeError \/
  Board_new 50 (Z.of_nat 2) (Z.of_nat 2) (map Tok [0; 1; 2]) (replay repair_draws)
  = OutOfFuel.
Proof.
  apply small_square_board_is_never_returned. lia.
Defined.

(** ** The orb that [unmatch] targets *)

Lemma count_super (f : coord -> Z) (x : Z) (t l : list coord) :
  NoDup t -> t ⊆ l -> Forall (fun c => f c = x) t ->
  (length t <= Lodash.count x (map f l))%nat.
Proof.
  intros Hnd Hsub Hall.
  apply NoDup_submseteq in Hsub; [|done].
  apply submseteq_Permutation in Hsub as [k Hk].
  unfold Lodash.count. change (map f l) with (f <$> l).
  rewrite Hk, fmap_app, filter_app, length_app.
  assert (filter (fun y => y = x) (f <$> t) = f <$> t) as ->.
  { clear Hnd Hk. induction Hall as [|c t Hc _ IH]; [done|]. rewrite fmap_cons.
    rewrite filter_cons_True by done. by rewrite IH. }
  rewrite length_fmap. lia.
Qed.

Lemma count_mono (f : coord -> Z) (x : Z) (l1 l2 : list coord) :
  NoDup l1 -> l1 ⊆ l2 ->
  (Lodash.count x (map f l1) <= Lodash.count x (map f l2))%nat.
Proof.
  intros Hnd Hsub.
  apply NoDup_submseteq in Hsub; [|done].
  apply submseteq_Permutation in Hsub as [k Hk].
  unfold Lodash.count. change (map f ?l) with (f <$> l).
  rewrite Hk, fmap_app, filter_app, length_app. lia.
Qed.

Lemma aligned_cases t :
  aligned t ->
  (exists r c, t = [(r, c); (r, c + 1); (r, c + 2)]) \/
  (exists r c, t = [(r, c); (r + 1, c); (r + 2, c)]).
Proof. intros (r & c & [->| ->]); [left|right]; eauto. Qed.

Lemma union_shape cur m :
  aligned m -> merged_shape cur -> SortedSet.intersection cur m <> [] ->
  merged_shape (SortedSet.union cur m).
Proof.
  intros Hal (Hord & Hruns & Hne & Hshape) Hmeet.
  assert (exists p, p ∈ cur /\ p ∈ m) as (p & Hpc & Hpm).
  { destruct (SortedSet.intersection cur m) as [|p l] eqn:E; [done|].
    assert (p ∈ SortedSet.intersection cur m) as Hp by (rewrite E; left).
    apply list_elem_of_filter in Hp as [? ?]. eauto. }
  assert (cur ⊆ SortedSet.union cur m) as Hsubc.
  { intros c Hc. apply elem_of_union. by left. }
  assert (m ⊆ SortedSet.union cur m) as Hsubm.
  { intros c Hc. apply elem_of_union. by right. }
  pose proof (aligned_distinct _ Hal) as [Hlenm Hndm].
  split; [by apply ordered_union|]. split; [|split].
  - intros c [Hc|Hc]%elem_of_union.
    + destruct (Hruns c Hc) as (t & Ht & Hct & Hsub). exists t.
      split; [done|]. split; [done|]. by etrans.
    + exists m. done.
  - intros E. rewrite E in Hsubc. destruct cur as [|c cur]; [done|].
    by apply (elem_of_nil c), Hsubc; left.
  - assert (forall q, q ∈ cur -> in_one_row cur ->
              (3 <= Lodash.count q.1 (map fst (SortedSet.union cur m)))%nat) as Hrowc.
    { intros q Hq Hrow. destruct (Hruns q Hq) as (t & Ht & Hqt & Hsub).
      apply aligned_distinct in Ht as [Hlen Hnd]. rewrite <- Hlen.
      apply count_super; [done|by etrans|].
      apply Forall_forall. intros c Hc. apply Hrow; [by apply Hsub|done]. }
    assert (forall q, q ∈ cur -> in_one_column cur ->
              (3 <= Lodash.count q.2 (map snd (SortedSet.union cur m)))%nat) as Hcolc.
    { intros q Hq Hcol. destruct (Hruns q Hq) as (t & Ht & Hqt & Hsub).
      apply aligned_distinct in Ht as [Hlen Hnd]. rewrite <- Hlen.
      apply count_super; [done|by etrans|].
      apply Forall_forall. intros c Hc. apply Hcol; [by apply Hsub|done]. }
    destruct Hshape as [Hrow|[Hcol|(q & Hq & Hq1 & Hq2)]].
    + destruct (aligned_cases _ Hal) as [(r & c & ->)|(r & c & ->)].
      * left. intros c1 c2 [H1|H1]%elem_of_union [H2|H2]%elem_of_union.
        -- by apply Hrow.
        -- rewrite (Hrow c1 p H1 Hpc).
           repeat (apply elem_of_cons in Hpm as [->|Hpm]);
             try (by apply elem_of_nil in Hpm);
             repeat (apply elem_of_cons in H2 as [->|H2]);
             try (by apply elem_of_nil in H2); done.
        -- rewrite <- (Hrow p c2 Hpc H2).
           repeat (apply elem_of_cons in Hpm as [->|Hpm]);
             try (by apply elem_of_nil in Hpm);
             repeat (apply elem_of_cons in H1 as [->|H1]);
             try (by apply elem_of_nil in H1); done.
        -- repeat (apply elem_of_cons in H1 as [->|H1]);
             try (by apply elem_of_nil in H1);
             repeat (apply elem_of_cons in H2 as [->|H2]);
             try (by apply elem_of_nil in H2); done.
      * right. right. exists p. split; [by apply Hsubc|]. split; [by apply Hrowc|].
        rewrite <- Hlenm. apply count_super; [done|done|].
        apply Forall_forall. intros c1 H1.
        repeat (apply elem_of_cons in Hpm as [->|Hpm]);
          try (by apply elem_of_nil in Hpm);
          repeat (apply elem_of_cons in H1 as [->|H1]);
          try (by apply elem_of_nil in H1); done.
    + destruct (aligned_cases _ Hal) as [(r & c & ->)|(r & c & ->)].
      * right. right. exists p. split; [by apply Hsubc|]. split; [|by apply Hcolc].
        rewrite <- Hlenm. apply count_super; [done|done|].
        apply Forall_forall. intros c1 H1.
        repeat (apply elem_of_cons in Hpm as [->|Hpm]);
          try (by apply elem_of_nil in Hpm);
          repeat (apply elem_of_cons in H1 as [->|H1]);
          try (by apply elem_of_nil in H1); done.
      * right. left. intros c1 c2 [H1|H1]%elem_of_union [H2|H2]%elem_of_union.
        -- by apply Hcol.
        -- rewrite (Hcol c1 p H1 Hpc).
           repeat (apply elem_of_cons in Hpm as [->|Hpm]);
             try (by apply elem_of_nil in Hpm);
             repeat (apply elem_of_cons in H2 as [->|H2]);
             try (by apply elem_of_nil in H2); done.
        -- rewrite <- (Hcol p c2 Hpc H2).
           repeat (apply elem_of_cons in Hpm as [->|Hpm]);
             try (by apply elem_of_nil in Hpm);
             repeat (apply elem_of_cons in H1 as [->|H1]);
             try (by apply elem_of_nil in H1); done.
        -- repeat (apply elem_of_cons in H1 as [->|H1]);
             try (by apply elem_of_nil in H1);
             repeat (apply elem_of_cons in H2 as [->|H2]);
             try (by apply elem_of_nil in H2); done.
    + right. right. exists q. split; [by apply Hsubc|].
      pose proof (ordered_NoDup _ Hord) as Hnd.
      pose proof (count_mono fst q.1 _ _ Hnd Hsubc).
      pose proof (count_mono snd q.2 _ _ Hnd Hsubc). split; lia.
Qed.

Lemma each_couldMatch_shape couldMatch : forall cur,
  Forall aligned couldMatch -> merged_shape cur ->
  merged_shape (each_couldMatch couldMatch cur).1.
Proof.
  induction couldMatch as [|m rest IH]; intros cur Hall Hcur; simpl; [done|].
  apply Forall_cons in Hall as [Hm Hrest].
  destruct (SortedSet.intersection cur m) as [|c0 cs] eqn:E.
  - specialize (IH cur Hrest Hcur).
    by destruct (each_couldMatch rest cur) as [cur' unused].
  - apply IH; [done|]. apply union_shape; [done|done|]. by rewrite E.
Qed.

Lemma seed_shape first : aligned first -> merged_shape (SortedSet.of_list first).
Proof.
  intros Hal. split; [apply ordered_of_list|]. split; [|split].
  - intros c Hc. exists first. split; [done|]. split.
    + exact (proj1 (elem_of_of_list _ _) Hc).
    + intros x Hx. by apply elem_of_of_list.
  - intros E. destruct Hal as (r & c & [->| ->]);
      assert ((r, c) ∈ SortedSet.of_list _) as H
        by (apply elem_of_of_list; left);
      rewrite E in H; by apply elem_of_nil in H.
  - destruct (aligned_cases _ Hal) as [(r & c & ->)|(r & c & ->)].
    + left. intros c1 c2 H1 H2.
      apply (proj1 (elem_of_of_list _ _)) in H1, H2.
      repeat (apply elem_of_cons in H1 as [->|H1]); try (by apply elem_of_nil in H1);
        repeat (apply elem_of_cons in H2 as [->|H2]); try (by apply elem_of_nil in H2);
        done.
    + right. left. intros c1 c2 H1 H2.
      apply (proj1 (elem_of_of_list _ _)) in H1, H2.
      repeat (apply elem_of_cons in H1 as [->|H1]); try (by apply elem_of_nil in H1);
        repeat (apply elem_of_cons in H2 as [->|H2]); try (by apply elem_of_nil in H2);
        done.
Qed.

Lemma first_group_shape triples match_ :
  Forall aligned triples ->
  head (combineMatches triples) = Some match_ ->
  merged_shape match_.
Proof.
  intros Hall. unfold combineMatches.
  destruct triples as [|first rest]; [discriminate|]. simpl.
  apply Forall_cons in Hall as [Hfirst Hrest].
  pose proof (each_couldMatch_shape rest _ Hrest (seed_shape _ Hfirst)) as H.
  destruct (each_couldMatch rest (SortedSet.of_list first)) as [cur unused].
  simpl. by intros [= <-].
Qed.

Lemma uniq_length_1 (l : list Z) :
  length (Lodash.uniq l) = 1%nat <-> l <> [] /\ forall x y, x ∈ l -> y ∈ l -> x = y.
Proof.
  destruct l as [|a l]; [simpl; split; [done|by intros [? _]]|].
  cbn [Lodash.uniq length]. split.
  - intros Hlen. split; [done|].
    assert (forall y, y ∈ l -> y = a) as Hall.
    { intros y Hy. destruct (decide (y = a)) as [|Hne]; [done|].
      assert (y ∈ filter (fun y => y <> a) (Lodash.uniq l)) as Hin.
      { apply list_elem_of_filter. split; [done|]. by apply elem_of_uniq_gen. }
      destruct (filter _ (Lodash.uniq l)); [by apply elem_of_nil in Hin|simpl in Hlen; lia]. }
    intros x y [->|Hx]%elem_of_cons [->|Hy]%elem_of_cons; try done.
    + symmetry. by apply Hall.
    + by apply Hall.
    + rewrite (Hall x Hx). symmetry. by apply Hall.
  - intros [_ Hall].
    destruct (filter (fun y => y <> a) (Lodash.uniq l)) as [|y k] eqn:E; [done|].
    assert (y ∈ filter (fun y => y <> a) (Lodash.uniq l)) as Hin by (rewrite E; left).
    apply list_elem_of_filter in Hin as [Hne Hin].
    apply (proj1 (elem_of_uniq_gen _ _)) in Hin.
    destruct Hne. apply Hall; [by right|by left].
Qed.

Lemma one_row_iff (g : list coord) :
  length (Lodash.uniq (map fst g)) = 1%nat <-> g <> [] /\ in_one_row g.
Proof.
  rewrite uniq_length_1. unfold in_one_row. split.
  - intros [Hne Hall]. split; [by destruct g|].
    intros c c' Hc Hc'. apply Hall; by apply list_elem_of_fmap_2.
  - intros [Hne Hall]. split; [by destruct g|].
    intros x y (c & -> & Hc)%list_elem_of_fmap (c' & -> & Hc')%list_elem_of_fmap.
    by apply Hall.
Qed.

Lemma one_column_iff (g : list coord) :
  length (Lodash.uniq (map snd g)) = 1%nat <-> g <> [] /\ in_one_column g.
Proof.
  rewrite uniq_length_1. unfold in_one_column. split.
  - intros [Hne Hall]. split; [by destruct g|].
    intros c c' Hc Hc'. apply Hall; by apply list_elem_of_fmap_2.
  - intros [Hne Hall]. split; [by destruct g|].
    intros x y (c & -> & Hc)%list_elem_of_fmap (c' & -> & Hc')%list_elem_of_fmap.
    by apply Hall.
Qed.

Lemma ordered_lookup g i j a c :
  ordered g -> (i < j)%nat -> g !! i = Some a -> g !! j = Some c ->
  SortedSet.lt a c = true.
Proof.
  intros Hord Hij Hi Hj. unfold ordered in Hord.
  rewrite <- (take_drop j g) in Hord.
  eapply (StronglySorted_app_1_elem_of _ _ _ a c Hord).
  - apply elem_of_take. eauto.
  - apply list_elem_of_lookup. exists 0%nat. by rewrite lookup_drop, Nat.add_0_r.
Qed.

Lemma sample_nonempty {A} (l : list A) g :
  l <> [] -> exists x, (Lodash.sample l g).1 = Some x.
Proof.
  intros Hne. unfold Lodash.sample. destruct l as [|a l]; [done|].
  unfold Lodash.baseRandom, draw. cbn [fst snd].
  apply lookup_lt_is_Some_2.
  pose proof (Z.mod_pos_bound (Z.of_nat (tape g (cursor g)))
                (Z.of_nat (length (a :: l)) - 1 - 0 + 1)) as Hb.
  simpl length in *. lia.
Qed.

Lemma elem_of_crowded k l :
  k ∈ crowded l <-> (3 <= Lodash.count k l)%nat.
Proof.
  unfold crowded. rewrite list_elem_of_filter, elem_of_uniq_gen. split.
  - intros [? _]. lia.
  - intros Hc. split; [lia|].
    unfold Lodash.count in Hc. destruct (filter _ l) as [|x k'] eqn:E; [simpl in Hc; lia|].
    assert (x ∈ filter (fun y => y = k) l) as Hx by (rewrite E; left).
    by apply list_elem_of_filter in Hx as [-> ?].
Qed.

Lemma orb_at_in_row o r c c' :
  in_bounds o (r, c) = true -> exists a, orb_at o r c' = Ok a.
Proof.
  unfold in_bounds, orb_at. simpl. destruct (js_get o r); [eauto|discriminate].
Qed.

Lemma merged_shape_size g : merged_shape g -> NoDup g /\ (3 <= length g)%nat.
Proof.
  intros (Hord & Hruns & Hne & _). pose proof (ordered_NoDup _ Hord) as Hnd.
  split; [done|]. destruct g as [|c g]; [done|].
  destruct (Hruns c ltac:(left)) as (t & Ht & _ & Hsub).
  apply aligned_distinct in Ht as [Hlen Hndt]. rewrite <- Hlen.
  by apply submseteq_length, NoDup_submseteq.
Qed.

(** The target and the flag of one turn of [unmatch] on a group that the
    merger has built from runs of the grid. *)
Lemma unmatch_target_of_merged b h w match_ g :
  rect (orbs b) h w -> uniform (orbs b) match_ -> merged_shape match_ ->
  exists target skip g1,
    unmatch_target b match_ g = Ok (target, skip, g1) /\
    (in_one_row match_ \/ in_one_column match_ ->
     skip = true /\ g1 = g /\ match_ !! (length match_ / 2)%nat = Some target) /\
    (~ (in_one_row match_ \/ in_one_column match_) ->
     skip = false /\ crossing match_ target).
Proof.
  intros Hrect [v Hv] Hshape.
  pose proof (merged_shape_size _ Hshape) as [Hnd Hlen].
  destruct Hshape as (Hord & Hruns & Hne & Hshape).
  assert (forall p, p ∈ match_ ->
            in_bounds (orbs b) p = true /\ orb_at (orbs b) p.1 p.2 = Ok v) as Hcell.
  { intros p Hp. by eapply Forall_forall in Hv. }
  unfold unmatch_target.
  destruct (lookup_lt_is_Some_2 match_ (length match_ / 2)%nat) as [[midRow midCol] Hmid].
  { apply Nat.div_lt; lia. }
  pose proof (list_elem_of_lookup_2 _ _ _ Hmid) as Hmidin.
  destruct (Hcell _ Hmidin) as [Hmb Hmv]. simpl in Hmv.
  destruct (Hruns _ Hmidin) as (t & Ht & Hmt & Hsub).
  destruct (bool_decide (length (Lodash.uniq (map fst match_)) = 1%nat)) eqn:ER.
  - (* one row *)
    apply bool_decide_eq_true, one_row_iff in ER as [_ Hrow].
    rewrite ?orb_true_l, ?orb_false_l. cbv beta iota zeta. rewrite Hmid.
    destruct (orb_at_in_row _ _ _ (midCol - 1) Hmb) as [a Ha].
    destruct (orb_at_in_row _ _ _ (midCol + 1) Hmb) as [c Hc].
    rewrite Ha. cbn [bind]. rewrite Hc. cbn [bind]. rewrite Hmv. cbn [bind].
    assert (v ∈ [a; c]) as Hflag.
    { destruct (aligned_cases _ Ht) as [(r & k & ->)|(r & k & ->)].
      - assert ((midRow, midCol - 1) ∈ match_ \/ (midRow, midCol + 1) ∈ match_) as [Hn|Hn].
        { repeat (apply elem_of_cons in Hmt as [Hmt|Hmt]); try (by apply elem_of_nil in Hmt);
            injection Hmt as -> ->.
          - right. apply Hsub. right. left.
          - left. apply Hsub. replace (k + 1 - 1) with k by lia. left.
          - left. apply Hsub. replace (k + 2 - 1) with (k + 1) by lia. right. left. }
        + destruct (Hcell _ Hn) as [_ Hx]. simpl in Hx.
          assert (a = v) as -> by congruence. left.
        + destruct (Hcell _ Hn) as [_ Hx]. simpl in Hx.
          assert (c = v) as -> by congruence. right. left.
      - exfalso.
        assert ((r, k).1 = (r + 1, k).1) as Hbad.
        { apply Hrow; apply Hsub; [left|right; left]. }
        simpl in Hbad. lia. }
    eexists _, _, _. split; [reflexivity|]. split.
    + intros _. split; [by apply bool_decide_eq_true|done].
    + intros Hn. destruct Hn. by left.
  - destruct (bool_decide (length (Lodash.uniq (map snd match_)) = 1%nat)) eqn:EC.
    + (* one column *)
      apply bool_decide_eq_true, one_column_iff in EC as [_ Hcol].
      rewrite ?orb_true_l, ?orb_false_l. cbv beta iota zeta. rewrite Hmid.
      assert (0 <= midRow - 1 /\ midRow + 1 < Z.of_nat h) as [Hup Hdown].
      { destruct (lookup_lt_is_Some_2 match_ (length match_ / 2 - 1)%nat) as [[r1 k1] H1].
        { pose proof (Nat.div_lt (length match_) 2). lia. }
        destruct (lookup_lt_is_Some_2 match_ (length match_ / 2 + 1)%nat) as [[r2 k2] H2].
        { pose proof (Nat.div_mod_eq (length match_) 2).
          pose proof (Nat.mod_upper_bound (length match_) 2). lia. }
        assert (1 <= length match_ / 2)%nat as Hmed.
        { pose proof (Nat.div_mod_eq (length match_) 2).
          pose proof (Nat.mod_upper_bound (length match_) 2). lia. }
        pose proof (ordered_lookup match_ (length match_ / 2 - 1) (length match_ / 2)
                      _ _ Hord ltac:(lia) H1 Hmid) as L1.
        pose proof (ordered_lookup match_ (length match_ / 2) (length match_ / 2 + 1)
                      _ _ Hord ltac:(lia) Hmid H2) as L2.
        pose proof (list_elem_of_lookup_2 _ _ _ H1) as I1.
        pose proof (list_elem_of_lookup_2 _ _ _ H2) as I2.
        pose proof (Hcol _ _ I1 Hmidin) as C1. pose proof (Hcol _ _ I2 Hmidin) as C2.
        simpl in C1, C2. subst k1 k2.
        destruct (Hcell _ I1) as [B1 _]. destruct (Hcell _ I2) as [B2 _].
        apply (in_bounds_rect_iff _ h w) in B1, B2; try done.
        unfold SortedSet.lt in L1, L2. simpl in L1, L2. lia. }
      pose proof Hmb as Hmb'. apply (in_bounds_rect_iff _ h w) in Hmb'; [|done].
      assert (in_bounds (orbs b) (midRow - 1, midCol) = true) as Bu.
      { apply (in_bounds_rect_iff _ h w); [done|]. lia. }
      assert (in_bounds (orbs b) (midRow + 1, midCol) = true) as Bd.
      { apply (in_bounds_rect_iff _ h w); [done|]. lia. }
      destruct (orb_at_in_row _ _ _ midCol Bu) as [a Ha].
      destruct (orb_at_in_row _ _ _ midCol Bd) as [c Hc].
      rewrite Ha. cbn [bind]. rewrite Hc. cbn [bind]. rewrite Hmv. cbn [bind].
      assert (v ∈ [a; c]) as Hflag.
      { destruct (aligned_cases _ Ht) as [(r & k & ->)|(r & k & ->)].
        - exfalso.
          assert ((r, k).2 = (r, k + 1).2) as Hbad.
          { apply Hcol; apply Hsub; [left|right; left]. }
          simpl in Hbad. lia.
        - assert ((midRow - 1, midCol) ∈ match_ \/ (midRow + 1, midCol) ∈ match_) as [Hn|Hn].
          { repeat (apply elem_of_cons in Hmt as [Hmt|Hmt]);
              try (by apply elem_of_nil in Hmt); injection Hmt as -> ->.
            - right. apply Hsub. right. left.
            - left. apply Hsub. replace (r + 1 - 1) with r by lia. left.
            - left. apply Hsub. replace (r + 2 - 1) with (r + 1) by lia. right. left. }
          + destruct (Hcell _ Hn) as [_ Hx]. simpl in Hx.
            assert (a = v) as -> by congruence. left.
          + destruct (Hcell _ Hn) as [_ Hx]. simpl in Hx.
            assert (c = v) as -> by congruence. right. left. }
      eexists _, _, _. split; [reflexivity|]. split.
      * intros _. split; [by apply bool_decide_eq_true|done].
      * intros Hn. destruct Hn. by right.
    + (* neither *)
      apply bool_decide_eq_false in ER, EC.
      assert (~ in_one_row match_) as NR by (intros ?; apply ER, one_row_iff; done).
      assert (~ in_one_column match_) as NC by (intros ?; apply EC, one_column_iff; done).
      destruct Hshape as [?|[?|(p & Hp & Hp1 & Hp2)]]; [done|done|].
      rewrite ?orb_true_l, ?orb_false_l. cbv beta iota zeta.
      set (inter := filter _ match_).
      assert (forall q, q ∈ inter <-> crossing match_ q) as Hinter.
      { intros q. unfold inter, crossing.
        rewrite list_elem_of_filter, !elem_of_crowded. tauto. }
      assert (inter <> []) as Hine.
      { intros E. assert (p ∈ inter) as Hpi by (by apply Hinter).
        rewrite E in Hpi. by apply elem_of_nil in Hpi. }
      destruct (sample_nonempty inter g Hine) as [x Hx].
      pose proof (sample_elem_of inter g x Hx) as Hxin.
      destruct (Lodash.sample inter g) as [picked g1]. simpl in Hx. subst picked.
      eexists _, _, _. split; [reflexivity|]. split.
      * intros [?|?]; done.
      * intros _. split; [done|]. by apply Hinter.
Qed.

Lemma first_group_of_grid (b : Board) (h w : nat) triples match_ :
  rect (orbs b) h w -> (2 <= h)%nat -> (2 <= w)%nat ->
  findTriples (orbs b) = Ok triples ->
  head (combineMatches triples) = Some match_ ->
  uniform (orbs b) match_ /\ merged_shape match_.
Proof.
  intros Hrect Hh Hw Htr Hhead.
  destruct (structural_enumeration_runs (orbs b) h w Hrect Hh Hw)
    as (ms & Ems & Hruns).
  unfold findTriples in Htr. rewrite Ems in Htr. injection Htr as <-.
  assert (Forall (uniform (orbs b)) ms) as Hall.
  { apply Forall_forall. intros t Ht. by apply Hruns in Ht as [_ ?]. }
  assert (Forall aligned ms) as Hal.
  { apply Forall_forall. intros t Ht. by apply Hruns in Ht as [? _]. }
  split; [|by eapply first_group_shape].
  pose proof (combineMatches_loop_uniform (orbs b) (length ms) ms Hall) as Hcomb.
  fold (combineMatches ms) in Hcomb.
  destruct (combineMatches ms) as [|first others]; [discriminate|].
  injection Hhead as ->. by apply Forall_inv in Hcomb.
Qed.

(** X20.  On a grid of at least 2 x 2 with a match, the turn of [unmatch]
    throws nothing while it chooses its target: for the first group of
    [combineMatches(findTriples(orbs))] it finds an orb to hand to
    [_unmatch], and that orb is a cell of the grid and a coordinate of the
    group.  When the group lies neither in one row nor in one column, the
    flag [skipToRandom] is false and the target is an intersection: its row
    and its column hold three coordinates of the group each, at least. *)
Theorem unmatch_target_returns
    (b : Board) (h w : nat) (triples : list (list coord)) (match_ : list coord)
    (g : Rand) :
  rect (orbs b) h w -> (2 <= h)%nat -> (2 <= w)%nat ->
  findTriples (orbs b) = Ok triples ->
  head (combineMatches triples) = Some match_ ->
  exists target skip g1,
    unmatch_target b match_ g = Ok (target, skip, g1) /\
    target ∈ match_ /\ in_bounds (orbs b) target = true /\
    (~ (in_one_row match_ \/ in_one_column match_) ->
     skip = false /\ crossing match_ target).
Proof.
  intros Hrect Hh Hw Htr Hhead.
  destruct (first_group_of_grid b h w _ _ Hrect Hh Hw Htr Hhead) as [Hu Hshape].
  destruct (unmatch_target_of_merged b h w match_ g Hrect Hu Hshape)
    as (target & skip & g1 & E & _ & Hcross).
  exists target, skip, g1. split; [done|].
  pose proof (unmatch_target_elem_of _ _ _ _ _ _ E) as Hin.
  split; [done|]. split; [|done].
  destruct Hu as [v Hv]. eapply Forall_forall in Hv; [|exact Hin]. tauto.
Qed.

Lemma unmatch_target_returns_witness :
  exists target skip g1,
    unmatch_target chain_board [(0, 0); (0, 1); (0, 2); (1, 0); (2, 0)] (replay [])
    = Ok (target, skip, g1) /\
    target ∈ [(0, 0); (0, 1); (0, 2); (1, 0); (2, 0)] /\
    in_bounds (orbs chain_board) target = true /\
    (~ (in_one_row [(0, 0); (0, 1); (0, 2); (1, 0); (2, 0)] \/
        in_one_column [(0, 0); (0, 1); (0, 2); (1, 0); (2, 0)]) ->
     skip = false /\ crossing [(0, 0); (0, 1); (0, 2); (1, 0); (2, 0)] target).
Proof.
  apply (unmatch_target_returns chain_board 3 3
           [[(0, 0); (0, 1); (0, 2)]; [(2, 0); (2, 1); (2, 2)]; [(0, 0); (1, 0); (2, 0)]]).
  - split; [reflexivity|]. repeat constructor.
  - lia.
  - lia.
  - reflexivity.
  - reflexivity.
Defined.

(** X21.  On a grid of at least 2 x 2, when the first group of
    [combineMatches(findTriples(orbs))] lies in one row or in one column,
    [unmatch] targets the median coordinate of the group and always passes
    [skipToRandom = true]: one of the two neighbours of the median along the
    line belongs to the group and holds the same orb.  [_unmatch] then tries
    no neighbour and goes to a random cell. *)
Theorem straight_group_skips_to_random
    (b : Board) (h w : nat) (triples : list (list coord)) (match_ : list coord)
    (g : Rand) :
  rect (orbs b) h w -> (2 <= h)%nat -> (2 <= w)%nat ->
  findTriples (orbs b) = Ok triples ->
  head (combineMatches triples) = Some match_ ->
  in_one_row match_ \/ in_one_column match_ ->
  exists target,
    match_ !! (length match_ / 2)%nat = Some target /\
    unmatch_target b match_ g = Ok (target, true, g).
Proof.
  intros Hrect Hh Hw Htr Hhead Hstraight.
  destruct (first_group_of_grid b h w _ _ Hrect Hh Hw Htr Hhead) as [Hu Hshape].
  destruct (unmatch_target_of_merged b h w match_ g Hrect Hu Hshape)
    as (target & skip & g1 & E & Hs & _).
  destruct (Hs Hstraight) as (-> & -> & Hmid). by exists target.
Qed.

Lemma straight_group_skips_to_random_witness :
  exists target,
    [(0, 2); (1, 2); (2, 2)] !! Nat.div (length [(0, 2); (1, 2); (2, 2)]) 2
    = Some target /\
    unmatch_target column_run_board [(0, 2); (1, 2); (2, 2)] (replay [])
    = Ok (target, true, replay []).
Proof.
  apply (straight_group_skips_to_random column_run_board 4 4 [[(0, 2); (1, 2); (2, 2)]]).
  - split; [reflexivity|]. repeat constructor.
  - lia.
  - lia.
  - reflexivity.
  - reflexivity.
  - right. intros c c' Hc Hc'.
    repeat (apply elem_of_cons in Hc as [->|Hc]); try (by apply elem_of_nil in Hc);
      repeat (apply elem_of_cons in Hc' as [->|Hc']); try (by apply elem_of_nil in Hc');
      done.
Defined.

(** ** [hasPotentialMatch] is exact on grids of at least 4 x 4 *)

Lemma single_row_of_4 a0 a1 a2 a3 :
  hasMatchInSingleRow [a0; a1; a2; a3] = true <->
  exists v, (a0 = v /\ a1 = v /\ a2 = v) \/ (a1 = v /\ a2 = v /\ a3 = v) \/
            (a0 = v /\ a1 = v /\ a3 = v) \/ (a0 = v /\ a2 = v /\ a3 = v).
Proof.
  rewrite hasMatchInSingleRow_iff. unfold Lodash.count. split.
  - intros (v & Hv). exists v. rewrite !filter_cons, filter_nil in Hv.
    repeat case_decide; simpl in Hv; try lia; subst; tauto.
  - intros (v & H). exists v. rewrite !filter_cons, filter_nil.
    repeat case_decide; simpl; try lia; exfalso;
      destruct H as [H|[H|[H|H]]]; destruct_and?; congruence.
Qed.

Lemma pair_of_rows_of_4 a0 a1 a2 a3 b0 b1 b2 b3 :
  hasMatchInPairOfRows [[a0; a1; a2; a3]; [b0; b1; b2; b3]] = true <->
  exists v, (a1 = v \/ b1 = v) /\ (a2 = v \/ b2 = v) /\
            ((a0 = v \/ b0 = v) \/ (a3 = v \/ b3 = v)).
Proof.
  rewrite pair_of_rows_pattern. split.
  - intros (v & pat & Hpat & Hiff). exists v.
    assert (forall i x y, [a0; a1; a2; a3] !! i = Some x -> [b0; b1; b2; b3] !! i = Some y ->
              i ∈ pat -> x = v \/ y = v) as Hat.
    { intros i x y Hx Hy Hi. apply Hiff in Hi. rewrite Hx, Hy in Hi.
      destruct Hi as [[= ->]|[= ->]]; tauto. }
    repeat (apply elem_of_cons in Hpat as [->|Hpat]); try (by apply elem_of_nil in Hpat).
    + split; [|split; [|left]].
      * apply (Hat 1%nat); [done|done|]. apply list_elem_of_In; simpl; tauto.
      * apply (Hat 2%nat); [done|done|]. apply list_elem_of_In; simpl; tauto.
      * apply (Hat 0%nat); [done|done|]. apply list_elem_of_In; simpl; tauto.
    + split; [|split; [|right]].
      * apply (Hat 1%nat); [done|done|]. apply list_elem_of_In; simpl; tauto.
      * apply (Hat 2%nat); [done|done|]. apply list_elem_of_In; simpl; tauto.
      * apply (Hat 3%nat); [done|done|]. apply list_elem_of_In; simpl; tauto.
    + split; [|split; [|left]].
      * apply (Hat 1%nat); [done|done|]. apply list_elem_of_In; simpl; tauto.
      * apply (Hat 2%nat); [done|done|]. apply list_elem_of_In; simpl; tauto.
      * apply (Hat 0%nat); [done|done|]. apply list_elem_of_In; simpl; tauto.
  - intros (v & H1 & H2 & H03). exists v.
    assert (forall pat : list nat,
              (forall i, (i < 4)%nat ->
                 ([a0; a1; a2; a3] !! i = Some v \/ [b0; b1; b2; b3] !! i = Some v) <-> i ∈ pat) ->
              (forall i, i ∈ pat -> (i < 4)%nat) ->
              forall i, ([a0; a1; a2; a3] !! i = Some v \/ [b0; b1; b2; b3] !! i = Some v)
                        <-> i ∈ pat) as Hext.
    { intros pat Hin Hlt i. destruct (decide (i < 4)%nat) as [Hi|Hi]; [by apply Hin|].
      split.
      - intros [H|H]; apply lookup_lt_Some in H; simpl in H; lia.
      - intros H. apply Hlt in H. lia. }
    destruct (decide (a0 = v \/ b0 = v)) as [H0|H0], (decide (a3 = v \/ b3 = v)) as [H3|H3].
    + exists [0; 1; 2; 3]%nat. split; [apply list_elem_of_In; simpl; tauto|].
      apply Hext.
      * intros i Hi. destruct i as [|[|[|[|i]]]]; [| | | |lia]; simpl;
          (split; [intros _; apply list_elem_of_In; simpl; tauto|]);
          intros _; [destruct H0|destruct H1|destruct H2|destruct H3]; subst; tauto.
      * intros i Hi. repeat (apply elem_of_cons in Hi as [->|Hi]); try lia.
        by apply elem_of_nil in Hi.
    + exists [0; 1; 2]%nat. split; [apply list_elem_of_In; simpl; tauto|].
      apply Hext.
      * intros i Hi. destruct i as [|[|[|[|i]]]]; [| | | |lia]; simpl.
        -- split; [intros _; apply list_elem_of_In; simpl; tauto|].
           intros _; destruct H0; subst; tauto.
        -- split; [intros _; apply list_elem_of_In; simpl; tauto|].
           intros _; destruct H1; subst; tauto.
        -- split; [intros _; apply list_elem_of_In; simpl; tauto|].
           intros _; destruct H2; subst; tauto.
        -- split.
           ++ intros [[= ->]|[= ->]]; destruct H3; tauto.
           ++ intros Hi'. repeat (apply elem_of_cons in Hi' as [?|Hi']); try lia.
              by apply elem_of_nil in Hi'.
      * intros i Hi. repeat (apply elem_of_cons in Hi as [->|Hi]); try lia.
        by apply elem_of_nil in Hi.
    + exists [1; 2; 3]%nat. split; [apply list_elem_of_In; simpl; tauto|].
      apply Hext.
      * intros i Hi. destruct i as [|[|[|[|i]]]]; [| | | |lia]; simpl.
        -- split.
           ++ intros [[= ->]|[= ->]]; destruct H0; tauto.
           ++ intros Hi'. repeat (apply elem_of_cons in Hi' as [?|Hi']); try lia.
              by apply elem_of_nil in Hi'.
        -- split; [intros _; apply list_elem_of_In; simpl; tauto|].
           intros _; destruct H1; subst; tauto.
        -- split; [intros _; apply list_elem_of_In; simpl; tauto|].
           intros _; destruct H2; subst; tauto.
        -- split; [intros _; apply list_elem_of_In; simpl; tauto|].
           intros _; destruct H3; subst; tauto.
      * intros i Hi. repeat (apply elem_of_cons in Hi as [->|Hi]); try lia.
        by apply elem_of_nil in Hi.
    + tauto.
Qed.

Lemma three_columns X i c v x0 x1 x2 y0 y1 y2 :
  cell X i c = Some x0 -> cell X i (c + 1) = Some x1 -> cell X i (c + 2) = Some x2 ->
  cell X (S i) c = Some y0 -> cell X (S i) (c + 1) = Some y1 ->
  cell X (S i) (c + 2) = Some y2 ->
  x0 = v \/ y0 = v -> x1 = v \/ y1 = v -> x2 = v \/ y2 = v ->
  row_potential X.
Proof.
  intros A0 A1 A2 B0 B1 B2 [->| ->] [->| ->] [->| ->].
  - solve_run i c v.
  - solve_near i c v 2%nat (S i, c + 2)%nat.
  - solve_near i c v 1%nat (S i, c + 1)%nat.
  - solve_near (S i) c v 0%nat (i, c).
  - solve_near i c v 0%nat (S i, c).
  - solve_near (S i) c v 1%nat (i, c + 1)%nat.
  - solve_near (S i) c v 2%nat (i, c + 2)%nat.
  - solve_run (S i) c v.
Qed.

Lemma four_in_a_row X r j v x0 x1 x2 x3 :
  cell X r j = Some x0 -> cell X r (j + 1) = Some x1 ->
  cell X r (j + 2) = Some x2 -> cell X r (j + 3) = Some x3 ->
  (x0 = v /\ x1 = v /\ x2 = v) \/ (x1 = v /\ x2 = v /\ x3 = v) \/
  (x0 = v /\ x1 = v /\ x3 = v) \/ (x0 = v /\ x2 = v /\ x3 = v) ->
  row_potential X.
Proof.
  intros A0 A1 A2 A3 [(-> & -> & ->)|[(-> & -> & ->)|[(-> & -> & ->)|(-> & -> & ->)]]].
  - solve_run r j v.
  - solve_run r (j + 1)%nat v.
  - solve_near r j v 2%nat (r, j + 3)%nat.
  - solve_near r (j + 1)%nat v 0%nat (r, j).
Qed.

(** What a 4 x 2 window of the wide scan reports can be played. *)
Lemma window_potential X i j a0 a1 a2 a3 b0 b1 b2 b3 :
  cell X i j = Some a0 -> cell X i (j + 1) = Some a1 ->
  cell X i (j + 2) = Some a2 -> cell X i (j + 3) = Some a3 ->
  cell X (S i) j = Some b0 -> cell X (S i) (j + 1) = Some b1 ->
  cell X (S i) (j + 2) = Some b2 -> cell X (S i) (j + 3) = Some b3 ->
  hasMatchInSingleRow [a0; a1; a2; a3] = true \/
  hasMatchInSingleRow [b0; b1; b2; b3] = true \/
  hasMatchInPairOfRows [[a0; a1; a2; a3]; [b0; b1; b2; b3]] = true ->
  row_potential X.
Proof.
  intros A0 A1 A2 A3 B0 B1 B2 B3 [H|[H|H]].
  - apply single_row_of_4 in H as (v & H). by eapply (four_in_a_row X i j v).
  - apply single_row_of_4 in H as (v & H). by eapply (four_in_a_row X (S i) j v).
  - apply pair_of_rows_of_4 in H as (v & H1 & H2 & [H0|H3]).
    + by eapply (three_columns X i j v a0 a1 a2 b0 b1 b2).
    + eapply (three_columns X i (j + 1) v a1 a2 a3 b1 b2 b3); try done; find_cell.
Qed.

Lemma row_in_window (r R : nat) :
  (r < R)%nat -> (2 <= R)%nat -> exists i, (i + 2 <= R)%nat /\ (r = i \/ r = S i).
Proof.
  intros Hr HR. destruct (decide (r + 2 <= R)%nat); [exists r|exists (r - 1)%nat]; lia.
Qed.

Lemma col_in_window (c C : nat) :
  (c + 3 <= C)%nat -> (4 <= C)%nat -> exists j, (j + 4 <= C)%nat /\ (c = j \/ c = S j).
Proof.
  intros Hc HC. destruct (decide (c + 4 <= C)%nat); [exists c|exists (c - 1)%nat]; lia.
Qed.

Lemma window_cells_exist X R C i j :
  rect X R C -> (i + 2 <= R)%nat -> (j + 4 <= C)%nat ->
  exists a0 a1 a2 a3 b0 b1 b2 b3,
    cell X i j = Some a0 /\ cell X i (j + 1) = Some a1 /\
    cell X i (j + 2) = Some a2 /\ cell X i (j + 3) = Some a3 /\
    cell X (S i) j = Some b0 /\ cell X (S i) (j + 1) = Some b1 /\
    cell X (S i) (j + 2) = Some b2 /\ cell X (S i) (j + 3) = Some b3.
Proof.
  intros Hrect Hi Hj.
  destruct (rect_cell _ _ _ i j Hrect) as [a0 A0]; [lia|lia|].
  destruct (rect_cell _ _ _ i (j + 1) Hrect) as [a1 A1]; [lia|lia|].
  destruct (rect_cell _ _ _ i (j + 2) Hrect) as [a2 A2]; [lia|lia|].
  destruct (rect_cell _ _ _ i (j + 3) Hrect) as [a3 A3]; [lia|lia|].
  destruct (rect_cell _ _ _ (S i) j Hrect) as [b0 B0]; [lia|lia|].
  destruct (rect_cell _ _ _ (S i) (j + 1) Hrect) as [b1 B1]; [lia|lia|].
  destruct (rect_cell _ _ _ (S i) (j + 2) Hrect) as [b2 B2]; [lia|lia|].
  destruct (rect_cell _ _ _ (S i) (j + 3) Hrect) as [b3 B3]; [lia|lia|].
  exists a0, a1, a2, a3, b0, b1, b2, b3. done.
Qed.

Lemma single_in_window X R C r j v x0 x1 x2 x3 :
  rect X R C -> (2 <= R)%nat -> (j + 4 <= C)%nat ->
  cell X r j = Some x0 -> cell X r (j + 1) = Some x1 ->
  cell X r (j + 2) = Some x2 -> cell X r (j + 3) = Some x3 ->
  (x0 = v /\ x1 = v /\ x2 = v) \/ (x1 = v /\ x2 = v /\ x3 = v) \/
  (x0 = v /\ x1 = v /\ x3 = v) \/ (x0 = v /\ x2 = v /\ x3 = v) ->
  exists i j a0 a1 a2 a3 b0 b1 b2 b3,
    (i + 2 <= R)%nat /\ (j + 4 <= C)%nat /\
    cell X i j = Some a0 /\ cell X i (j + 1) = Some a1 /\
    cell X i (j + 2) = Some a2 /\ cell X i (j + 3) = Some a3 /\
    cell X (S i) j = Some b0 /\ cell X (S i) (j + 1) = Some b1 /\
    cell X (S i) (j + 2) = Some b2 /\ cell X (S i) (j + 3) = Some b3 /\
    (hasMatchInSingleRow [a0; a1; a2; a3] = true \/
     hasMatchInSingleRow [b0; b1; b2; b3] = true \/
     hasMatchInPairOfRows [[a0; a1; a2; a3]; [b0; b1; b2; b3]] = true).
Proof.
  intros Hrect HR Hj X0 X1 X2 X3 Hpat.
  destruct (cell_bounds _ _ _ _ _ _ Hrect X0) as [Hr _].
  destruct (row_in_window r R Hr HR) as (i & Hi & Hri).
  destruct (window_cells_exist X R C i j Hrect Hi Hj)
    as (a0 & a1 & a2 & a3 & b0 & b1 & b2 & b3 & A0 & A1 & A2 & A3 & B0 & B1 & B2 & B3).
  exists i, j, a0, a1, a2, a3, b0, b1, b2, b3.
  repeat (split; [done|]).
  destruct Hri as [->| ->].
  - left. apply single_row_of_4. exists v.
    assert (a0 = x0) as -> by congruence. assert (a1 = x1) as -> by congruence.
    assert (a2 = x2) as -> by congruence. assert (a3 = x3) as -> by congruence. done.
  - right. left. apply single_row_of_4. exists v.
    assert (b0 = x0) as -> by congruence. assert (b1 = x1) as -> by congruence.
    assert (b2 = x2) as -> by congruence. assert (b3 = x3) as -> by congruence. done.
Qed.

Lemma pair_in_window X R C i c v :
  rect X R C -> (i + 2 <= R)%nat -> (c + 3 <= C)%nat -> (4 <= C)%nat ->
  (forall k, (k < 3)%nat ->
     cell X i (c + k) = Some v \/ cell X (S i) (c + k) = Some v) ->
  exists i j a0 a1 a2 a3 b0 b1 b2 b3,
    (i + 2 <= R)%nat /\ (j + 4 <= C)%nat /\
    cell X i j = Some a0 /\ cell X i (j + 1) = Some a1 /\
    cell X i (j + 2) = Some a2 /\ cell X i (j + 3) = Some a3 /\
    cell X (S i) j = Some b0 /\ cell X (S i) (j + 1) = Some b1 /\
    cell X (S i) (j + 2) = Some b2 /\ cell X (S i) (j + 3) = Some b3 /\
    (hasMatchInSingleRow [a0; a1; a2; a3] = true \/
     hasMatchInSingleRow [b0; b1; b2; b3] = true \/
     hasMatchInPairOfRows [[a0; a1; a2; a3]; [b0; b1; b2; b3]] = true).
Proof.
  intros Hrect Hi Hc HC Hhas.
  destruct (col_in_window c C Hc HC) as (j & Hj & Hcj).
  destruct (window_cells_exist X R C i j Hrect Hi Hj)
    as (a0 & a1 & a2 & a3 & b0 & b1 & b2 & b3 & A0 & A1 & A2 & A3 & B0 & B1 & B2 & B3).
  exists i, j, a0, a1, a2, a3, b0, b1, b2, b3.
  repeat (split; [done|]).
  right. right. apply pair_of_rows_of_4. exists v.
  assert (forall col a b, cell X i col = Some a -> cell X (S i) col = Some b ->
            forall k, (k < 3)%nat -> col = (c + k)%nat -> a = v \/ b = v) as Hcol.
  { intros col a b Ha Hb k Hk ->. destruct (Hhas k Hk) as [H|H]; [left|right]; congruence. }
  destruct Hcj as [->| ->].
  - split; [|split; [|left]].
    + apply (Hcol _ _ _ A1 B1 1%nat); lia.
    + apply (Hcol _ _ _ A2 B2 2%nat); lia.
    + apply (Hcol _ _ _ A0 B0 0%nat); lia.
  - split; [|split; [|right]].
    + apply (Hcol _ _ _ A1 B1 0%nat); lia.
    + apply (Hcol _ _ _ A2 B2 1%nat); lia.
    + apply (Hcol _ _ _ A3 B3 2%nat); lia.
Qed.

(** What can be played along a row lies in a 4 x 2 window that reports it. *)
Lemma potential_window X R C :
  rect X R C -> (2 <= R)%nat -> (4 <= C)%nat -> row_potential X ->
  exists i j a0 a1 a2 a3 b0 b1 b2 b3,
    (i + 2 <= R)%nat /\ (j + 4 <= C)%nat /\
    cell X i j = Some a0 /\ cell X i (j + 1) = Some a1 /\
    cell X i (j + 2) = Some a2 /\ cell X i (j + 3) = Some a3 /\
    cell X (S i) j = Some b0 /\ cell X (S i) (j + 1) = Some b1 /\
    cell X (S i) (j + 2) = Some b2 /\ cell X (S i) (j + 3) = Some b3 /\
    (hasMatchInSingleRow [a0; a1; a2; a3] = true \/
     hasMatchInSingleRow [b0; b1; b2; b3] = true \/
     hasMatchInPairOfRows [[a0; a1; a2; a3]; [b0; b1; b2; b3]] = true).
Proof.
  intros Hrect HR HC (r & c & v & [Hrun|(k & n & Hk & Hsome & Hothers & Hn & Hpos)]).
  - pose proof (Hrun 0%nat ltac:(lia)) as R0. pose proof (Hrun 1%nat ltac:(lia)) as R1.
    pose proof (Hrun 2%nat ltac:(lia)) as R2.
    destruct (cell_bounds _ _ _ _ _ _ Hrect R2) as [Hr Hc2].
    destruct (col_in_window c C ltac:(lia) HC) as (j & Hj & [->| ->]).
    + destruct (rect_cell _ _ _ r (j + 3) Hrect Hr ltac:(lia)) as [x3 X3].
      apply (single_in_window X R C r j v v v v x3); try done; try find_cell. tauto.
    + destruct (rect_cell _ _ _ r j Hrect Hr ltac:(lia)) as [x0 X0].
      apply (single_in_window X R C r j v x0 v v v); try done; try find_cell. tauto.
  - destruct n as [nr nc]. simpl in Hn, Hpos. destruct Hsome as [x Hx].
    destruct (cell_bounds _ _ _ _ _ _ Hrect Hx) as [Hr Hck].
    destruct (cell_bounds _ _ _ _ _ _ Hrect Hn) as [Hnr Hnc].
    assert (c + 3 <= C)%nat as Hc3.
    { destruct (decide (k = 2%nat)) as [->|Hne]; [lia|].
      pose proof (Hothers 2%nat ltac:(lia) ltac:(lia)) as H2.
      apply (cell_bounds _ _ _ _ _ _ Hrect) in H2. lia. }
    destruct Hpos as [[-> Hrows]|[(-> & -> & ->)|(-> & -> & ->)]].
    + (* the neighbour is above or below *)
      assert (forall i, (r = i /\ nr = S i) \/ (nr = i /\ r = S i) ->
                forall k', (k' < 3)%nat ->
                  cell X i (c + k') = Some v \/ cell X (S i) (c + k') = Some v) as Hhas.
      { intros i Hi k' Hk'. destruct (decide (k' = k)) as [->|Hne].
        - destruct Hi as [[-> ->]|[-> ->]]; [right|left]; done.
        - pose proof (Hothers k' Hk' Hne) as H.
          destruct Hi as [[-> ->]|[-> ->]]; [left|right]; done. }
      destruct Hrows as [->| ->].
      * apply (pair_in_window X R C r c v); try done; [lia|]. apply Hhas. lia.
      * apply (pair_in_window X R C nr c v); try done; [lia|]. apply Hhas. lia.
    + (* the neighbour is left of the run *)
      pose proof (Hothers 1%nat ltac:(lia) ltac:(lia)) as H1.
      pose proof (Hothers 2%nat ltac:(lia) ltac:(lia)) as H2.
      apply (single_in_window X R C r nc v v x v v); try done; try find_cell; try lia.
      tauto.
    + (* the neighbour is right of the run *)
      pose proof (Hothers 0%nat ltac:(lia) ltac:(lia)) as H0.
      pose proof (Hothers 1%nat ltac:(lia) ltac:(lia)) as H1.
      apply (single_in_window X R C r c v v v x v); try done; try find_cell; try lia.
      tauto.
Qed.

Lemma chunk_explicit X i j (rows : grid) :
  rect rows 2 4 ->
  (forall a b, (a < 2)%nat -> (b < 4)%nat -> cell rows a b = cell X (i + a) (j + b)) ->
  exists a0 a1 a2 a3 b0 b1 b2 b3,
    rows = [[a0; a1; a2; a3]; [b0; b1; b2; b3]] /\
    cell X i j = Some a0 /\ cell X i (j + 1) = Some a1 /\
    cell X i (j + 2) = Some a2 /\ cell X i (j + 3) = Some a3 /\
    cell X (S i) j = Some b0 /\ cell X (S i) (j + 1) = Some b1 /\
    cell X (S i) (j + 2) = Some b2 /\ cell X (S i) (j + 3) = Some b3.
Proof.
  intros [Hl Hrows] Hc.
  destruct rows as [|row0 [|row1 [|? ?]]]; try discriminate.
  apply Forall_cons in Hrows as [H0 Hrows]. apply Forall_cons in Hrows as [H1 _].
  destruct row0 as [|a0 [|a1 [|a2 [|a3 [|? ?]]]]]; try discriminate.
  destruct row1 as [|b0 [|b1 [|b2 [|b3 [|? ?]]]]]; try discriminate.
  exists a0, a1, a2, a3, b0, b1, b2, b3. split; [done|].
  pose proof (Hc 0 0 ltac:(lia) ltac:(lia))%nat as A0.
  pose proof (Hc 0 1 ltac:(lia) ltac:(lia))%nat as A1.
  pose proof (Hc 0 2 ltac:(lia) ltac:(lia))%nat as A2.
  pose proof (Hc 0 3 ltac:(lia) ltac:(lia))%nat as A3.
  pose proof (Hc 1 0 ltac:(lia) ltac:(lia))%nat as B0.
  pose proof (Hc 1 1 ltac:(lia) ltac:(lia))%nat as B1.
  pose proof (Hc 1 2 ltac:(lia) ltac:(lia))%nat as B2.
  pose proof (Hc 1 3 ltac:(lia) ltac:(lia))%nat as B3.
  rewrite ?Nat.add_0_r, ?Nat.add_1_r in *.
  repeat split; symmetry; assumption.
Qed.

(** The wide scan of one grid, row-wise: it reports exactly what can be
    played along a row. *)
Lemma wide_scan_iff X R C (tr : bool) :
  rect X R C -> (2 <= R)%nat -> (4 <= C)%nat ->
  exists cs,
    _iterchunks X (4, 2) false tr = Ok cs /\
    ((existsb hasPotentialMatchInSingleRow (flat_map chunk_rows cs) = true \/
      existsb (fun c => hasPotentialMatchInPairOfRows (chunk_rows c)) cs = true)
     <-> row_potential X).
Proof.
  intros Hrect HR HC.
  destruct (_iterchunks_chunks X R C 4 2 false tr Hrect ltac:(lia) ltac:(lia))
    as (cs & E & Hmem).
  exists cs. split; [exact E|]. split.
  - assert (forall c, In c cs ->
              exists i a0 a1 a2 a3 b0 b1 b2 b3 j,
                chunk_rows c = [[a0; a1; a2; a3]; [b0; b1; b2; b3]] /\
                cell X i j = Some a0 /\ cell X i (j + 1) = Some a1 /\
                cell X i (j + 2) = Some a2 /\ cell X i (j + 3) = Some a3 /\
                cell X (S i) j = Some b0 /\ cell X (S i) (j + 1) = Some b1 /\
                cell X (S i) (j + 2) = Some b2 /\ cell X (S i) (j + 3) = Some b3) as Hch.
    { intros c Hc. apply list_elem_of_In, Hmem in Hc as (i & j & _ & _ & Hr & Hcells & _).
      destruct (chunk_explicit X i j _ Hr Hcells)
        as (a0 & a1 & a2 & a3 & b0 & b1 & b2 & b3 & H).
      exists i, a0, a1, a2, a3, b0, b1, b2, b3, j. exact H. }
    intros [Hs|Hp].
    + apply existsb_exists in Hs as (row & Hrow & Hs).
      apply in_flat_map in Hrow as (c & Hc & Hrow).
      destruct (Hch c Hc) as (i & a0 & a1 & a2 & a3 & b0 & b1 & b2 & b3 & j & Er
                              & A0 & A1 & A2 & A3 & B0 & B1 & B2 & B3).
      rewrite Er in Hrow.
      apply (window_potential X i j a0 a1 a2 a3 b0 b1 b2 b3); try done.
      destruct Hrow as [<-|[<-|[]]]; [by left|by right; left].
    + apply existsb_exists in Hp as (c & Hc & Hp).
      destruct (Hch c Hc) as (i & a0 & a1 & a2 & a3 & b0 & b1 & b2 & b3 & j & Er
                              & A0 & A1 & A2 & A3 & B0 & B1 & B2 & B3).
      rewrite Er in Hp.
      apply (window_potential X i j a0 a1 a2 a3 b0 b1 b2 b3); try done.
      by right; right.
  - intros Hpot.
    destruct (potential_window X R C Hrect HR HC Hpot)
      as (i & j & a0 & a1 & a2 & a3 & b0 & b1 & b2 & b3 & Hi & Hj
          & A0 & A1 & A2 & A3 & B0 & B1 & B2 & B3 & HW).
    assert (In (mkChunk [[a0; a1; a2; a3]; [b0; b1; b2; b3]] None) cs) as Hin.
    { apply list_elem_of_In, Hmem. exists i, j. cbn [chunk_rows chunk_position].
      split; [lia|]. split; [lia|]. split; [|split; [|done]].
      - split; [done|]. repeat constructor.
      - intros a b Ha Hb.
        destruct a as [|[|a]]; [| |lia];
          destruct b as [|[|[|[|b]]]]; try lia;
          rewrite ?Nat.add_0_r; replace (i + 1)%nat with (S i) by lia;
          match goal with
          | |- cell ?r ?a ?b = _ =>
              let v := eval cbv in (cell r a b) in change (cell r a b) with v
          end; symmetry; assumption. }
    destruct HW as [H|[H|H]].
    + left. apply existsb_exists. exists [a0; a1; a2; a3]. split; [|done].
      apply in_flat_map. eexists. split; [exact Hin|]. by left.
    + left. apply existsb_exists. exists [b0; b1; b2; b3]. split; [|done].
      apply in_flat_map. eexists. split; [exact Hin|]. right. by left.
    + right. apply existsb_exists. eexists. split; [exact Hin|done].
Qed.

Lemma zip_cell_all o h w a b :
  rect o h w -> (0 < h)%nat -> cell (Lodash.zip o) a b = cell o b a.
Proof.
  intros Hrect Hh.
  destruct (decide (b < h /\ a < w)%nat) as [[Hb Ha]|Hn]; [by apply (zip_cell _ h w)|].
  pose proof (zip_rect _ _ _ Hrect Hh) as Hz.
  transitivity (@None orb); [|symmetry].
  - destruct (cell (Lodash.zip o) a b) eqn:E; [|done].
    apply (cell_bounds _ _ _ _ _ _ Hz) in E. lia.
  - destruct (cell o b a) eqn:E; [|done].
    apply (cell_bounds _ _ _ _ _ _ Hrect) in E. lia.
Qed.

Lemma cell_exchange o r1 k1 r2 k2 x v a b :
  cell o r1 k1 = Some x -> cell o r2 k2 = Some v -> (r1, k1) <> (r2, k2) ->
  cell (set_cell (set_cell o r1 k1 v) r2 k2 x) a b
  = if decide (a = r2 /\ b = k2) then Some x
    else if decide (a = r1 /\ b = k1) then Some v
    else cell o a b.
Proof.
  intros H1 H2 Hne. rewrite !cell_set_cell.
  repeat case_decide; destruct_and?; simplify_eq; rewrite ?H1, ?H2; try done.
Qed.

Lemma has_run_row o r c v :
  cell o r c = Some v -> cell o r (c + 1) = Some v -> cell o r (c + 2) = Some v ->
  has_run o.
Proof.
  intros H0 H1 H2. apply cell_to_Z in H0, H1, H2. rewrite Nat2Z.inj_add in H1, H2.
  exists [(Z.of_nat r, Z.of_nat c); (Z.of_nat r, Z.of_nat c + 1);
          (Z.of_nat r, Z.of_nat c + 2)].
  split; [exists (Z.of_nat r), (Z.of_nat c); by left|].
  exists v. repeat constructor; simpl; tauto.
Qed.

Lemma has_run_column o r c v :
  cell o r c = Some v -> cell o (r + 1) c = Some v -> cell o (r + 2) c = Some v ->
  has_run o.
Proof.
  intros H0 H1 H2. apply cell_to_Z in H0, H1, H2. rewrite Nat2Z.inj_add in H1, H2.
  exists [(Z.of_nat r, Z.of_nat c); (Z.of_nat r + 1, Z.of_nat c);
          (Z.of_nat r + 2, Z.of_nat c)].
  split; [exists (Z.of_nat r), (Z.of_nat c); by right|].
  exists v. repeat constructor; simpl; tauto.
Qed.

(** What can be played along a row of the grid is a run or a move. *)
Lemma row_potential_playable b :
  row_potential (orbs b) -> has_run (orbs b) \/ has_move b.
Proof.
  intros (r & c & v & [Hrun|(k & [nr nc] & Hk & [x Hx] & Hothers & Hn & Hpos)]).
  - left. apply (has_run_row _ r c v); [use_cell (Hrun 0%nat ltac:(lia))|
                                         apply Hrun; lia|apply Hrun; lia].
  - right. simpl in Hn, Hpos.
    assert ((r, (c + k)%nat) <> (nr, nc)) as Hne by (intros [= ? ?]; lia).
    destruct (swap_cells b r (c + k) nr nc x v Hx Hn) as (E & _).
    eexists (Z.of_nat r, Z.of_nat (c + k)), (Z.of_nat nr, Z.of_nat nc), _.
    split; [by eapply cell_in_bounds|]. split; [by eapply cell_in_bounds|].
    split; [unfold adjacent; simpl; lia|]. split; [exact E|]. cbn [orbs with_orbs].
    apply (has_run_row _ r c v);
      rewrite (cell_exchange _ _ _ _ _ _ _ _ _ Hx Hn Hne);
      repeat case_decide; destruct_and?; try lia; try done.
    + use_cell (Hothers 0%nat ltac:(lia) ltac:(lia)).
    + apply Hothers; lia.
    + apply Hothers; lia.
Qed.

(** What can be played along a row of the transposed grid is a run or a
    move of the grid. *)
Lemma column_potential_playable b h w :
  rect (orbs b) h w -> (0 < h)%nat ->
  row_potential (Lodash.zip (orbs b)) -> has_run (orbs b) \/ has_move b.
Proof.
  intros Hrect Hh (r & c & v & H).
  assert (forall a d, cell (Lodash.zip (orbs b)) a d = cell (orbs b) d a) as Hz.
  { intros a d. by apply (zip_cell_all _ h w). }
  destruct H as [Hrun|(k & [nr nc] & Hk & [x Hx] & Hothers & Hn & Hpos)].
  - left. apply (has_run_column _ c r v); rewrite <- Hz;
      [use_cell (Hrun 0%nat ltac:(lia))|apply Hrun; lia|apply Hrun; lia].
  - right. simpl in Hn, Hpos. rewrite Hz in Hx, Hn.
    assert (((c + k)%nat, r) <> (nc, nr)) as Hne by (intros [= ? ?]; lia).
    destruct (swap_cells b (c + k) r nc nr x v Hx Hn) as (E & _).
    eexists (Z.of_nat (c + k), Z.of_nat r), (Z.of_nat nc, Z.of_nat nr), _.
    split; [by eapply cell_in_bounds|]. split; [by eapply cell_in_bounds|].
    split; [unfold adjacent; simpl; lia|]. split; [exact E|]. cbn [orbs with_orbs].
    apply (has_run_column _ c r v);
      rewrite (cell_exchange _ _ _ _ _ _ _ _ _ Hx Hn Hne);
      repeat case_decide; destruct_and?; try lia; try done; rewrite <- Hz.
    + use_cell (Hothers 0%nat ltac:(lia) ltac:(lia)).
    + apply Hothers; lia.
    + apply Hothers; lia.
Qed.

(** A run along a row after an exchange of adjacent cells was a run
    before, or a run short of one cell with the orb next to it. *)
Lemma exchange_potential X (p q : nat * nat) x vq r c v :
  cell X p.1 p.2 = Some x -> cell X q.1 q.2 = Some vq ->
  (p.1 = q.1 /\ (q.2 = S p.2 \/ p.2 = S q.2)) \/
  (p.2 = q.2 /\ (q.1 = S p.1 \/ p.1 = S q.1)) ->
  (forall k, (k < 3)%nat ->
     (if decide (r = q.1 /\ (c + k)%nat = q.2) then Some x
      else if decide (r = p.1 /\ (c + k)%nat = p.2) then Some vq
      else cell X r (c + k)) = Some v) ->
  row_potential X.
Proof.
  destruct p as [r1 k1], q as [r2 k2]. cbn [fst snd]. intros Hp Hq Hadj Hrun.
  pose proof (Hrun 0%nat ltac:(lia)) as H0.
  pose proof (Hrun 1%nat ltac:(lia)) as H1.
  pose proof (Hrun 2%nat ltac:(lia)) as H2.
  clear Hrun.
  repeat case_decide; destruct_and?;
    repeat match goal with
           | H : Some ?a = Some v |- _ => injection H as ->
           end;
    try lia;
    first [ solve_run r c v
          | solve_near r c v 0%nat (r1, k1)
          | solve_near r c v 1%nat (r1, k1)
          | solve_near r c v 2%nat (r1, k1)
          | solve_near r c v 0%nat (r2, k2)
          | solve_near r c v 1%nat (r2, k2)
          | solve_near r c v 2%nat (r2, k2) ].
Qed.

Lemma run_potential G h w :
  rect G h w -> (0 < h)%nat -> has_run G ->
  row_potential G \/ row_potential (Lodash.zip G).
Proof.
  intros Hrect Hh (g & (r & c & [->| ->]) & [v Hv]).
  - left. destruct (row_run_cells _ _ _ _ Hv) as (_ & _ & C0 & C1 & C2).
    solve_run (Z.to_nat r) (Z.to_nat c) v.
  - right. destruct (column_run_cells _ _ _ _ Hv) as (_ & _ & C0 & C1 & C2).
    rewrite <- (zip_cell_all _ h w) in C0, C1, C2 by done.
    solve_run (Z.to_nat c) (Z.to_nat r) v.
Qed.

Lemma move_potential b h w :
  rect (orbs b) h w -> (0 < h)%nat -> has_move b ->
  row_potential (orbs b) \/ row_potential (Lodash.zip (orbs b)).
Proof.
  intros Hrect Hh (p & q & b' & Hp & Hq & Hadj & Hswap & (g & Hal & [v Hv])).
  apply in_bounds_nat in Hp as (r1 & k1 & x & -> & Hp).
  apply in_bounds_nat in Hq as (r2 & k2 & vq & -> & Hq).
  destruct (swap_cells b r1 k1 r2 k2 x vq Hp Hq) as (E & _).
  rewrite E in Hswap. injection Hswap as <-. cbn [orbs with_orbs] in Hv.
  unfold adjacent in Hadj. cbn [fst snd] in Hadj.
  assert ((r1, k1) <> (r2, k2)) as Hne by (intros [= ? ?]; lia).
  assert ((r1 = r2 /\ (k2 = S k1 \/ k1 = S k2)) \/
          (k1 = k2 /\ (r2 = S r1 \/ r1 = S r2))) as Hnadj by lia.
  destruct Hal as (r & c & [->| ->]).
  - left. destruct (row_run_cells _ _ _ _ Hv) as (_ & _ & C0 & C1 & C2).
    rewrite (cell_exchange _ _ _ _ _ _ _ _ _ Hp Hq Hne) in C0.
    rewrite (cell_exchange _ _ _ _ _ _ _ _ _ Hp Hq Hne) in C1.
    rewrite (cell_exchange _ _ _ _ _ _ _ _ _ Hp Hq Hne) in C2.
    apply (exchange_potential (orbs b) (r1, k1) (r2, k2) x vq
             (Z.to_nat r) (Z.to_nat c) v); try done.
    intros k Hk. destruct k as [|[|[|k]]]; [|done|done|lia].
    by rewrite Nat.add_0_r.
  - right. destruct (column_run_cells _ _ _ _ Hv) as (_ & _ & C0 & C1 & C2).
    rewrite (cell_exchange _ _ _ _ _ _ _ _ _ Hp Hq Hne) in C0.
    rewrite (cell_exchange _ _ _ _ _ _ _ _ _ Hp Hq Hne) in C1.
    rewrite (cell_exchange _ _ _ _ _ _ _ _ _ Hp Hq Hne) in C2.
    assert (forall a d, cell (Lodash.zip (orbs b)) a d = cell (orbs b) d a) as Hz.
    { intros a d. by apply (zip_cell_all _ h w). }
    apply (exchange_potential (Lodash.zip (orbs b)) (k1, r1) (k2, r2) x vq
             (Z.to_nat c) (Z.to_nat r) v); cbn [fst snd].
    + by rewrite Hz.
    + by rewrite Hz.
    + lia.
    + intros k Hk. rewrite Hz.
      destruct k as [|[|[|k]]]; [| | |lia].
      * rewrite Nat.add_0_r. clear C1 C2.
        repeat case_decide; destruct_and?; try lia; done.
      * clear C0 C2. repeat case_decide; destruct_and?; try lia; done.
      * clear C0 C1. repeat case_decide; destruct_and?; try lia; done.
Qed.

(** X22.  On a board whose grid has [h] rows of [w] orbs with [h] and [w]
    at least 4, [hasPotentialMatch()] returns, and it returns true exactly
    when the grid has a run of three equal orbs along a row or a column, or
    gets one by exchanging two cells of the grid that are next to each other;
    [needsShuffle()] returns the opposite. *)
Theorem hasPotentialMatch_iff_playable (b : Board) (h w : nat) :
  rect (orbs b) h w -> (4 <= h)%nat -> (4 <= w)%nat ->
  exists m,
    hasPotentialMatch b = Ok m /\ needsShuffle b = Ok (negb m) /\
    (m = true <-> has_run (orbs b) \/ has_move b).
Proof.
  intros Hrect Hh Hw.
  pose proof (zip_rect _ h w Hrect ltac:(lia)) as Hzrect.
  destruct (wide_scan_iff (orbs b) h w false Hrect ltac:(lia) Hw) as (cs1 & E1 & S1).
  destruct (wide_scan_iff (Lodash.zip (orbs b)) w h true Hzrect ltac:(lia) Hh)
    as (cs2 & E2 & S2).
  unfold needsShuffle, hasPotentialMatch, iterchunks. rewrite E1, E2. cbn [bind].
  eexists. split; [reflexivity|]. split; [reflexivity|].
  rewrite flat_map_app, !existsb_app, !orb_true_iff.
  unfold hasPotentialMatchInSingleRow, hasPotentialMatchInPairOfRows in *.
  split.
  - intros Hscan.
    assert (row_potential (orbs b) \/ row_potential (Lodash.zip (orbs b))) as [H|H].
    { destruct Hscan as [[H|H]|[H|H]]; [left|right|left|right]; (apply S1 || apply S2);
        tauto. }
    + by apply row_potential_playable.
    + by apply (column_potential_playable b h w); [|lia|].
  - intros Hplay.
    assert (row_potential (orbs b) \/ row_potential (Lodash.zip (orbs b))) as [H|H].
    { destruct Hplay as [H|H].
      - apply (run_potential _ h w); [done|lia|done].
      - apply (move_potential _ h w); [done|lia|done]. }
    + apply S1 in H. tauto.
    + apply S2 in H. tauto.
Qed.

Lemma hasPotentialMatch_iff_playable_witness :
  exists m,
    hasPotentialMatch repaired_board = Ok m /\ needsShuffle repaired_board = Ok (negb m) /\
    (m = true <-> has_run (orbs repaired_board) \/ has_move repaired_board).
Proof.
  apply (hasPotentialMatch_iff_playable repaired_board 4 4).
  - split; [reflexivity|]. repeat constructor.
  - lia.
  - lia.
Defined.

(** ** part_000: the earlier revision of [Board] *)

Lemma evaluate_nothing b g :
  wf_board b -> sentinel_free (orbs b) -> evaluate b None None g = Ok ([], b, g).
Proof.
  intros Hwf Hfree. unfold evaluate. simpl.
  rewrite (sweep_without_cleared b _ g Hwf Hfree). simpl. by rewrite with_orbs_id.
Qed.

(** X23.  [evaluateAll()] of the earlier [Board] of [part_000] loops on
    [hasMatch()], the wide scan, and calls [evaluate()] without groups, which
    changes nothing.  On a board whose grid has [height] rows of [width] orbs
    and no cleared cell, it therefore never returns when the wide scan is
    true, and returns at once, leaving the board as it is, when the wide scan
    is false. *)
Theorem evaluateAll_returns_only_without_potential
    (fuel : nat) (b : Board) (g : Rand) (m : bool) :
  wf_board b -> sentinel_free (orbs b) ->
  Legacy.hasMatch b = Ok m ->
  Legacy.evaluateAll (S fuel) b g = if m then OutOfFuel else Ok (b, g).
Proof.
  intros Hwf Hfree Hm. destruct m.
  - induction (S fuel) as [|n IH]; [done|]. cbn [Legacy.evaluateAll].
    rewrite Hm. cbn [bind]. rewrite (evaluate_nothing b g Hwf Hfree). cbn [bind fst snd].
    exact IH.
  - cbn [Legacy.evaluateAll]. by rewrite Hm.
Qed.

Lemma evaluateAll_returns_only_without_potential_witness :
  Legacy.evaluateAll (S 7) repaired_board (replay []) = OutOfFuel /\
  Legacy.evaluateAll (S 7) chain_board (replay [])
  = Ok (chain_board, replay []).
Proof.
  split.
  - apply (evaluateAll_returns_only_without_potential 7 repaired_board (replay []) true).
    + unfold wf_board. simpl. repeat split; try lia. repeat constructor.
    + repeat constructor; done.
    + reflexivity.
  - apply (evaluateAll_returns_only_without_potential 7 chain_board (replay []) false).
    + unfold wf_board. simpl. repeat split; try lia. repeat constructor.
    + repeat constructor; done.
    + reflexivity.
Defined.

(** X24.  When the constructor of the earlier [Board] of [part_000]
    returns, the board holds a grid as it was sampled ([_.zip] of [height]
    sampled rows of [width] orbs, nothing is moved afterwards), on which
    [hasMatchEvent()] is false and [hasMatch()], the wide scan, is true. *)
Theorem legacy_constructor_returns_valid_sample
    (fuel : nat) (w h : Z) (ts : list orb) (g : Rand) (r : Board * Rand) :
  Legacy.Board_new fuel w h ts g = Ok r ->
  (exists g0, r = sampled_board w h ts g0) /\
  Legacy.hasMatchEvent r.1 = Ok false /\
  Legacy.hasMatch r.1 = Ok true /\
  Legacy.needsShuffle r.1 = Ok false.
Proof.
  unfold Legacy.Board_new. revert g.
  induction fuel as [|fuel IH]; intros g; [discriminate|]. cbn [Legacy.createValidOrbs].
  destruct (sampled_board w h ts g) as [b g1] eqn:E.
  destruct (Legacy.hasMatchEvent b) as [[|]| |] eqn:He; cbn [bind]; try discriminate.
  { apply IH. }
  destruct (Legacy.needsShuffle b) as [[|]| |] eqn:Hn; cbn [bind]; try discriminate.
  { apply IH. }
  intros [= <-]. cbn [fst]. split; [by exists g|]. split; [done|]. split; [|done].
  unfold Legacy.needsShuffle in Hn.
  destruct (Legacy.hasMatch b) as [[|]| |]; simpl in Hn; try discriminate; done.
Qed.

Lemma legacy_constructor_returns_valid_sample_witness :
  (exists g0, (repaired_board, mkRand (tape (replay legacy_draws)) 16)
              = sampled_board 4 4 (map Tok [0; 1; 2]) g0) /\
  Legacy.hasMatchEvent repaired_board = Ok false /\
  Legacy.hasMatch repaired_board = Ok true /\
  Legacy.needsShuffle repaired_board = Ok false.
Proof.
  apply (legacy_constructor_returns_valid_sample 3 4 4 (map Tok [0; 1; 2])
           (replay legacy_draws)
           (repaired_board, mkRand (tape (replay legacy_draws)) 16)).
  vm_compute. reflexivity.
Defined.

(** ** [availableTypes] *)

Lemma string_compare_trans (a : string) : forall b c,
  String.compare a b <> Gt -> String.compare b c <> Gt -> String.compare a c <> Gt.
Proof.
  induction a as [|x a IH]; intros [|y b] [|z c]; simpl; try done.
  unfold Ascii.compare.
  destruct (N.compare_spec (Ascii.N_of_ascii x) (Ascii.N_of_ascii y)) as [Exy|Lxy|Gxy];
    destruct (N.compare_spec (Ascii.N_of_ascii y) (Ascii.N_of_ascii z)) as [Eyz|Lyz|Gyz];
    try done.
  - rewrite Exy, Eyz, N.compare_refl. apply IH.
  - intros _ _. rewrite Exy. by rewrite (proj2 (N.compare_lt_iff _ _) Lyz).
  - intros _ _. rewrite <- Eyz. by rewrite (proj2 (N.compare_lt_iff _ _) Lxy).
  - intros _ _.
    by rewrite (proj2 (N.compare_lt_iff _ _) (N.lt_trans _ _ _ Lxy Lyz)).
Qed.

Lemma string_leb_trans a b c :
  String.leb a b = true -> String.leb b c = true -> String.leb a c = true.
Proof.
  unfold String.leb. intros Hab Hbc.
  pose proof (string_compare_trans a b c) as H.
  destruct (String.compare a b), (String.compare b c), (String.compare a c);
    try done; exfalso; by apply H.
Qed.

Lemma sorts_before_trans a b c :
  sorts_before a b = true -> sorts_before b c = true -> sorts_before a c = true.
Proof.
  destruct a, b, c; simpl; try done. apply string_leb_trans.
Qed.

Lemma sorts_before_total a b : sorts_before a b = true \/ sorts_before b a = true.
Proof.
  destruct a, b; simpl; try tauto. apply String.leb_total.
Qed.

Lemma sorts_before_antisym a b :
  sorts_before a b = true -> sorts_before b a = true -> a = b.
Proof.
  destruct a as [x| |], b as [y| |]; simpl; try done.
  intros H1 H2. f_equal. apply (inj pretty). by apply String.leb_antisym.
Qed.

Lemma sort_insert_orb_perm a l : sort_insert_orb a l ≡ₚ a :: l.
Proof.
  induction l as [|b l IH]; simpl; [done|].
  destruct (sorts_before a b); [done|]. by rewrite IH, perm_swap.
Qed.

Lemma sort_orbs_perm l : foldr sort_insert_orb [] l ≡ₚ l.
Proof.
  induction l as [|a l IH]; simpl; [done|].
  by rewrite sort_insert_orb_perm, IH.
Qed.

Lemma sort_insert_orb_sorted a l :
  StronglySorted (fun x y => sorts_before x y = true) l ->
  StronglySorted (fun x y => sorts_before x y = true) (sort_insert_orb a l).
Proof.
  induction 1 as [|b l Hl IH Hb]; simpl; [repeat constructor|].
  destruct (sorts_before a b) eqn:E.
  - constructor; [by constructor|]. constructor; [done|].
    eapply Forall_impl; [exact Hb|]. intros x Hx. by eapply sorts_before_trans.
  - constructor; [done|].
    rewrite sort_insert_orb_perm. constructor; [|done].
    destruct (sorts_before_total a b) as [H|H]; [congruence|done].
Qed.

Lemma sort_orbs_sorted l :
  StronglySorted (fun x y => sorts_before x y = true) (foldr sort_insert_orb [] l).
Proof.
  induction l as [|a l IH]; simpl; [constructor|].
  by apply sort_insert_orb_sorted.
Qed.

Lemma sort_orbs_returns l :
  Forall (fun v => has_string v = true) l ->
  sort_orbs l = Some (foldr sort_insert_orb [] l).
Proof.
  intros Hl. unfold sort_orbs.
  by rewrite (proj2 (forallb_forall has_string l))
    by (intros x Hx%list_elem_of_In; by eapply Forall_forall in Hl).
Qed.

(** X25.  On a board whose numbers are safe integers (of magnitude up to
    2^53 - 1), [availableTypes] returns every orb that the grid holds, each
    once, in the order of [Array.prototype.sort()]: the numbers by their
    decimal numerals as strings (so that 10 comes before 9), then the
    sentinel, then [undefined].  Boards whose grids hold the same orbs have
    the same [availableTypes]. *)
Theorem availableTypes_lists_the_orbs (b : Board) :
  Forall (fun v => has_string v = true) (concat (orbs b)) ->
  exists l,
    availableTypes b = Some l /\
    (forall x, x ∈ l <-> x ∈ concat (orbs b)) /\
    NoDup l /\
    StronglySorted (fun x y => sorts_before x y = true) l /\
    (forall b', concat (orbs b') ≡ₚ concat (orbs b) -> availableTypes b' = Some l).
Proof.
  intros Hsafe. unfold availableTypes.
  assert (forall o x,
            x ∈ foldr sort_insert_orb [] (Lodash.uniq (concat o)) <-> x ∈ concat o) as Hmem.
  { intros o x. by rewrite sort_orbs_perm, elem_of_uniq_gen. }
  assert (forall o, NoDup (foldr sort_insert_orb [] (Lodash.uniq (concat o)))) as Hnd.
  { intros o. rewrite sort_orbs_perm. apply NoDup_uniq. }
  assert (forall o, Forall (fun v => has_string v = true) (concat o) ->
                    Forall (fun v => has_string v = true) (Lodash.uniq (concat o))) as Hu.
  { intros o Ho. apply Forall_forall. intros x Hx.
    exact (proj1 (Forall_forall _ _) Ho x (proj1 (elem_of_uniq_gen _ _) Hx)). }
  exists (foldr sort_insert_orb [] (Lodash.uniq (concat (orbs b)))).
  split; [by apply sort_orbs_returns, Hu|].
  split; [apply Hmem|]. split; [apply Hnd|]. split; [apply sort_orbs_sorted|].
  intros b' Hperm.
  rewrite sort_orbs_returns by (apply Hu; by rewrite Hperm). f_equal.
  apply (StronglySorted_unique_strong (fun x y => sorts_before x y = true)).
  - intros x y _ _. apply sorts_before_antisym.
  - apply sort_orbs_sorted.
  - apply sort_orbs_sorted.
  - apply NoDup_Permutation; [apply Hnd|apply Hnd|].
    intros x. rewrite !Hmem. by rewrite Hperm.
Qed.

Lemma availableTypes_lists_the_orbs_witness :
  exists l,
    availableTypes (mkBoard 2 2 [] [[Tok 9; Tok 10]; [Tok (-1); Tok 9]]) = Some l /\
    l = [Tok (-1); Tok 10; Tok 9] /\
    (forall x, x ∈ l <-> x ∈ [Tok 9; Tok 10; Tok (-1); Tok 9]) /\
    NoDup l /\
    StronglySorted (fun x y => sorts_before x y = true) l.
Proof.
  destruct (availableTypes_lists_the_orbs
              (mkBoard 2 2 [] [[Tok 9; Tok 10]; [Tok (-1); Tok 9]]))
    as (l & E & Hmem & Hnd & Hs & _).
  - repeat constructor.
  - exists l. split; [done|]. split; [|done].
    vm_compute in E. by injection E as <-.
Defined.

(** ** Grids that the methods cannot take *)

(** X26.  [findMatches], and with it [hasMatch()], throws a [TypeError]
    exactly when the grid has no cell: no row, or only empty rows.  On every
    other grid it returns. *)
Theorem findMatches_throws_iff_no_cell (o : grid) :
  (findMatches o = TypeError <-> max_list (map length o) = 0%nat) /\
  ((exists ms, findMatches o = Ok ms) <-> (0 < max_list (map length o))%nat).
Proof.
  assert (max_list (map length o) = 0%nat -> findMatches o = TypeError) as Hthrow.
  { intros Hmax. unfold findMatches.
    destruct (_iterchunks o (3, 1) true false) as [cs| |] eqn:E; cbn [bind]; try done.
    - unfold Lodash.zip. by rewrite Hmax.
    - unfold _iterchunks in E. by destruct (o !! 0%nat). }
  split; split.
  - intros E. destruct (decide (max_list (map length o) = 0%nat)) as [|Hne]; [done|].
    destruct (findMatches_ok o ltac:(lia)) as [ms Hms]. congruence.
  - exact Hthrow.
  - intros [ms Hms]. destruct (decide (max_list (map length o) = 0%nat)) as [Hz|Hne]; [|lia].
    rewrite (Hthrow Hz) in Hms. discriminate.
  - apply findMatches_ok.
Qed.

Lemma drop_down_outcome opts col g z : forall o,
  match drop_down z o col opts g with
  | Ok r => length r.1 = length o
  | TypeError => True
  | OutOfFuel => False
  end.
Proof.
  induction z as [|z IH]; intros o; cbn [drop_down].
  - destruct (Lodash.sample opts g) as [s g'].
    destruct (set_orb o 0 col (default Undefined s)) as [o'| |] eqn:E; cbn [bind]; try done.
    + simpl. by eapply set_orb_length.
    + unfold set_orb in E. destruct (js_get o 0); discriminate.
  - destruct (orb_at o (Z.of_nat z) col) as [v| |] eqn:Ev; cbn [bind]; try done.
    2:{ unfold orb_at in Ev. destruct (js_get o (Z.of_nat z)); discriminate. }
    destruct (set_orb o (Z.of_nat (S z)) col v) as [o'| |] eqn:E; cbn [bind];
      try done.
    + specialize (IH o'). destruct (drop_down z o' col opts g); try done.
      rewrite IH. by eapply set_orb_length.
    + unfold set_orb in E. destruct (js_get o _); discriminate.
Qed.

Lemma sweep_cell_outcome opts row st col :
  match sweep_cell opts row st col with
  | Ok r => length r.1 = length st.1
  | TypeError => True
  | OutOfFuel => False
  end.
Proof.
  unfold sweep_cell.
  destruct (orb_at st.1 row col) as [v| |] eqn:Ev; cbn [bind]; try done.
  2:{ unfold orb_at in Ev. destruct (js_get st.1 row); discriminate. }
  destruct (is_cleared v); [|done].
  destruct (0 <=? row); [|done]. apply drop_down_outcome.
Qed.

Lemma sweep_row_outcome opts row cols : forall st,
  match each cols (sweep_cell opts row) st with
  | Ok r => length r.1 = length st.1
  | TypeError => True
  | OutOfFuel => False
  end.
Proof.
  induction cols as [|col cols IH]; intros st; simpl; [done|].
  pose proof (sweep_cell_outcome opts row st col) as H.
  destruct (sweep_cell opts row st col) as [st1| |]; cbn [bind]; try done.
  specialize (IH st1). destruct (each cols (sweep_cell opts row) st1); try done.
  congruence.
Qed.

Lemma sweep_rows_outcome opts cols rows : forall st,
  match each rows (fun st row => each cols (sweep_cell opts row) st) st with
  | Ok r =>
      length r.1 = length st.1 /\
      (cols <> [] -> Forall (fun row => 0 <= row < Z.of_nat (length st.1)) rows)
  | TypeError => True
  | OutOfFuel => False
  end.
Proof.
  induction rows as [|row rows IH]; intros st; simpl; [by split|].
  pose proof (sweep_row_outcome opts row cols st) as H.
  destruct (each cols (sweep_cell opts row) st) as [st1| |] eqn:E; cbn [bind]; try done.
  specialize (IH st1).
  destruct (each rows _ st1) as [st2| |]; try done.
  destruct IH as [Hl Hrows]. split; [congruence|].
  intros Hne. constructor; [|rewrite <- H; by apply Hrows].
  destruct cols as [|col cols]; [done|]. simpl in E.
  destruct (decide (0 <= row < Z.of_nat (length st.1))) as [|Hoff]; [done|].
  exfalso. unfold sweep_cell at 1 in E. unfold orb_at, js_get in E.
  destruct (Z.ltb_spec row 0); [discriminate|].
  rewrite (proj2 (lookup_ge_None st.1 (Z.to_nat row))) in E by lia. discriminate.
Qed.

Lemma mark_groups_length ms : forall st st',
  each ms mark_match st = Ok st' -> length st'.2 = length st.2.
Proof.
  induction ms as [|m ms IH]; intros st st'; cbn [each].
  - by intros [= ->].
  - pose proof (mark_match_outcome st m) as H1.
    destruct (mark_match st m) as [st1| |]; cbn [bind]; try done.
    intros E. rewrite (IH _ _ E). tauto.
Qed.

(** X27.  [evaluate] sweeps the rows 0 to [height - 1].  On a board whose
    grid has fewer rows than [height] (and whose [width] is at least 1) it
    throws a [TypeError], whatever the groups: also without any. *)
Theorem evaluate_throws_on_short_grid
    (b : Board) (matches : option (list (list coord))) (dropOptions : option (list orb))
    (g : Rand) :
  Z.of_nat (length (orbs b)) < height b -> 1 <= width b ->
  evaluate b matches dropOptions g = TypeError.
Proof.
  intros Hshort Hw. unfold evaluate.
  pose proof (mark_groups_outcome (default [] matches) ([], orbs b)) as Hm.
  destruct (each (default [] matches) mark_match ([], orbs b)) as [[ev om]| |] eqn:Em;
    cbn [bind]; try done.
  pose proof (mark_groups_length _ _ _ Em) as Hlen. simpl in Hlen.
  unfold sweep. cbn [fst snd].
  pose proof (sweep_rows_outcome (default (types b) dropOptions)
                (Lodash.range 0 (width b)) (Lodash.range 0 (height b)) (om, g)) as Hs.
  destruct (each (Lodash.range 0 (height b)) _ (om, g)) as [st| |]; cbn [bind]; try done.
  exfalso. destruct Hs as [_ Hrows]. cbn [fst] in Hrows.
  assert (Lodash.range 0 (width b) <> []) as Hcols.
  { unfold Lodash.range. destruct (Z.ltb_spec 0 (width b)); [|lia].
    replace (Z.to_nat (width b - 0)) with (S (Z.to_nat (width b - 1))) by lia. done. }
  specialize (Hrows Hcols).
  assert (Z.of_nat (length om) ∈ Lodash.range 0 (height b)) as Hin.
  { unfold Lodash.range. destruct (Z.ltb_spec 0 (height b)); [|lia].
    apply list_elem_of_fmap. exists (length om). split; [lia|].
    apply elem_of_seq. lia. }
  eapply Forall_forall in Hrows; [|exact Hin]. simpl in Hrows. lia.
Qed.

Lemma evaluate_throws_on_short_grid_witness :
  evaluate (sampled_board 4 5 [Tok 0; Tok 1] (replay tall_draws)).1 None None (replay [])
  = TypeError.
Proof.
  apply evaluate_throws_on_short_grid.
  - vm_compute. reflexivity.
  - vm_compute. discriminate.
Defined.

(** X28.  The constructor keeps the [_.zip] of [height] sampled rows of
    [width] orbs: for a width and a height of at least 1, the sampled grid
    has [width] rows of [height] orbs, so that it has the shape of the data
    model, [height] rows of [width] orbs, only when the two are equal. *)
Theorem sampled_grid_is_transposed (w h : nat) (ts : list orb) (g : Rand) :
  (1 <= w)%nat -> (1 <= h)%nat ->
  rect (orbs (sampled_board (Z.of_nat w) (Z.of_nat h) ts g).1) w h /\
  width (sampled_board (Z.of_nat w) (Z.of_nat h) ts g).1 = Z.of_nat w /\
  height (sampled_board (Z.of_nat w) (Z.of_nat h) ts g).1 = Z.of_nat h /\
  (wf_board (sampled_board (Z.of_nat w) (Z.of_nat h) ts g).1 <-> w = h).
Proof.
  intros Hw Hh. unfold sampled_board. rewrite !Nat2Z.id.
  set (chooseOrb := fun g0 : Rand =>
         let '(o, g') := Lodash.sample ts g0 in (default Undefined o, g')).
  pose proof (times_length h (Lodash.times w chooseOrb) g) as Hl.
  pose proof (times_Forall (fun row : list orb => length row = w) h
                (Lodash.times w chooseOrb) g
                (fun g0 => times_length w chooseOrb g0)) as Hrows.
  destruct (Lodash.times h (Lodash.times w chooseOrb) g) as [rows g1].
  simpl in *.
  assert (rect (Lodash.zip rows) w h) as Hrect by (apply zip_rect; [by split|lia]).
  split; [done|]. split; [done|]. split; [done|].
  unfold wf_board. simpl. rewrite !Nat2Z.id. split.
  - intros (_ & _ & [Hlen _]). destruct Hrect as [Hlen' _]. congruence.
  - intros ->. repeat split; try lia; apply Hrect.
Qed.

Lemma sampled_grid_is_transposed_witness :
  rect (orbs (sampled_board (Z.of_nat 2) (Z.of_nat 4) [Tok 0; Tok 1]
                (replay narrow_draws)).1) 2 4 /\
  width (sampled_board (Z.of_nat 2) (Z.of_nat 4) [Tok 0; Tok 1] (replay narrow_draws)).1
  = Z.of_nat 2 /\
  height (sampled_board (Z.of_nat 2) (Z.of_nat 4) [Tok 0; Tok 1] (replay narrow_draws)).1
  = Z.of_nat 4 /\
  (wf_board (sampled_board (Z.of_nat 2) (Z.of_nat 4) [Tok 0; Tok 1]
               (replay narrow_draws)).1 <-> 2%nat = 4%nat).
Proof.
  apply sampled_grid_is_transposed; lia.
Defined.

(** * Construction and [shuffle] on square boards *)

(** ** Calls that throw nothing *)











(** ** A sample of one orb only

    When every sampled orb is the same, every exchange that [_unmatch]
    could make is refused and its random fallback draws without end. *)











(** ** Chequered grids

    A grid of two orbs in a chequered pattern has no run; with the orbs at
    (0, 1) and (n - 1, n - 1) exchanged it has one, along the top row. *)

















(** ** A construction that repairs its sample

    For width and height [n] of at least 4 and two orbs [a] and [c] of the
    types, under [repair_tape]: the sample has one run, along the top row;
    [shuffle] leaves the rows as they are; [unmatch] targets the middle of
    the run with [skipToRandom] set, and the random fallback exchanges it
    with the last cell of the grid, which gives the chequered grid. *)

Section repair.
Variables (n : nat) (ts : list orb) (a c : orb).
Hypothesis Hn : (4 <= n)%nat.
Hypothesis Ha : a ∈ ts.
Hypothesis Hc : c ∈ ts.
Hypothesis Hne : a <> c.














End repair.

(** ** What construction and [shuffle] hand out *)



